(** * xpp::opt::MotionOptimizerFacade

    A shallow embedding of [src/motion_optimizer_facade.cc]: the
    construction of the optimisation variables ([BuildVariables], with its
    two base representations), the solver dispatch ([SolveProblem]) and the
    reconstruction of sampled trajectories ([BuildTrajectory],
    [GetTrajectories]).

    The classes the facade talks to (Composite, ContactSchedule, NodeValues
    and its subclasses, CoeffSpline, the NLP, the solvers, the robot model
    and the parameters) are declared in headers that are not part of the
    sources.  Objects that are plain data for the facade (parameters, robot
    model) are records whose getters are fields; the variable blocks are
    records of what the facade passes to their constructors and setters;
    their numerical methods ([GetPoint], [IsInContact], [GetTotalTime], ...)
    are variables of the section of the facade, so every theorem holds for
    any implementation of them.  The constructor of the facade and
    [BuildDefaultInitialState] only fill the fields of the facade, which
    are arbitrary here. *)

From Stdlib Require Import String List ZArith QArith Qround Floats Bool Lia
  Arith.
Import ListNotations.

Set Implicit Arguments.
Set Warnings "-inexact-float".
Close Scope Q_scope.

(** ** The scalar type

    The facade computes with C++ [double].  The only operations it applies
    to time values are the literal [0.0], the literal [1e-5], [+] and [<=];
    they are collected in a class; its instance is IEEE-754 binary64
    (Rocq's primitive floats), the arithmetic the program runs. *)

Class Scalar (double : Type) : Type := {
  d0    : double;                       (* the literal 0.0  *)
  d1e_5 : double;                       (* the literal 1e-5 *)
  dadd  : double -> double -> double;   (* a + b  *)
  dleb  : double -> double -> bool;     (* a <= b *)
  dltb  : double -> double -> bool      (* a < b  *)
}.

#[global] Instance binary64 : Scalar float := {|
  d0    := 0%float;
  d1e_5 := 1e-5%float;
  dadd  := PrimFloat.add;
  dleb  := PrimFloat.leb;
  dltb  := PrimFloat.ltb
|}.

(** The unary minus of [double], which [BuildDefaultInitialState] applies
    to the height of the nominal stance. *)
Class Negation (double : Type) : Type := dopp : double -> double.

#[global] Instance binary64_opp : Negation float := PrimFloat.opp.

(** ** Failure

    [GetComponent] on a missing or ill-typed block, [std::vector::at] out
    of range and [assert(false)] all end the run of the facade; the model
    keeps which one did.  [OutOfFuel] is not a behaviour of the program: it
    marks a run of the sampling loop that the given fuel could not finish. *)

Inductive error : Set :=
| LookupError
| OutOfRange
| AssertionFailed
| OutOfFuel.

Inductive outcome (A : Type) : Type :=
| Ok  (a : A)
| Err (e : error).
Arguments Err {A} e.

(** Computations on one mutable object of type [S] that may fail. *)
Definition M (S A : Type) : Type := S -> outcome (A * S).

Definition ret {S A} (a : A) : M S A := fun s => Ok (a, s).
Definition raise {S A} (e : error) : M S A := fun _ => Err e.
Definition bind {S A B} (m : M S A) (k : A -> M S B) : M S B :=
  fun s => match m s with
           | Ok (a, s') => k a s'
           | Err e => Err e
           end.
Definition lift {S A} (o : outcome A) : M S A :=
  fun s => match o with Ok a => Ok (a, s) | Err e => Err e end.

Declare Scope facade_scope.
Delimit Scope facade_scope with facade.
Notation "x <- m ;; k" := (bind m (fun x => k))
  (at level 61, m at next level, right associativity) : facade_scope.
Notation "m ;;; k" := (bind m (fun _ => k))
  (at level 61, right associativity) : facade_scope.
Open Scope facade_scope.

(** A [for] loop over a container, with the loop-carried values in [acc]. *)
Fixpoint for_each {S A B} (xs : list A) (body : B -> A -> M S B) (acc : B)
  : M S B :=
  match xs with
  | [] => ret acc
  | x :: xs' => acc' <- body acc x ;; for_each xs' body acc'
  end.

(** [v.at(i)] of [std::vector], and [v.At(ee)] of the containers indexed
    by limb: outside the container the run ends. *)
Definition at_ {A} (v : list A) (i : nat) : outcome A :=
  match nth_error v i with
  | Some a => Ok a
  | None => Err OutOfRange
  end.

(** [v.At(i) = a] on a container that already holds index [i]. *)
Fixpoint set_At {A} (v : list A) (i : nat) (a : A) : list A :=
  match v, i with
  | [], _ => []
  | _ :: v', O => a :: v'
  | b :: v', S i' => b :: set_At v' i' a
  end.

(** ** Names of the variable blocks *)

(** Modelled from the spec: [variable_names.h] is not part of the
    sources; the names follow a fixed scheme with one name per limb and
    purpose and one per base axis group.  Names are kept symbolic: every
    naming function of [namespace id] is a constructor, so that names made
    for different purposes, limbs or indices differ. *)

Abbreviation EndeffectorID := nat (only parsing).
Definition E0 : EndeffectorID := 0%nat.

Module id.
Inductive Id : Set :=
| base_linear
| base_angular
| indexed (prefix : Id) (i : nat)      (* prefix + std::to_string(i) *)
| GetEEScheduleId (ee : EndeffectorID)
| GetEEXYMotionId (ee : EndeffectorID)
| GetEEZMotionId  (ee : EndeffectorID)
| GetEEForceId    (ee : EndeffectorID).

Definition eq_dec (a b : Id) : {a = b} + {a <> b}.
Proof. decide equality; apply Nat.eq_dec. Defined.

Definition eqb (a b : Id) : bool := if eq_dec a b then true else false.
End id.

(** cartesian_declarations.h *)
Module Coords3D.
Inductive t : Set := X | Y | Z.
End Coords3D.

Inductive MotionDerivative : Set := kPos | kVel | kAcc | kJerk.

Definition kDim3d : Z := 3%Z.

(** [StateLin3d::kNumDim] *)
Definition kNumDim : Z := 3%Z.

(** The enumerations of the parameters and of the solvers.  The facade
    names two representations, one constraint and two solvers; a C++
    enumeration can hold any other value of its underlying type, which is
    what the [default:] branches of the facade are for. *)
Inductive BaseRepresentation : Set :=
| CubicHermite
| PolyCoeff
| OtherRepresentation (value : Z).

Inductive NlpSolver : Set :=
| Ipopt
| Snopt
| OtherSolver (value : Z).

Inductive ConstraintName : Set :=
| TotalTime
| OtherConstraint (value : Z).

Inductive CostName : Set :=
| Cost (value : Z).

(** ** Data model *)

Section DataModel.
Variable double : Type.

Definition VectorXd : Type := list double.
Definition Vector3d : Type := VectorXd.

(** StateLinXd / StateLin3d: position, velocity and acceleration. *)
Record StateLinXd : Type := {
  p_ : VectorXd;
  v_ : VectorXd;
  a_ : VectorXd
}.
Definition StateLin3d : Type := StateLinXd.

(** The base pose the facade stores in [inital_base_] and [final_base_]:
    a linear state and an angular one in Euler angles (roll, pitch, yaw). *)
Record State3dEuler : Type := {
  lin : StateLin3d;
  ang : StateLin3d
}.

(** *** Variable blocks *)

Inductive NodeSelector : Set := StartNode | FinalNode.

(** What [AddStartBound] / [AddFinalBound] record: the node, the
    derivative, the dimensions and the value they are fixed to. *)
Record Bound : Type := {
  bound_node  : NodeSelector;
  bound_deriv : MotionDerivative;
  bound_dims  : list Coords3D.t;
  bound_value : VectorXd
}.

Definition ContactVector : Type := list bool.

(** NodeValues and its subclasses, told apart by what their constructors
    take beside the dimension and the name. *)
Inductive NodesKind : Type :=
| HermiteNodes (n_polys : nat)
| EndeffectorNodes (contact_sequence : ContactVector)
                   (n_polys_in_changing_phase : Z)
| ForceNodes (contact_sequence : ContactVector)
             (force_splines_per_stance_phase : Z)
             (force_limit : double).

Record NodeValues : Type := {
  nodes_kind   : NodesKind;
  nodes_dim    : Z;
  nodes_id     : id.Id;
  nodes_values : VectorXd;      (* the free values of the block *)
  nodes_bounds : list Bound
}.

Record ContactSchedule : Type := {
  schedule_ee      : EndeffectorID;
  schedule_timings : list double;   (* its free values: the durations *)
  min_duration     : double;
  max_duration     : double;
  observers        : list id.Id     (* the blocks AddObserver registered *)
}.

Record Polynomial : Type := {
  poly_order : Z;
  poly_dim   : Z
}.

Record PolynomialVars : Type := {
  polyvars_id     : id.Id;
  polyvars_poly   : Polynomial;
  polyvars_values : VectorXd      (* the coefficients *)
}.

Record CoeffSpline : Type := {
  coeff_id      : id.Id;
  coeff_timings : list double;
  poly_vars_    : list PolynomialVars
}.

Inductive Component : Type :=
| CContactSchedule (c : ContactSchedule)
| CNodeValues      (n : NodeValues)
| CPolynomialVars  (p : PolynomialVars)
| CCoeffSpline     (c : CoeffSpline).

Definition GetName (c : Component) : id.Id :=
  match c with
  | CContactSchedule s => id.GetEEScheduleId (schedule_ee s)
  | CNodeValues n      => nodes_id n
  | CPolynomialVars p  => polyvars_id p
  | CCoeffSpline s     => coeff_id s
  end.

(** *** The composite *)

(** Modelled from the spec: the class Composite is not part of the
    sources.  It is an ordered collection of blocks, each with the flag
    [AddComponent] was given (whether the block contributes free values to
    the optimisation vector, true when the call leaves it out). *)

Record Entry : Type := {
  entry_component   : Component;
  entry_is_variable : bool
}.

Record Composite : Type := {
  composite_name : string;
  composite_flag : bool;
  components     : list Entry
}.

(** Modelled from the spec: [GetComponent<T>(id)] is the first block of
    that name; it fails when there is none or when the block is not a
    [T]. *)
Definition find_entry (name : id.Id) (es : list Entry) : option Entry :=
  find (fun e => id.eqb (GetName (entry_component e)) name) es.

(** Blocks that are a [Spline]: the node blocks and the coefficient spline. *)
Definition as_Spline (c : Component) : option Component :=
  match c with
  | CNodeValues _ | CCoeffSpline _ => Some c
  | CContactSchedule _ | CPolynomialVars _ => None
  end.

Definition as_ContactSchedule (c : Component) : option ContactSchedule :=
  match c with
  | CContactSchedule s => Some s
  | _ => None
  end.

Definition GetComponent {T} (cast : Component -> option T) (name : id.Id)
  : M Composite T :=
  fun vars =>
    match find_entry name (components vars) with
    | Some e =>
        match cast (entry_component e) with
        | Some t => Ok (t, vars)
        | None => Err LookupError
        end
    | None => Err LookupError
    end.

Definition AddComponent (c : Component) (is_variable : bool)
  : M Composite unit :=
  fun vars =>
    Ok (tt, {| composite_name := composite_name vars;
               composite_flag := composite_flag vars;
               components := components vars
                             ++ [{| entry_component := c;
                                    entry_is_variable := is_variable |}] |}).

Definition ClearComponents : M Composite unit :=
  fun vars =>
    Ok (tt, {| composite_name := composite_name vars;
               composite_flag := composite_flag vars;
               components := [] |}).

(** The blocks of a composite are shared pointers: a block changed through
    a pointer the caller kept is changed in the composite, wherever the
    composite holds it.  A pointer the caller keeps is its object as it
    was made, with the places of the composite that hold the object. *)
Record Pointer (T : Type) : Type := {
  target : T;
  places : list nat
}.
Arguments target {T} _.
Arguments places {T} _.

Fixpoint change_at {A : Type} (i : nat) (f : A -> A) (l : list A) : list A :=
  match l, i with
  | [], _ => []
  | x :: l', O => f x :: l'
  | x :: l', S i' => x :: change_at i' f l'
  end.

Definition held_at {T : Type} (place : nat) (p : Pointer T) : Pointer T :=
  {| target := target p; places := places p ++ [place] |}.

Definition on_component (f : Component -> Component) (e : Entry) : Entry :=
  {| entry_component := f (entry_component e);
     entry_is_variable := entry_is_variable e |}.

(** The place [AddComponent] puts the next block at. *)
Definition NextPlace : M Composite nat :=
  fun vars => Ok (List.length (components vars), vars).

(** The write through a pointer: every place that holds the object shows
    it. *)
Definition write {T : Type} (p : Pointer T) (f : Component -> Component)
  : M Composite unit :=
  fun vars =>
    Ok (tt, {| composite_name := composite_name vars;
               composite_flag := composite_flag vars;
               components :=
                 fold_left (fun es place => change_at place (on_component f) es)
                           (places p) (components vars) |}).

(** *** The sampled robot state *)

Variable StateAng3d : Type.

Record State3d : Type := {
  base_lin : StateLin3d;     (* base_.lin *)
  base_ang : StateAng3d      (* base_.ang *)
}.

Record RobotStateCartesian : Type := {
  base_       : State3d;
  ee_motion_  : list StateLin3d;
  ee_forces_  : list Vector3d;
  ee_contact_ : list bool;
  t_global_   : double
}.

Definition RobotStateVec : Type := list RobotStateCartesian.

(** *** The collaborators that are plain data *)

(** The robot model, by its getters. *)
Record RobotModel : Type := {
  GetEECount             : nat;
  GetEEIDs               : list EndeffectorID;
  GetNominalStanceInBase : list Vector3d;
  GetForceLimit          : double;
  GetStandingZForce      : double
}.

(** The optimisation parameters, by their getters and public members. *)
Record OptimizationParameters : Type := {
  GetBaseRepresentation           : BaseRepresentation;
  GetBasePolyDurations            : list double;
  order_coeff_polys_              : Z;
  contact_timings_                : list (list double);
  min_phase_duration_             : double;
  max_phase_duration_             : double;
  force_splines_per_stance_phase_ : Z;
  ConstraintExists                : ConstraintName -> bool;
  GetUsedConstraints              : list ConstraintName;
  GetCostWeights                  : list (CostName * double)
}.

Variable Terrain : Type.
Variable NLP : Type.

Record MotionOptimizerFacade : Type := {
  params_       : OptimizationParameters;
  model_        : RobotModel;
  terrain_      : Terrain;
  inital_base_  : State3dEuler;
  final_base_   : State3dEuler;
  initial_ee_W_ : list Vector3d;
  nlp           : NLP
}.

End DataModel.

Arguments as_Spline {double} c.
Arguments as_ContactSchedule {double} c.
Arguments ClearComponents {double}.
Arguments NextPlace {double}.
Arguments target {T} _.
Arguments places {T} _.
Arguments held_at {T} place p.
Arguments write {double T} p f.

(** ** The facade *)

Section Facade.
Context {double : Type} {SC : Scalar double}.

(** *** What the absent classes compute

    Types and methods of the headers that are not part of the sources.
    Nothing is assumed of them. *)

Variable StateAng3d : Type.
Variable Terrain : Type.
Variable NLP : Type.
Variable ConstraintPtr : Type.

(* AngularStateConverter::GetState *)
Variable GetState : StateLinXd double -> StateAng3d.
(* ContactSchedule *)
Variable GetTotalTime : ContactSchedule double -> double.
Variable IsInContact : ContactSchedule double -> double -> bool.
Variable GetContactSequence : ContactSchedule double -> ContactVector.
Variable GetTimePerPhase : ContactSchedule double -> list double.
(* Spline::GetPoint, virtual *)
Variable GetPoint : Component double -> double -> StateLinXd double.
(* NodeValues::InitializeVariables: the values it leaves in the block *)
Variable InitialNodeValues :
  NodeValues double -> VectorXd double -> VectorXd double -> list double ->
  VectorXd double.
(* PolynomialVars: the coefficients after construction, and the ones
   CoeffSpline::InitializeVariables gives the i-th polynomial *)
Variable NewCoefficients : Polynomial -> VectorXd double.
Variable InitialCoefficients :
  list double -> nat -> Polynomial -> VectorXd double -> VectorXd double ->
  VectorXd double.
(* NLP, CostConstraintFactory and the solvers *)
Variable nlp_Init : NLP -> Composite double -> NLP.
Variable nlp_AddConstraint : NLP -> string * bool * list ConstraintPtr -> NLP.
Variable nlp_AddCost : NLP -> string * bool * list ConstraintPtr -> NLP.
Variable GetIterationCount : NLP -> Z.
Variable GetOptVariables : NLP -> Z -> Composite double.
Variable IpoptAdapter_Solve : NLP -> NLP.
Variable SnoptAdapter_Solve : NLP -> NLP.

Let Facade : Type := MotionOptimizerFacade double Terrain NLP.
Let Variables : Type := Composite double.
Let State : Type := RobotStateCartesian double StateAng3d.

Variable factory_GetConstraint :
  Facade -> Variables -> ConstraintName -> ConstraintPtr.
Variable factory_GetCost :
  Facade -> Variables -> CostName -> double -> ConstraintPtr.

(** *** Setters of the node blocks *)

Definition zero3 : Vector3d double := [d0; d0; d0].

(** Eigen's [a + b] on vectors. *)
Fixpoint vadd (a b : VectorXd double) : VectorXd double :=
  match a, b with
  | x :: a', y :: b' => dadd x y :: vadd a' b'
  | _, _ => []
  end.

(** [v.bottomRows<1>()] *)
Definition bottomRows1 (v : VectorXd double) : VectorXd double :=
  skipn (List.length v - 1) v.

Definition make_NodeValues (kind : NodesKind double) (n_dim : Z)
  (name : id.Id) : NodeValues double :=
  {| nodes_kind := kind; nodes_dim := n_dim; nodes_id := name;
     nodes_values := []; nodes_bounds := [] |}.

Definition InitializeVariables (n : NodeValues double)
  (initial final : VectorXd double) (timings : list double)
  : NodeValues double :=
  {| nodes_kind := nodes_kind n; nodes_dim := nodes_dim n;
     nodes_id := nodes_id n;
     nodes_values := InitialNodeValues n initial final timings;
     nodes_bounds := nodes_bounds n |}.

(** Modelled from the spec: [AddStartBound] and [AddFinalBound] of
    NodeValues (absent) record a boundary constraint on the first or the
    last node. *)
Definition AddBound (node : NodeSelector) (n : NodeValues double)
  (d : MotionDerivative) (dims : list Coords3D.t) (val : VectorXd double)
  : NodeValues double :=
  {| nodes_kind := nodes_kind n; nodes_dim := nodes_dim n;
     nodes_id := nodes_id n; nodes_values := nodes_values n;
     nodes_bounds := nodes_bounds n
                     ++ [{| bound_node := node; bound_deriv := d;
                            bound_dims := dims; bound_value := val |}] |}.

Definition AddStartBound := AddBound StartNode.
Definition AddFinalBound := AddBound FinalNode.

(** Modelled from the spec: [schedule->AddObserver(block)] (absent)
    registers the block with the schedule the pointer refers to; the
    composite holds that very schedule. *)
Definition add_observer (name : id.Id) (c : Component double)
  : Component double :=
  match c with
  | CContactSchedule s =>
      CContactSchedule
        {| schedule_ee := schedule_ee s;
           schedule_timings := schedule_timings s;
           min_duration := min_duration s;
           max_duration := max_duration s;
           observers := observers s ++ [name] |}
  | _ => c
  end.

Definition AddObserver (schedule : Pointer (ContactSchedule double))
  (observer : NodeValues double) : M Variables unit :=
  write schedule (add_observer (nodes_id observer)).

(** *** SetBaseRepresentationHermite (lines 166 to 230) *)

Definition hermite_spline (base_spline_timings_ : list double)
  (tuple : id.Id * StateLin3d double * StateLin3d double)
  : NodeValues double :=
  let '(name, init, final) := tuple in
  let spline :=
    make_NodeValues (HermiteNodes double (List.length base_spline_timings_))
                    kNumDim name in
  let spline :=
    InitializeVariables spline (p_ init) (p_ final) base_spline_timings_ in
  let dimensions := [Coords3D.X; Coords3D.Y; Coords3D.Z] in
  let spline := AddStartBound spline kPos dimensions (p_ init) in
  let spline := AddStartBound spline kVel dimensions (v_ init) in
  let spline := AddFinalBound spline kVel dimensions (v_ final) in
  let spline :=
    if id.eqb name id.base_linear
    then AddFinalBound spline kPos [Coords3D.X; Coords3D.Y] (p_ final)
    else spline in
  let spline :=
    if id.eqb name id.base_angular
    then AddFinalBound spline kPos [Coords3D.Z] (p_ final)
    else spline in
  spline.

Definition SetBaseRepresentationHermite (this : Facade) : M Variables unit :=
  let base_spline_timings_ := GetBasePolyDurations (params_ this) in
  let linear :=
    (id.base_linear, lin (inital_base_ this), lin (final_base_ this)) in
  let angular :=
    (id.base_angular, ang (inital_base_ this), ang (final_base_ this)) in
  for_each [linear; angular]
    (fun _ tuple =>
       AddComponent (CNodeValues (hermite_spline base_spline_timings_ tuple))
                    true)
    tt.

(** *** SetBaseRepresentationCoeff (lines 136 to 164) *)

Definition set_coefficients (p : PolynomialVars double)
  (values : VectorXd double) : PolynomialVars double :=
  {| polyvars_id := polyvars_id p; polyvars_poly := polyvars_poly p;
     polyvars_values := values |}.

(** [CoeffSpline::InitializeVariables]: it writes the coefficients of the
    polynomials the spline points to, which are blocks of the composite;
    [held] are the places of these blocks. *)
Definition CoeffSpline_InitializeVariables (spline : CoeffSpline double)
  (held : list nat) (initial final : VectorXd double)
  : M Variables (CoeffSpline double) :=
  let initialised :=
    map (fun '(i, p) =>
           set_coefficients p
             (InitialCoefficients (coeff_timings spline) i (polyvars_poly p)
                                  initial final))
        (combine (seq 0 (List.length (poly_vars_ spline)))
                 (poly_vars_ spline)) in
  for_each (combine held initialised)
    (fun _ '(place, p) =>
       write {| target := p; places := [place] |}
             (fun _ => CPolynomialVars p))
    tt ;;;
  ret {| coeff_id := coeff_id spline;
         coeff_timings := coeff_timings spline;
         poly_vars_ := initialised |}.

Definition coeff_spline (this : Facade) (name : id.Id)
  (initial final : VectorXd double) : M Variables unit :=
  let n_dim := kNumDim in
  let order := order_coeff_polys_ (params_ this) in
  let base_spline_timings_ := GetBasePolyDurations (params_ this) in
  let spline :=
    {| coeff_id := name; coeff_timings := base_spline_timings_;
       poly_vars_ := [] |} in
  made <-
    for_each (seq 0 (List.length base_spline_timings_))
      (fun made i =>
         let spline := fst made in
         let p := {| poly_order := order; poly_dim := n_dim |} in
         let var := {| polyvars_id := id.indexed name i;
                       polyvars_poly := p;
                       polyvars_values := NewCoefficients p |} in
         place <- NextPlace ;;
         AddComponent (CPolynomialVars var) true ;;;
         ret ({| coeff_id := coeff_id spline;
                 coeff_timings := coeff_timings spline;
                 poly_vars_ := poly_vars_ spline ++ [var] |},
              snd made ++ [place]))
      (spline, []) ;;
  spline <-
    CoeffSpline_InitializeVariables (fst made) (snd made) initial final ;;
  AddComponent (CCoeffSpline spline) false. (* add just for easy access later *)

Definition SetBaseRepresentationCoeff (this : Facade) : M Variables unit :=
  coeff_spline this id.base_angular
    (p_ (ang (inital_base_ this))) (p_ (ang (final_base_ this))) ;;;
  coeff_spline this id.base_linear
    (p_ (lin (inital_base_ this))) (p_ (lin (final_base_ this))).

(** *** BuildVariables (lines 59 to 134) *)

Definition make_ContactSchedule (this : Facade) (ee : EndeffectorID)
  (timings : list double) : ContactSchedule double :=
  {| schedule_ee := ee;
     schedule_timings := timings;
     min_duration := min_phase_duration_ (params_ this);
     max_duration := max_phase_duration_ (params_ this);
     observers := [] |}.

(** The loop of lines 80 to 87; [contact_schedule] is the local vector of
    shared pointers: the schedule made in a round is pushed, the one at
    index [ee] is what the composite gets. *)
Definition add_schedule (this : Facade)
  (contact_schedule : list (Pointer (ContactSchedule double)))
  (ee : EndeffectorID)
  : M Variables (list (Pointer (ContactSchedule double))) :=
  timings <- lift (at_ (contact_timings_ (params_ this)) ee) ;;
  let contact_schedule :=
    contact_schedule
    ++ [{| target := make_ContactSchedule this ee timings; places := [] |}] in
  let optimize_timings := ConstraintExists (params_ this) TotalTime in
  schedule <- lift (at_ contact_schedule ee) ;;
  place <- NextPlace ;;
  AddComponent (CContactSchedule (target schedule)) optimize_timings ;;;
  ret (change_at ee (held_at place) contact_schedule).

(** The loop of lines 91 to 113. *)
Definition add_motion (this : Facade)
  (contact_schedule : list (Pointer (ContactSchedule double))) (_ : unit)
  (ee : EndeffectorID) : M Variables unit :=
  pointer <- lift (at_ contact_schedule ee) ;;
  let schedule := target pointer in
  let ee_motion_xy :=
    make_NodeValues (EndeffectorNodes double (GetContactSequence schedule) 1)
                    kDim3d (id.GetEEXYMotionId ee) in
  nominal <- lift (at_ (GetNominalStanceInBase (model_ this)) ee) ;;
  let final_ee_pos_W := vadd (p_ (lin (final_base_ this))) nominal in
  initial <- lift (at_ (initial_ee_W_ this) ee) ;;
  let ee_motion_xy :=
    InitializeVariables ee_motion_xy initial final_ee_pos_W
                        (GetTimePerPhase schedule) in
  let ee_motion_xy := (* only xy, z given by terrain *)
    AddStartBound ee_motion_xy kPos [Coords3D.X; Coords3D.Y] initial in
  AddComponent (CNodeValues ee_motion_xy) true ;;;
  AddObserver pointer ee_motion_xy ;;;
  (* endeffector z motion *)
  let ee_motion_z :=
    make_NodeValues (EndeffectorNodes double (GetContactSequence schedule) 2)
                    kDim3d (id.GetEEZMotionId ee) in
  let ee_motion_z :=
    InitializeVariables ee_motion_z (bottomRows1 initial)
                        (bottomRows1 final_ee_pos_W)
                        (GetTimePerPhase schedule) in
  AddComponent (CNodeValues ee_motion_z) true ;;;
  AddObserver pointer ee_motion_z.

(** The loop of lines 116 to 129. *)
Definition add_force (this : Facade)
  (contact_schedule : list (Pointer (ContactSchedule double))) (_ : unit)
  (ee : EndeffectorID) : M Variables unit :=
  pointer <- lift (at_ contact_schedule ee) ;;
  let schedule := target pointer in
  let nodes_forces :=
    make_NodeValues
      (ForceNodes (GetContactSequence schedule)
                  (force_splines_per_stance_phase_ (params_ this))
                  (GetForceLimit (model_ this)))
      kDim3d (id.GetEEForceId ee) in
  let f_stance := [d0; d0; GetStandingZForce (model_ this)] in
  let nodes_forces :=
    InitializeVariables nodes_forces f_stance f_stance
                        (GetTimePerPhase schedule) in
  AddComponent (CNodeValues nodes_forces) true ;;;
  AddObserver pointer nodes_forces.

(** [assert(false)] ends the run there, unless the macro [NDEBUG] of
    <cassert> has compiled the assertion away: then the run goes on. *)
Variable NDEBUG : bool.

Definition assert_false {S : Type} : M S unit :=
  if NDEBUG then ret tt else raise AssertionFailed.

(** The body of [BuildVariables] on the new composite; what [Print]
    writes is not modelled. *)
Definition build_variables (this : Facade) : M Variables unit :=
  ClearComponents ;;;
  match GetBaseRepresentation (params_ this) with
  | CubicHermite => SetBaseRepresentationHermite this
  | PolyCoeff => SetBaseRepresentationCoeff this
  | OtherRepresentation _ => assert_false (* default: assert(false); break; *)
  end ;;;
  contact_schedule <-
    for_each (GetEEIDs (model_ this)) (add_schedule this) [] ;;
  for_each (GetEEIDs (model_ this)) (add_motion this contact_schedule) tt ;;;
  for_each (GetEEIDs (model_ this)) (add_force this contact_schedule) tt.

(** [std::make_shared<Composite>("nlp_variables", true)], filled. *)
Definition BuildVariables (this : Facade) : outcome Variables :=
  match build_variables this
          {| composite_name := "nlp_variables";
             composite_flag := true;
             components := [] |} with
  | Ok (_, opt_variables) => Ok opt_variables
  | Err e => Err e
  end.

(** *** BuildCostConstraints and SolveProblem (lines 232 to 270) *)

Definition set_nlp (this : Facade) (n : NLP) : Facade :=
  {| params_ := params_ this; model_ := model_ this;
     terrain_ := terrain_ this; inital_base_ := inital_base_ this;
     final_base_ := final_base_ this; initial_ee_W_ := initial_ee_W_ this;
     nlp := n |}.

(** The factory is initialised with the variables and the data of the
    facade; the two composites it fills are given to the problem. *)
Definition BuildCostConstraints (this : Facade) (opt_variables : Variables)
  : Facade :=
  let GetConstraint := factory_GetConstraint this opt_variables in
  let GetCost := factory_GetCost this opt_variables in
  let constraints :=
    fold_left (fun cs name => cs ++ [GetConstraint name])
              (GetUsedConstraints (params_ this)) [] in
  let problem :=
    nlp_AddConstraint (nlp this) ("constraints"%string, true, constraints) in
  let costs :=
    fold_left (fun cs pair => cs ++ [GetCost (fst pair) (snd pair)])
              (GetCostWeights (params_ this)) [] in
  set_nlp this (nlp_AddCost problem ("costs"%string, false, costs)).

(** What [PrintCurrent] writes is not modelled. *)
Definition SolveProblem (this : Facade) (solver : NlpSolver)
  : outcome Facade :=
  match BuildVariables this with
  | Err e => Err e
  | Ok variables =>
      let this := set_nlp this (nlp_Init (nlp this) variables) in
      let this := BuildCostConstraints this variables in
      match solver with
      | Ipopt => Ok (set_nlp this (IpoptAdapter_Solve (nlp this)))
      | Snopt => Ok (set_nlp this (SnoptAdapter_Solve (nlp this)))
      | OtherSolver _ => (* default: assert(false), solver not implemented *)
          if NDEBUG then Ok this else Err AssertionFailed
      end
  end.

(** *** BuildTrajectory (lines 285 to 311) *)

(** [RobotStateCartesian state(n)], once its base and its time are known:
    the containers of the limbs hold [n] default entries. *)
Definition new_state (n : nat) (base : State3d double StateAng3d)
  (t : double) : State :=
  {| base_       := base;
     ee_motion_  := repeat {| p_ := zero3; v_ := zero3; a_ := zero3 |} n;
     ee_forces_  := repeat zero3 n;
     ee_contact_ := repeat false n;
     t_global_   := t |}.

(** Modelled from the spec: [state.ee_motion_.GetEEsOrdered()] (absent)
    gives the limbs of the container in order, [E0] first. *)
Definition GetEEsOrdered (state : State) : list EndeffectorID :=
  seq 0 (List.length (ee_motion_ state)).

(** The body of the loop over the limbs (lines 300 to 302). *)
Definition sample_limb (t : double) (state : State) (ee : EndeffectorID)
  : M Variables State :=
  schedule <- GetComponent as_ContactSchedule (id.GetEEScheduleId ee) ;;
  motion   <- GetComponent as_Spline (id.GetEEXYMotionId ee) ;;
  force    <- GetComponent as_Spline (id.GetEEForceId ee) ;;
  ret {| base_       := base_ state;
         ee_contact_ := set_At (ee_contact_ state) ee (IsInContact schedule t);
         ee_motion_  := set_At (ee_motion_ state) ee (GetPoint motion t);
         ee_forces_  := set_At (ee_forces_ state) ee (p_ (GetPoint force t));
         t_global_   := t_global_ state |}.

(** The body of the [while] loop (lines 294 to 305): the state at time
    [t].  The fields [base_] and [t_global_], assigned once each, are given
    when the state is made. *)
Definition sample_state (this : Facade) (t : double) : M Variables State :=
  linear  <- GetComponent as_Spline id.base_linear ;;
  angular <- GetComponent as_Spline id.base_angular ;;
  let state :=
    new_state (GetEECount (model_ this))
              {| base_lin := GetPoint linear t;
                 base_ang := GetState (GetPoint angular t) |}
              t in
  for_each (GetEEsOrdered state) (sample_limb t) state.

(** [while (t <= T+1e-5) { ...; trajectory.push_back(state); t += dt; }] *)
Fixpoint BuildTrajectory_loop (this : Facade) (fuel : nat) (dt T t : double)
  (trajectory : list State) : M Variables (list State) :=
  match fuel with
  | O => raise OutOfFuel
  | S fuel' =>
      if dleb t (dadd T d1e_5) then
        state <- sample_state this t ;;
        BuildTrajectory_loop this fuel' dt T (dadd t dt)
                             (trajectory ++ [state])
      else ret trajectory
  end.

Definition BuildTrajectory (this : Facade) (fuel : nat) (dt : double)
  : M Variables (list State) :=
  schedule <- GetComponent as_ContactSchedule (id.GetEEScheduleId E0) ;;
  let T := GetTotalTime schedule in
  BuildTrajectory_loop this fuel dt T d0 [].

(** *** GetTrajectories (lines 272 to 283) *)

(** [for (int iter=0; iter<nlp.GetIterationCount(); ++iter)], with the
    number of iterations left in [n]. *)
Fixpoint GetTrajectories_loop (this : Facade) (fuel : nat) (dt : double)
  (n : nat) (iter : Z) (trajectories : list (list State))
  : outcome (list (list State)) :=
  match n with
  | O => Ok trajectories
  | S n' =>
      let opt_var := GetOptVariables (nlp this) iter in
      match BuildTrajectory this fuel dt opt_var with
      | Ok (trajectory, _) =>
          GetTrajectories_loop this fuel dt n' (iter + 1)%Z
                               (trajectories ++ [trajectory])
      | Err e => Err e
      end
  end.

Definition GetTrajectories (this : Facade) (fuel : nat) (dt : double)
  : outcome (list (list State)) :=
  GetTrajectories_loop this fuel dt
    (Z.to_nat (GetIterationCount (nlp this))) 0%Z [].

(** *** Notions the statements use *)

(** The value of [t] after [k] rounds of a loop that starts at [t0]:
    [k] times [t += dt]. *)
Fixpoint time_after (dt t0 : double) (k : nat) : double :=
  match k with
  | O => t0
  | S k' => dadd (time_after dt t0 k') dt
  end.

(** The sample times [0, dt, 2*dt, ...] as the loop computes them. *)
Definition sample_time (dt : double) (k : nat) : double :=
  time_after dt d0 k.

(** [n] is the first round whose time fails the test [t <= T+1e-5]. *)
Definition exit_round (T dt : double) (n : nat) : Prop :=
  (forall k, (k < n)%nat -> dleb (sample_time dt k) (dadd T d1e_5) = true)
  /\ dleb (sample_time dt n) (dadd T d1e_5) = false.

(** The states at the given times, in order. *)
Fixpoint sample_each (this : Facade) (ts : list double)
  : M Variables (list State) :=
  match ts with
  | [] => ret []
  | t :: ts' =>
      state <- sample_state this t ;;
      states <- sample_each this ts' ;;
      ret (state :: states)
  end.

(** The result of a run without the final store. *)
Definition value {S A} (o : outcome (A * S)) : outcome A :=
  match o with
  | Ok (a, _) => Ok a
  | Err e => Err e
  end.

(** What [GetComponent] finds, as a function of the composite. *)
Definition lookup {T} (cast : Component double -> option T) (name : id.Id)
  (vars : Variables) : option T :=
  match find_entry name (components vars) with
  | Some e => cast (entry_component e)
  | None => None
  end.

Definition has {T} (cast : Component double -> option T) (name : id.Id)
  (vars : Variables) : bool :=
  match lookup cast name vars with
  | Some _ => true
  | None => false
  end.

(** The composite holds every block [BuildTrajectory] asks for. *)
Definition assigned (this : Facade) (vars : Variables) : bool :=
  has as_ContactSchedule (id.GetEEScheduleId E0) vars
  && has as_Spline id.base_linear vars
  && has as_Spline id.base_angular vars
  && forallb
       (fun ee =>
          has as_ContactSchedule (id.GetEEScheduleId ee) vars
          && has as_Spline (id.GetEEXYMotionId ee) vars
          && has as_Spline (id.GetEEForceId ee) vars)
       (seq 0 (GetEECount (model_ this))).

(** [state] is the robot state of the composite at time [t]: its time
    stamp is [t], and every field is the value at [t] of the block it is
    read from. *)
Definition sampled_at (this : Facade) (vars : Variables) (t : double)
  (state : State) : Prop :=
  t_global_ state = t
  /\ option_map (fun c => GetPoint c t) (lookup as_Spline id.base_linear vars)
     = Some (base_lin (base_ state))
  /\ option_map (fun c => GetState (GetPoint c t))
                (lookup as_Spline id.base_angular vars)
     = Some (base_ang (base_ state))
  /\ List.length (ee_contact_ state) = GetEECount (model_ this)
  /\ List.length (ee_motion_ state) = GetEECount (model_ this)
  /\ List.length (ee_forces_ state) = GetEECount (model_ this)
  /\ forall ee, (ee < GetEECount (model_ this))%nat ->
       option_map (fun c => IsInContact c t)
                  (lookup as_ContactSchedule (id.GetEEScheduleId ee) vars)
       = nth_error (ee_contact_ state) ee
       /\ option_map (fun c => GetPoint c t)
                     (lookup as_Spline (id.GetEEXYMotionId ee) vars)
          = nth_error (ee_motion_ state) ee
       /\ option_map (fun c => p_ (GetPoint c t))
                     (lookup as_Spline (id.GetEEForceId ee) vars)
          = nth_error (ee_forces_ state) ee.

(** The names [BuildTrajectory] passes to [GetComponent]. *)
Definition read_by_BuildTrajectory (name : id.Id) : Prop :=
  name = id.base_linear \/ name = id.base_angular
  \/ exists ee, name = id.GetEEScheduleId ee
                \/ name = id.GetEEXYMotionId ee
                \/ name = id.GetEEForceId ee.

(** Two composites hold the same block under every name in [P]. *)
Definition agree (P : id.Id -> Prop) (vars1 vars2 : Variables) : Prop :=
  forall name, P name ->
    find_entry name (components vars1) = find_entry name (components vars2).

(** [m] runs alike on two composites: same result or same failure, and
    each run leaves its composite as it found it. *)
Definition alike {A} (vars1 vars2 : Variables) (m : M Variables A) : Prop :=
  match m vars1, m vars2 with
  | Ok (a1, s1), Ok (a2, s2) => a1 = a2 /\ s1 = vars1 /\ s2 = vars2
  | Err e1, Err e2 => e1 = e2
  | _, _ => False
  end.

(** The limbs [a, a+m) of a state whose containers hold [N] entries. *)
Definition limbs_sampled (vars : Variables) (t : double) (a m : nat)
  (state : State) : Prop :=
  forall ee, (a <= ee < a + m)%nat ->
    option_map (fun c => IsInContact c t)
               (lookup as_ContactSchedule (id.GetEEScheduleId ee) vars)
    = nth_error (ee_contact_ state) ee
    /\ option_map (fun c => GetPoint c t)
                  (lookup as_Spline (id.GetEEXYMotionId ee) vars)
       = nth_error (ee_motion_ state) ee
    /\ option_map (fun c => p_ (GetPoint c t))
                  (lookup as_Spline (id.GetEEForceId ee) vars)
       = nth_error (ee_forces_ state) ee.

Definition sized (N : nat) (state : State) : Prop :=
  List.length (ee_contact_ state) = N
  /\ List.length (ee_motion_ state) = N
  /\ List.length (ee_forces_ state) = N.

Definition same_below (a : nat) (s s' : State) : Prop :=
  forall ee, (ee < a)%nat ->
    nth_error (ee_contact_ s') ee = nth_error (ee_contact_ s) ee
    /\ nth_error (ee_motion_ s') ee = nth_error (ee_motion_ s) ee
    /\ nth_error (ee_forces_ s') ee = nth_error (ee_forces_ s) ee.

Definition set_values (values : VectorXd double) (n : NodeValues double)
  : NodeValues double :=
  {| nodes_kind := nodes_kind n; nodes_dim := nodes_dim n;
     nodes_id := nodes_id n; nodes_values := values;
     nodes_bounds := nodes_bounds n |}.

(** The composite with the values of every z motion block replaced. *)
Definition assign_z (z : EndeffectorID -> VectorXd double)
  (e : Entry double) : Entry double :=
  match entry_component e with
  | CNodeValues n =>
      match nodes_id n with
      | id.GetEEZMotionId ee =>
          {| entry_component := CNodeValues (set_values (z ee) n);
             entry_is_variable := entry_is_variable e |}
      | _ => e
      end
  | _ => e
  end.

Definition assign_z_motion (z : EndeffectorID -> VectorXd double)
  (vars : Variables) : Variables :=
  {| composite_name := composite_name vars;
     composite_flag := composite_flag vars;
     components := map (assign_z z) (components vars) |}.

(** The trajectory of the iterate of index [i]. *)
Definition trajectory_of_iterate (this : Facade) (fuel : nat) (dt : double)
  (i : nat) : outcome (list State) :=
  value (BuildTrajectory this fuel dt
           (GetOptVariables (nlp this) (Z.of_nat i))).

(** The class of a block. *)
Inductive BlockKind : Set :=
| KContactSchedule
| KHermiteNodes
| KEndeffectorNodes (n_polys_in_changing_phase : Z)
| KForceNodes
| KPolynomialVars
| KCoeffSpline.

Definition kind_of (c : Component double) : BlockKind :=
  match c with
  | CContactSchedule _ => KContactSchedule
  | CNodeValues n =>
      match nodes_kind n with
      | HermiteNodes _ _ => KHermiteNodes
      | EndeffectorNodes _ _ k => KEndeffectorNodes k
      | ForceNodes _ _ _ => KForceNodes
      end
  | CPolynomialVars _ => KPolynomialVars
  | CCoeffSpline _ => KCoeffSpline
  end.

(** Name, class and flag of an entry: what [AddObserver] leaves alone. *)
Definition summary (e : Entry double) : id.Id * BlockKind * bool :=
  (GetName (entry_component e), kind_of (entry_component e),
   entry_is_variable e).

(** The blocks of the base: their names and classes. *)
Definition is_base_name (name : id.Id) : bool :=
  match name with
  | id.base_linear | id.base_angular | id.indexed _ _ => true
  | _ => false
  end.

Definition is_base_kind (k : BlockKind) : bool :=
  match k with
  | KHermiteNodes | KPolynomialVars | KCoeffSpline => true
  | _ => false
  end.

Definition base_block (e : Entry double) : bool :=
  is_base_name (GetName (entry_component e))
  && is_base_kind (kind_of (entry_component e)).

(** The summaries of the blocks of the limbs, as the three loops of
    [BuildVariables] add them. *)
Definition schedule_summary (this : Facade) (ee : EndeffectorID) :=
  (id.GetEEScheduleId ee, KContactSchedule,
   ConstraintExists (params_ this) TotalTime).

Definition motion_summaries (ee : EndeffectorID) :=
  [(id.GetEEXYMotionId ee, KEndeffectorNodes 1, true);
   (id.GetEEZMotionId ee, KEndeffectorNodes 2, true)].

Definition force_summary (ee : EndeffectorID) :=
  (id.GetEEForceId ee, KForceNodes, true).

(** The composite holds the blocks [base], then blocks of summaries [l]. *)
Definition built_on (base : list (Entry double))
  (l : list (id.Id * BlockKind * bool)) (vars : Variables) : Prop :=
  exists rest, components vars = base ++ rest /\ map summary rest = l.

(** What [BuildVariables] needs of the facade: the limbs are
    [E0 .. E(n-1)], each with contact timings, a nominal stance and an
    initial position, and the base representation is one of the two. *)
Definition well_formed (this : Facade) (n : nat) : Prop :=
  GetEEIDs (model_ this) = seq 0 n
  /\ (n <= List.length (contact_timings_ (params_ this)))%nat
  /\ (n <= List.length (GetNominalStanceInBase (model_ this)))%nat
  /\ (n <= List.length (initial_ee_W_ this))%nat
  /\ (GetBaseRepresentation (params_ this) = CubicHermite
      \/ GetBaseRepresentation (params_ this) = PolyCoeff).

(** The two blocks of the Hermite representation. *)
Definition hermite_base (this : Facade) : list (Entry double) :=
  let timings := GetBasePolyDurations (params_ this) in
  [{| entry_component :=
        CNodeValues
          (hermite_spline timings (id.base_linear, lin (inital_base_ this),
                                   lin (final_base_ this)));
      entry_is_variable := true |};
   {| entry_component :=
        CNodeValues
          (hermite_spline timings (id.base_angular, ang (inital_base_ this),
                                   ang (final_base_ this)));
      entry_is_variable := true |}].

(** Total correctness of a computation on the composite. *)
Definition triple {A} (P : Variables -> Prop) (m : M Variables A)
  (Q : A -> Variables -> Prop) : Prop :=
  forall vars, P vars -> exists a vars', m vars = Ok (a, vars') /\ Q a vars'.

(** The schedule of limb [ee], as line 81 makes it. *)
Definition schedule_of (this : Facade) (ee : EndeffectorID)
  : ContactSchedule double :=
  make_ContactSchedule this ee (nth ee (contact_timings_ (params_ this)) []).

(** The pointer to it the local vector holds after the loop of lines 80
    to 87, when the composite held [first] blocks before the loop. *)
Definition schedule_pointer (this : Facade) (first : nat)
  (ee : EndeffectorID) : Pointer (ContactSchedule double) :=
  {| target := schedule_of this ee; places := [(first + ee)%nat] |}.

Definition base_blocks (vars : Variables) : Prop :=
  Forall (fun e => base_block e = true) (components vars).

Definition named (name : id.Id) (s : id.Id * BlockKind * bool) : bool :=
  id.eqb (fst (fst s)) name.

(** The summaries of the blocks of the limbs [0 .. n-1]. *)
Definition limb_summaries (this : Facade) (n : nat)
  : list (id.Id * BlockKind * bool) :=
  map (schedule_summary this) (seq 0 n)
  ++ flat_map motion_summaries (seq 0 n)
  ++ map force_summary (seq 0 n).

Definition bound (node : NodeSelector) (d : MotionDerivative)
  (dims : list Coords3D.t) (val : VectorXd double) : Bound double :=
  {| bound_node := node; bound_deriv := d; bound_dims := dims;
     bound_value := val |}.

(** Start position and velocity and final velocity on the three axes, the
    final position on [dims] only. *)
Definition hermite_bounds (init final : StateLin3d double)
  (dims : list Coords3D.t) : list (Bound double) :=
  let all := [Coords3D.X; Coords3D.Y; Coords3D.Z] in
  [bound StartNode kPos all (p_ init);
   bound StartNode kVel all (v_ init);
   bound FinalNode kVel all (v_ final);
   bound FinalNode kPos dims (p_ final)].

(** The bounds of the node block of that name. *)
Definition bounds_of (vars : Variables) (name : id.Id)
  : option (list (Bound double)) :=
  match find_entry name (components vars) with
  | Some e =>
      match entry_component e with
      | CNodeValues nodes => Some (nodes_bounds nodes)
      | _ => None
      end
  | None => None
  end.

(** Some bound of [bs] fixes derivative [d] of node [node] on axis [dim]. *)
Definition bounded (bs : list (Bound double)) (node : NodeSelector)
  (d : MotionDerivative) (dim : Coords3D.t) : Prop :=
  exists b, In b bs /\ bound_node b = node /\ bound_deriv b = d
            /\ In dim (bound_dims b).

(** The composite holds exactly one block of that name, of that class. *)
Definition holds_block (vars : Variables) (name : id.Id) (kind : BlockKind)
  : Prop :=
  (exists e, find_entry name (components vars) = Some e
             /\ kind_of (entry_component e) = kind)
  /\ List.length
       (filter (fun e => id.eqb (GetName (entry_component e)) name)
               (components vars)) = 1%nat.

(** ** Proofs *)

(** *** The monad *)

Lemma bind_Ok {S A B} (m : M S A) (k : A -> M S B) s b s'' :
  bind m k s = Ok (b, s'') ->
  exists a s', m s = Ok (a, s') /\ k a s' = Ok (b, s'').
Proof.
  unfold bind. destruct (m s) as [[a s']|e]; [|discriminate].
  intros H. exists a, s'. split; [reflexivity|exact H].
Qed.

Lemma alike_ret {A} vars1 vars2 (a : A) : alike vars1 vars2 (ret a).
Proof. unfold alike, ret. auto. Qed.

Lemma alike_raise {A} vars1 vars2 e : alike vars1 vars2 (@raise _ A e).
Proof. unfold alike, raise. reflexivity. Qed.

Lemma alike_bind {A B} vars1 vars2 (m : M Variables A)
  (k : A -> M Variables B) :
  alike vars1 vars2 m ->
  (forall a, alike vars1 vars2 (k a)) ->
  alike vars1 vars2 (bind m k).
Proof.
  unfold alike, bind. intros Hm Hk.
  destruct (m vars1) as [[a1 s1]|e1], (m vars2) as [[a2 s2]|e2];
    try contradiction; try exact Hm.
  destruct Hm as (-> & -> & ->). apply Hk.
Qed.

Lemma alike_for_each {A B} vars1 vars2 (xs : list A)
  (body : B -> A -> M Variables B) :
  (forall acc x, alike vars1 vars2 (body acc x)) ->
  forall acc, alike vars1 vars2 (for_each xs body acc).
Proof.
  intros Hbody. induction xs as [|x xs IH]; intros acc; simpl.
  - apply alike_ret.
  - apply alike_bind; [apply Hbody|exact IH].
Qed.

Lemma alike_GetComponent {T} vars1 vars2
  (cast : Component double -> option T) name :
  find_entry name (components vars1) = find_entry name (components vars2) ->
  alike vars1 vars2 (GetComponent cast name).
Proof.
  unfold alike, GetComponent. intros <-.
  destruct (find_entry name (components vars1)) as [e|]; [|reflexivity].
  destruct (cast (entry_component e)); auto.
Qed.

Lemma GetComponent_lookup {T} (cast : Component double -> option T) name
  vars :
  GetComponent cast name vars
  = match lookup cast name vars with
    | Some t => Ok (t, vars)
    | None => Err LookupError
    end.
Proof.
  unfold GetComponent, lookup.
  destruct (find_entry name (components vars)); reflexivity.
Qed.

(** *** BuildTrajectory only reads, and only some names *)

Section Alike.
Variables (this : Facade) (vars1 vars2 : Variables).
Hypothesis Hagree : agree read_by_BuildTrajectory vars1 vars2.

Lemma agree_base_linear :
  find_entry id.base_linear (components vars1)
  = find_entry id.base_linear (components vars2).
Proof. apply Hagree. left. reflexivity. Qed.

Lemma agree_base_angular :
  find_entry id.base_angular (components vars1)
  = find_entry id.base_angular (components vars2).
Proof. apply Hagree. right. left. reflexivity. Qed.

Lemma agree_schedule ee :
  find_entry (id.GetEEScheduleId ee) (components vars1)
  = find_entry (id.GetEEScheduleId ee) (components vars2).
Proof. apply Hagree. right. right. exists ee. auto. Qed.

Lemma agree_motion ee :
  find_entry (id.GetEEXYMotionId ee) (components vars1)
  = find_entry (id.GetEEXYMotionId ee) (components vars2).
Proof. apply Hagree. right. right. exists ee. auto. Qed.

Lemma agree_force ee :
  find_entry (id.GetEEForceId ee) (components vars1)
  = find_entry (id.GetEEForceId ee) (components vars2).
Proof. apply Hagree. right. right. exists ee. auto. Qed.

Lemma alike_sample_limb t state ee :
  alike vars1 vars2 (sample_limb t state ee).
Proof.
  unfold sample_limb.
  apply alike_bind; [apply alike_GetComponent, agree_schedule|intros schedule].
  apply alike_bind; [apply alike_GetComponent, agree_motion|intros motion].
  apply alike_bind; [apply alike_GetComponent, agree_force|intros force].
  apply alike_ret.
Qed.

Lemma alike_sample_state t : alike vars1 vars2 (sample_state this t).
Proof.
  unfold sample_state.
  apply alike_bind; [apply alike_GetComponent, agree_base_linear|intros l].
  apply alike_bind; [apply alike_GetComponent, agree_base_angular|intros a].
  apply alike_for_each. intros acc x. apply alike_sample_limb.
Qed.

Lemma alike_BuildTrajectory_loop fuel dt T :
  forall t trajectory,
    alike vars1 vars2 (BuildTrajectory_loop this fuel dt T t trajectory).
Proof.
  induction fuel as [|fuel IH]; intros t trajectory; simpl.
  - apply alike_raise.
  - destruct (dleb t (dadd T d1e_5)).
    + apply alike_bind; [apply alike_sample_state|intros state; apply IH].
    + apply alike_ret.
Qed.

Lemma alike_BuildTrajectory fuel dt :
  alike vars1 vars2 (BuildTrajectory this fuel dt).
Proof.
  unfold BuildTrajectory.
  apply alike_bind; [apply alike_GetComponent, agree_schedule|intros s].
  apply alike_BuildTrajectory_loop.
Qed.

End Alike.

Lemma agree_refl P vars : agree P vars vars.
Proof. intros name _. reflexivity. Qed.

Lemma alike_value {A} vars1 vars2 (m : M Variables A) :
  alike vars1 vars2 m -> value (m vars1) = value (m vars2).
Proof.
  unfold alike, value.
  destruct (m vars1) as [[a1 s1]|e1], (m vars2) as [[a2 s2]|e2];
    try contradiction.
  - intros (-> & _). reflexivity.
  - intros ->. reflexivity.
Qed.

Lemma alike_unchanged {A} vars (m : M Variables A) a vars' :
  alike vars vars m -> m vars = Ok (a, vars') -> vars' = vars.
Proof.
  unfold alike. intros H E. rewrite E in H. destruct H as (_ & H & _).
  exact H.
Qed.

Lemma BuildTrajectory_unchanged this fuel dt vars trajectory vars' :
  BuildTrajectory this fuel dt vars = Ok (trajectory, vars') -> vars' = vars.
Proof.
  apply alike_unchanged, alike_BuildTrajectory, agree_refl.
Qed.

Lemma sample_state_unchanged this t vars state vars' :
  sample_state this t vars = Ok (state, vars') -> vars' = vars.
Proof.
  apply alike_unchanged, alike_sample_state, agree_refl.
Qed.


(** *** The state at one time *)

Lemma set_At_length {A} (v : list A) i a :
  List.length (set_At v i a) = List.length v.
Proof.
  revert i. induction v as [|b v IH]; intros [|i]; simpl; auto.
Qed.

Lemma nth_error_set_At_same {A} (v : list A) i a :
  (i < List.length v)%nat -> nth_error (set_At v i a) i = Some a.
Proof.
  revert i. induction v as [|b v IH]; intros [|i] H; simpl in *; try lia.
  - reflexivity.
  - apply IH. lia.
Qed.

Lemma nth_error_set_At_other {A} (v : list A) i j a :
  i <> j -> nth_error (set_At v i a) j = nth_error v j.
Proof.
  revert i j. induction v as [|b v IH]; intros [|i] [|j] H; simpl; auto.
  contradiction.
Qed.

Lemma sample_limb_Ok t state ee vars state' vars' :
  sample_limb t state ee vars = Ok (state', vars') ->
  exists schedule motion force,
    lookup as_ContactSchedule (id.GetEEScheduleId ee) vars = Some schedule
    /\ lookup as_Spline (id.GetEEXYMotionId ee) vars = Some motion
    /\ lookup as_Spline (id.GetEEForceId ee) vars = Some force
    /\ vars' = vars
    /\ state' =
       {| base_       := base_ state;
          ee_contact_ := set_At (ee_contact_ state) ee
                                (IsInContact schedule t);
          ee_motion_  := set_At (ee_motion_ state) ee (GetPoint motion t);
          ee_forces_  := set_At (ee_forces_ state) ee
                                (p_ (GetPoint force t));
          t_global_   := t_global_ state |}.
Proof.
  unfold sample_limb, bind, ret. rewrite !GetComponent_lookup.
  destruct (lookup as_ContactSchedule _ vars) as [schedule|]; [|discriminate].
  rewrite GetComponent_lookup.
  destruct (lookup as_Spline (id.GetEEXYMotionId ee) vars) as [motion|];
    [|discriminate].
  rewrite GetComponent_lookup.
  destruct (lookup as_Spline (id.GetEEForceId ee) vars) as [force|];
    [|discriminate].
  intros H. inversion H; subst. exists schedule, motion, force. auto.
Qed.

Lemma sample_limbs_sound N t vars :
  forall m a state state' vars',
    (a + m <= N)%nat -> sized N state ->
    for_each (seq a m) (sample_limb t) state vars = Ok (state', vars') ->
    vars' = vars /\ sized N state' /\ base_ state' = base_ state
    /\ t_global_ state' = t_global_ state
    /\ same_below a state state' /\ limbs_sampled vars t a m state'.
Proof.
  induction m as [|m IH]; intros a state state' vars' Hle Hsz; simpl.
  - unfold ret. intros H. inversion H; subst.
    split; [reflexivity|]. split; [exact Hsz|].
    split; [reflexivity|]. split; [reflexivity|].
    split; intros ee Hee; [auto|lia].
  - intros H. apply bind_Ok in H. destruct H as (s1 & v1 & H1 & H2).
    apply sample_limb_Ok in H1.
    destruct H1 as (schedule & motion & force & Es & Em & Ef & -> & ->).
    destruct Hsz as (Hc & Hm & Hf).
    apply IH in H2; [|lia|]; cycle 1.
    { unfold sized; simpl. rewrite !set_At_length. auto. }
    destruct H2 as (-> & Hsz' & Hb & Ht & Hsame & Hlimbs).
    simpl in Hb, Ht.
    split; [reflexivity|]. split; [exact Hsz'|].
    split; [exact Hb|]. split; [exact Ht|]. split.
    + intros ee Hee. destruct (Hsame ee) as (Ec & Emo & Efo); [lia|].
      simpl in Ec, Emo, Efo.
      rewrite Ec, Emo, Efo, !nth_error_set_At_other by lia. auto.
    + intros ee Hee. destruct (Nat.eq_dec ee a) as [->|Hne].
      * destruct (Hsame a) as (Ec & Emo & Efo); [lia|].
        simpl in Ec, Emo, Efo.
        rewrite Ec, Emo, Efo, Es, Em, Ef, !nth_error_set_At_same by lia.
        auto.
      * apply Hlimbs. lia.
Qed.

Lemma sample_limbs_complete N t vars :
  forall m a state,
    (a + m <= N)%nat -> sized N state ->
    forallb
      (fun ee =>
         has as_ContactSchedule (id.GetEEScheduleId ee) vars
         && has as_Spline (id.GetEEXYMotionId ee) vars
         && has as_Spline (id.GetEEForceId ee) vars)
      (seq a m) = true ->
    exists state', for_each (seq a m) (sample_limb t) state vars
                   = Ok (state', vars).
Proof.
  induction m as [|m IH]; intros a state Hle Hsz Hall; simpl.
  - exists state. reflexivity.
  - simpl in Hall. apply andb_true_iff in Hall. destruct Hall as (Ha & Hall).
    apply andb_true_iff in Ha. destruct Ha as (Ha & Hf).
    apply andb_true_iff in Ha. destruct Ha as (Hs & Hm).
    unfold has in Hs, Hm, Hf.
    destruct (lookup as_ContactSchedule (id.GetEEScheduleId a) vars)
      as [schedule|] eqn:Es; [|discriminate].
    destruct (lookup as_Spline (id.GetEEXYMotionId a) vars)
      as [motion|] eqn:Em; [|discriminate].
    destruct (lookup as_Spline (id.GetEEForceId a) vars)
      as [force|] eqn:Ef; [|discriminate].
    unfold bind at 1, sample_limb, bind, ret.
    rewrite !GetComponent_lookup, Es.
    rewrite GetComponent_lookup, Em. rewrite GetComponent_lookup, Ef.
    apply IH; [lia| |exact Hall].
    destruct Hsz as (Hc & Hmo & Hfo).
    unfold sized; simpl. rewrite !set_At_length. auto.
Qed.

Lemma sample_state_sound this t vars state vars' :
  sample_state this t vars = Ok (state, vars') ->
  vars' = vars /\ sampled_at this vars t state.
Proof.
  unfold sample_state. intros H.
  apply bind_Ok in H. destruct H as (linear & v1 & H1 & H).
  apply bind_Ok in H. destruct H as (angular & v2 & H2 & H).
  rewrite GetComponent_lookup in H1.
  destruct (lookup as_Spline id.base_linear vars) as [l|] eqn:El;
    [|discriminate].
  inversion H1; subst linear v1; clear H1.
  rewrite GetComponent_lookup in H2.
  destruct (lookup as_Spline id.base_angular vars) as [a|] eqn:Ea;
    [|discriminate].
  inversion H2; subst angular v2; clear H2.
  unfold GetEEsOrdered, new_state in H. simpl in H.
  rewrite repeat_length in H.
  apply (@sample_limbs_sound (GetEECount (model_ this))) in H; [|lia|].
  - destruct H as (-> & (Hc & Hm & Hf) & Hb & Ht & _ & Hlimbs).
    simpl in Hb, Ht. split; [reflexivity|].
    unfold sampled_at. rewrite El, Ea, Hb, Ht. simpl.
    repeat split; auto; apply Hlimbs; lia.
  - unfold sized; simpl. rewrite !repeat_length. auto.
Qed.

Lemma sample_state_complete this t vars :
  assigned this vars = true ->
  exists state, sample_state this t vars = Ok (state, vars).
Proof.
  unfold assigned. intros H.
  apply andb_true_iff in H. destruct H as (H & Hall).
  apply andb_true_iff in H. destruct H as (H & Ha).
  apply andb_true_iff in H. destruct H as (_ & Hl).
  unfold has in Hl, Ha.
  destruct (lookup as_Spline id.base_linear vars) as [l|] eqn:El;
    [|discriminate].
  destruct (lookup as_Spline id.base_angular vars) as [a|] eqn:Ea;
    [|discriminate].
  unfold sample_state, bind at 1. rewrite GetComponent_lookup, El.
  unfold bind at 1. rewrite GetComponent_lookup, Ea.
  unfold GetEEsOrdered, new_state. simpl. rewrite repeat_length.
  apply (@sample_limbs_complete (GetEECount (model_ this)));
    [lia| |exact Hall].
  unfold sized; simpl. rewrite !repeat_length. auto.
Qed.


(** *** The sampling loop *)

Lemma time_after_shift dt t k :
  time_after dt (dadd t dt) k = time_after dt t (S k).
Proof.
  induction k as [|k IH]; simpl; [reflexivity|].
  rewrite IH. reflexivity.
Qed.

Lemma times_shift dt t n :
  map (time_after dt t) (seq 1 n) = map (time_after dt (dadd t dt)) (seq 0 n).
Proof.
  rewrite <- seq_shift, map_map. apply map_ext. intros k.
  symmetry. apply time_after_shift.
Qed.

Lemma sample_each_sound this vars :
  forall ts states vars',
    sample_each this ts vars = Ok (states, vars') ->
    vars' = vars /\ Forall2 (sampled_at this vars) ts states.
Proof.
  induction ts as [|t ts IH]; intros states vars'; simpl.
  - unfold ret. intros H. inversion H. split; constructor.
  - intros H. apply bind_Ok in H. destruct H as (state & v1 & H1 & H).
    apply bind_Ok in H. destruct H as (rest & v2 & H2 & H).
    unfold ret in H. inversion H; subst; clear H.
    apply sample_state_sound in H1. destruct H1 as (-> & Hstate).
    apply IH in H2. destruct H2 as (-> & Hrest).
    split; [reflexivity|]. constructor; assumption.
Qed.

Lemma sample_each_complete this vars :
  assigned this vars = true ->
  forall ts, exists states, sample_each this ts vars = Ok (states, vars).
Proof.
  intros Ha. induction ts as [|t ts (rest & IH)]; simpl.
  - exists []. reflexivity.
  - destruct (@sample_state_complete this t vars Ha) as (state & Hs).
    exists (state :: rest). unfold bind, ret. rewrite Hs, IH. reflexivity.
Qed.

Lemma sampled_at_times this vars ts states :
  Forall2 (sampled_at this vars) ts states ->
  map (@t_global_ _ _) states = ts.
Proof.
  induction 1 as [|t state ts states Hs _ IH]; simpl; [reflexivity|].
  destruct Hs as (-> & _). rewrite IH. reflexivity.
Qed.

(** A loop that starts at [t] and whose test first fails in round [n]
    samples the [n] times before, given fuel for [n] rounds and the exit. *)
Lemma BuildTrajectory_loop_exit this dt T vars :
  forall n fuel t trajectory,
    (forall k, (k < n)%nat ->
               dleb (time_after dt t k) (dadd T d1e_5) = true) ->
    dleb (time_after dt t n) (dadd T d1e_5) = false ->
    (n < fuel)%nat ->
    BuildTrajectory_loop this fuel dt T t trajectory vars
    = (states <- sample_each this (map (time_after dt t) (seq 0 n)) ;;
       ret (trajectory ++ states)) vars.
Proof.
  induction n as [|n IH]; intros fuel t trajectory Hin Hout Hfuel;
    (destruct fuel as [|fuel]; [lia|]); simpl.
  - simpl in Hout. rewrite Hout. unfold bind, ret.
    rewrite app_nil_r. reflexivity.
  - assert (H0 : dleb t (dadd T d1e_5) = true) by (apply (Hin 0%nat); lia).
    rewrite H0, times_shift. unfold bind.
    destruct (sample_state this t vars) as [[state v1]|e] eqn:Hs;
      [|reflexivity].
    pose proof (sample_state_unchanged _ _ _ Hs) as Hv. subst v1.
    rewrite IH.
    + unfold bind, ret.
      destruct (sample_each this _ vars) as [[states v2]|e]; [|reflexivity].
      rewrite <- app_assoc. reflexivity.
    + intros k Hk. rewrite time_after_shift. apply Hin. lia.
    + rewrite time_after_shift. exact Hout.
    + lia.
Qed.

(** A loop that returns has left through its test. *)
Lemma BuildTrajectory_loop_sound this dt T vars :
  forall fuel t trajectory result vars',
    BuildTrajectory_loop this fuel dt T t trajectory vars
    = Ok (result, vars') ->
    exists n states,
      (forall k, (k < n)%nat ->
                 dleb (time_after dt t k) (dadd T d1e_5) = true)
      /\ dleb (time_after dt t n) (dadd T d1e_5) = false
      /\ (n < fuel)%nat
      /\ vars' = vars
      /\ result = trajectory ++ states
      /\ Forall2 (sampled_at this vars) (map (time_after dt t) (seq 0 n))
                 states.
Proof.
  induction fuel as [|fuel IH]; intros t trajectory result vars'; simpl.
  - discriminate.
  - destruct (dleb t (dadd T d1e_5)) eqn:Hguard.
    + intros H. apply bind_Ok in H. destruct H as (state & v1 & Hs & H).
      apply sample_state_sound in Hs. destruct Hs as (-> & Hstate).
      apply IH in H.
      destruct H as (n & states & Hin & Hout & Hfuel & -> & -> & Hall).
      exists (S n), (state :: states).
      split; [|split; [|split; [|split; [|split]]]].
      * intros [|k] Hk; [exact Hguard|].
        rewrite <- time_after_shift. apply Hin. lia.
      * rewrite <- time_after_shift. exact Hout.
      * lia.
      * reflexivity.
      * rewrite <- app_assoc. reflexivity.
      * simpl. rewrite times_shift. constructor; assumption.
    + unfold ret. intros H. inversion H; subst.
      exists 0%nat, []. simpl. rewrite app_nil_r.
      split; [intros k Hk; lia|].
      repeat split; auto; try lia.
Qed.

Lemma exit_round_search T dt :
  forall N,
    (forall k, (k <= N)%nat ->
               dleb (sample_time dt k) (dadd T d1e_5) = true)
    \/ exists n, (n <= N)%nat /\ exit_round T dt n.
Proof.
  induction N as [|N [IH|(n & Hn & IH)]].
  - destruct (dleb (sample_time dt 0) (dadd T d1e_5)) eqn:H0.
    + left. intros k Hk. replace k with 0%nat by lia. exact H0.
    + right. exists 0%nat. split; [lia|]. split; [intros k Hk; lia|exact H0].
  - destruct (dleb (sample_time dt (S N)) (dadd T d1e_5)) eqn:HS.
    + left. intros k Hk.
      destruct (Nat.eq_dec k (S N)) as [->|]; [exact HS|apply IH; lia].
    + right. exists (S N). split; [lia|].
      split; [intros k Hk; apply IH; lia|exact HS].
  - right. exists n. split; [lia|exact IH].
Qed.

(** If the test fails in some round, there is a first such round. *)
Lemma exit_round_exists T dt N :
  dleb (sample_time dt N) (dadd T d1e_5) = false ->
  exists n, (n <= N)%nat /\ exit_round T dt n.
Proof.
  intros HN. destruct (exit_round_search T dt N) as [Hall|Hex].
  - rewrite Hall in HN by lia. discriminate.
  - exact Hex.
Qed.

Lemma exit_round_unique T dt n n' :
  exit_round T dt n -> exit_round T dt n' -> n = n'.
Proof.
  intros (Hin & Hout) (Hin' & Hout').
  destruct (Nat.lt_trichotomy n n') as [H|[H|H]]; [|exact H|].
  - rewrite (Hin' n H) in Hout. discriminate.
  - rewrite (Hin n' H) in Hout'. discriminate.
Qed.

(** The run of [BuildTrajectory] on a composite whose reference schedule
    is [schedule], when the test first fails in round [n]. *)
Lemma BuildTrajectory_exit this vars schedule dt n fuel :
  lookup as_ContactSchedule (id.GetEEScheduleId E0) vars = Some schedule ->
  exit_round (GetTotalTime schedule) dt n ->
  (n < fuel)%nat ->
  BuildTrajectory this fuel dt vars
  = sample_each this (map (sample_time dt) (seq 0 n)) vars.
Proof.
  intros Hs (Hin & Hout) Hfuel. unfold BuildTrajectory, bind at 1.
  rewrite GetComponent_lookup, Hs.
  rewrite (@BuildTrajectory_loop_exit this dt _ vars n) by assumption.
  unfold bind, ret, sample_time.
  destruct (sample_each this _ vars) as [[states v]|e]; reflexivity.
Qed.

Lemma BuildTrajectory_sound this vars fuel dt trajectory vars' :
  BuildTrajectory this fuel dt vars = Ok (trajectory, vars') ->
  exists schedule n,
    lookup as_ContactSchedule (id.GetEEScheduleId E0) vars = Some schedule
    /\ exit_round (GetTotalTime schedule) dt n
    /\ (n < fuel)%nat
    /\ vars' = vars
    /\ Forall2 (sampled_at this vars) (map (sample_time dt) (seq 0 n))
               trajectory.
Proof.
  unfold BuildTrajectory. intros H.
  apply bind_Ok in H. destruct H as (schedule & v1 & Hs & H).
  rewrite GetComponent_lookup in Hs.
  destruct (lookup as_ContactSchedule _ vars) as [s|] eqn:El; [|discriminate].
  inversion Hs; subst s v1; clear Hs.
  apply BuildTrajectory_loop_sound in H.
  destruct H as (n & states & Hin & Hout & Hfuel & -> & -> & Hall).
  exists schedule, n. repeat split; auto.
Qed.


(** *** What BuildTrajectory returns *)

(** With the blocks in place and the test failing first in round [n],
    [BuildTrajectory] returns [n] states, the states of the composite at
    the first [n] sample times. *)
Lemma BuildTrajectory_samples this vars schedule dt n fuel :
  lookup as_ContactSchedule (id.GetEEScheduleId E0) vars = Some schedule ->
  assigned this vars = true ->
  exit_round (GetTotalTime schedule) dt n ->
  (n < fuel)%nat ->
  exists trajectory,
    BuildTrajectory this fuel dt vars = Ok (trajectory, vars)
    /\ List.length trajectory = n
    /\ map (@t_global_ _ _) trajectory = map (sample_time dt) (seq 0 n)
    /\ Forall2 (sampled_at this vars) (map (sample_time dt) (seq 0 n))
               trajectory.
Proof.
  intros Hs Ha Hexit Hfuel.
  destruct (@sample_each_complete this vars Ha
              (map (sample_time dt) (seq 0 n))) as (states & Hrun).
  exists states. rewrite (BuildTrajectory_exit this _ Hs Hexit Hfuel).
  split; [exact Hrun|].
  apply sample_each_sound in Hrun. destruct Hrun as (_ & Hall).
  pose proof (sampled_at_times Hall) as Htimes.
  split; [|split; assumption].
  apply (f_equal (@List.length _)) in Htimes.
  rewrite !length_map, length_seq in Htimes. exact Htimes.
Qed.

(** Round [k] is kept exactly when its time and the times before pass the
    test of the loop. *)
Lemma exit_round_kept T dt n k :
  exit_round T dt n ->
  (k < n)%nat <->
  (forall j, (j <= k)%nat ->
             dleb (sample_time dt j) (dadd T d1e_5) = true).
Proof.
  intros (Hin & Hout). split.
  - intros Hk j Hj. apply Hin. lia.
  - intros Hall. destruct (Nat.lt_ge_cases k n) as [H|H]; [exact H|].
    rewrite (Hall n H) in Hout. discriminate.
Qed.

Lemma Forall2_nth_error {A B} (R : A -> B -> Prop) xs ys :
  Forall2 R xs ys ->
  forall k x, nth_error xs k = Some x ->
              exists y, nth_error ys k = Some y /\ R x y.
Proof.
  induction 1 as [|x0 y0 xs ys HR _ IH]; intros [|k] x; simpl;
    try discriminate.
  - intros H. inversion H; subst. exists y0. auto.
  - apply IH.
Qed.

Lemma nth_error_sample_times dt n k :
  (k < n)%nat ->
  nth_error (map (sample_time dt) (seq 0 n)) k = Some (sample_time dt k).
Proof.
  intros Hk. rewrite nth_error_map, nth_error_seq.
  destruct (Nat.ltb_spec k n); [reflexivity|lia].
Qed.




(** C3, as amended.  When the last sample time [t] that passes the test of
    the loop lies beyond the total time [T] (so [T < t <= T+1e-5]), the
    state of that round is kept, and it is the state at the overhanging
    time [t] itself: its time stamp is [t] and every block is evaluated at
    [t].  Nothing in the facade moves the sample back to [T]. *)
Theorem final_sample_taken_at_overhanging_time
  this vars schedule dt k fuel :
  lookup as_ContactSchedule (id.GetEEScheduleId E0) vars = Some schedule ->
  assigned this vars = true ->
  exit_round (GetTotalTime schedule) dt (S k) ->
  dltb (GetTotalTime schedule) (sample_time dt k) = true ->
  (S k < fuel)%nat ->
  exists trajectory state,
    BuildTrajectory this fuel dt vars = Ok (trajectory, vars)
    /\ List.length trajectory = S k
    /\ nth_error trajectory k = Some state
    /\ t_global_ state = sample_time dt k
    /\ sampled_at this vars (sample_time dt k) state.
Proof.
  intros Hs Ha Hexit _ Hfuel.
  destruct (BuildTrajectory_samples this _ Hs Ha Hexit Hfuel)
    as (trajectory & Hrun & Hlen & _ & Hall).
  destruct (Forall2_nth_error Hall k (x := sample_time dt k))
    as (state & Hk & Hstate).
  { apply nth_error_sample_times. lia. }
  exists trajectory, state.
  split; [exact Hrun|]. split; [exact Hlen|]. split; [exact Hk|].
  split; [apply Hstate|exact Hstate].
Qed.


(** *** The z motion of the limbs *)

Lemma assign_z_name z e :
  GetName (entry_component (assign_z z e)) = GetName (entry_component e).
Proof.
  unfold assign_z. destruct (entry_component e) as [s|n|p|c] eqn:E;
    try (rewrite E; reflexivity).
  destruct (nodes_id n) eqn:En; try rewrite E; reflexivity.
Qed.

Lemma assign_z_other z e :
  (forall ee, GetName (entry_component e) <> id.GetEEZMotionId ee) ->
  assign_z z e = e.
Proof.
  unfold assign_z. intros H.
  destruct (entry_component e) as [s|n|p|c] eqn:E; try reflexivity.
  simpl in H. destruct (nodes_id n) eqn:En; try reflexivity.
  exfalso. apply (H ee). reflexivity.
Qed.

Lemma agree_assign_z_motion z vars :
  agree (fun name => forall ee, name <> id.GetEEZMotionId ee)
        vars (assign_z_motion z vars).
Proof.
  intros name Hname. unfold assign_z_motion, find_entry. simpl.
  induction (components vars) as [|e es IH]; simpl; [reflexivity|].
  rewrite assign_z_name.
  unfold id.eqb. destruct (id.eq_dec _ name) as [E|_]; [|exact IH].
  rewrite assign_z_other; [reflexivity|].
  intros ee. rewrite E. apply Hname.
Qed.

(** C10.  The z motion blocks are not read by [BuildTrajectory]: two
    composites that hold the same block under every name that is not the
    name of a z motion block give the same trajectory (or fail alike); in
    particular the trajectory does not change when the values of the z
    motion blocks are replaced by any others. *)
Theorem BuildTrajectory_ignores_z_motion this fuel dt :
  (forall vars1 vars2,
     agree (fun name => forall ee, name <> id.GetEEZMotionId ee)
           vars1 vars2 ->
     value (BuildTrajectory this fuel dt vars1)
     = value (BuildTrajectory this fuel dt vars2))
  /\ (forall vars z,
        value (BuildTrajectory this fuel dt (assign_z_motion z vars))
        = value (BuildTrajectory this fuel dt vars)).
Proof.
  assert (H : forall vars1 vars2,
             agree (fun name => forall ee, name <> id.GetEEZMotionId ee)
                   vars1 vars2 ->
             value (BuildTrajectory this fuel dt vars1)
             = value (BuildTrajectory this fuel dt vars2)).
  { intros vars1 vars2 Hagree. apply alike_value, alike_BuildTrajectory.
    intros name Hread. apply Hagree. intros ee.
    destruct Hread as [-> | [-> | (ee' & [-> | [-> | ->]])]]; discriminate. }
  split; [exact H|].
  intros vars z. symmetry. apply H, agree_assign_z_motion.
Qed.


(** *** GetTrajectories *)

Lemma GetTrajectories_loop_step this fuel dt n a trajectories :
  GetTrajectories_loop this fuel dt (S n) (Z.of_nat a) trajectories
  = match trajectory_of_iterate this fuel dt a with
    | Ok trajectory =>
        GetTrajectories_loop this fuel dt n (Z.of_nat (S a))
                             (trajectories ++ [trajectory])
    | Err e => Err e
    end.
Proof.
  cbn [GetTrajectories_loop]. unfold trajectory_of_iterate, value.
  destruct (BuildTrajectory this fuel dt _) as [[trajectory v]|e];
    [|reflexivity].
  rewrite Nat2Z.inj_succ. unfold Z.succ. reflexivity.
Qed.

Lemma GetTrajectories_loop_sound this fuel dt :
  forall n a trajectories result,
    GetTrajectories_loop this fuel dt n (Z.of_nat a) trajectories
    = Ok result ->
    exists new,
      result = trajectories ++ new
      /\ List.length new = n
      /\ forall i, (i < n)%nat ->
           exists trajectory,
             nth_error new i = Some trajectory
             /\ trajectory_of_iterate this fuel dt (a + i) = Ok trajectory.
Proof.
  induction n as [|n IH]; intros a trajectories result.
  - simpl. intros H. inversion H; subst. exists [].
    rewrite app_nil_r. repeat split. intros i Hi. lia.
  - rewrite GetTrajectories_loop_step.
    destruct (trajectory_of_iterate this fuel dt a) as [trajectory|e] eqn:Ha;
      [|discriminate].
    intros H. apply IH in H. destruct H as (new & -> & Hlen & Hnth).
    exists (trajectory :: new). rewrite <- app_assoc.
    split; [reflexivity|]. split; [simpl; lia|].
    intros [|i] Hi; simpl.
    + exists trajectory. rewrite Nat.add_0_r. auto.
    + destruct (Hnth i) as (tr & H1 & H2); [lia|].
      exists tr. rewrite Nat.add_succ_r. auto.
Qed.

Lemma GetTrajectories_loop_complete this fuel dt :
  forall n a trajectories,
    (forall i, (i < n)%nat ->
       exists trajectory,
         trajectory_of_iterate this fuel dt (a + i) = Ok trajectory) ->
    exists result,
      GetTrajectories_loop this fuel dt n (Z.of_nat a) trajectories
      = Ok result.
Proof.
  induction n as [|n IH]; intros a trajectories Hall.
  - exists trajectories. reflexivity.
  - rewrite GetTrajectories_loop_step.
    destruct (Hall 0%nat) as (trajectory & H0); [lia|].
    rewrite Nat.add_0_r in H0. rewrite H0.
    apply IH. intros i Hi. destruct (Hall (S i)) as (tr & Htr); [lia|].
    exists tr. rewrite Nat.add_succ_r in Htr. exact Htr.
Qed.

(** C9.  [GetTrajectories(dt)] returns one trajectory per recorded
    iterate: the sequence it returns has as many elements as
    [GetIterationCount()] says, and its i-th element is what
    [BuildTrajectory] makes, with the same [dt], of the variables of the
    iterate of index i; it returns whenever [BuildTrajectory] returns for
    every iterate. *)
Theorem GetTrajectories_one_per_iterate this fuel dt :
  (forall trajectories,
     GetTrajectories this fuel dt = Ok trajectories ->
     List.length trajectories = Z.to_nat (GetIterationCount (nlp this))
     /\ forall i, (i < Z.to_nat (GetIterationCount (nlp this)))%nat ->
          exists trajectory,
            nth_error trajectories i = Some trajectory
            /\ trajectory_of_iterate this fuel dt i = Ok trajectory)
  /\ ((forall i, (i < Z.to_nat (GetIterationCount (nlp this)))%nat ->
         exists trajectory,
           trajectory_of_iterate this fuel dt i = Ok trajectory) ->
      exists trajectories, GetTrajectories this fuel dt = Ok trajectories).
Proof.
  unfold GetTrajectories. change 0%Z with (Z.of_nat 0). split.
  - intros trajectories H. apply GetTrajectories_loop_sound in H.
    destruct H as (new & -> & Hlen & Hnth). simpl.
    split; [exact Hlen|exact Hnth].
  - intros Hall. apply GetTrajectories_loop_complete. exact Hall.
Qed.


(** *** BuildVariables: what ends in the composite *)

Lemma triple_ret {A} (P : Variables -> Prop) (a : A)
  (Q : A -> Variables -> Prop) :
  (forall vars, P vars -> Q a vars) -> triple P (ret a) Q.
Proof. intros H vars HP. exists a, vars. split; [reflexivity|auto]. Qed.

Lemma triple_bind {A B} (P : Variables -> Prop) (m : M Variables A)
  (R : A -> Variables -> Prop) (k : A -> M Variables B)
  (Q : B -> Variables -> Prop) :
  triple P m R -> (forall a, triple (R a) (k a) Q) -> triple P (bind m k) Q.
Proof.
  intros Hm Hk vars HP. destruct (Hm vars HP) as (a & v1 & E1 & HR).
  destruct (Hk a v1 HR) as (b & v2 & E2 & HQ).
  exists b, v2. unfold bind. rewrite E1. auto.
Qed.

Lemma triple_weaken {A} (P P' : Variables -> Prop) (m : M Variables A)
  (Q Q' : A -> Variables -> Prop) :
  triple P' m Q' -> (forall vars, P vars -> P' vars) ->
  (forall a vars, Q' a vars -> Q a vars) -> triple P m Q.
Proof.
  intros Hm HP HQ vars H. destruct (Hm vars (HP vars H)) as (a & v & E & H').
  exists a, v. auto.
Qed.

(** The rule of the [for] loop: [I done acc] holds of the store when the
    elements [done] have been visited. *)
Lemma triple_for_each {A B} (I : list A -> B -> Variables -> Prop)
  (body : B -> A -> M Variables B) (xs : list A) :
  (forall done x rest acc,
     xs = done ++ x :: rest ->
     triple (I done acc) (body acc x) (I (done ++ [x]))) ->
  forall acc, triple (I [] acc) (for_each xs body acc) (I xs).
Proof.
  intros Hbody.
  assert (H : forall todo done acc,
             xs = done ++ todo ->
             triple (I done acc) (for_each todo body acc) (I xs)).
  { induction todo as [|x todo IH]; intros done acc E; simpl.
    - apply triple_ret. rewrite app_nil_r in E. subst. auto.
    - eapply triple_bind.
      + apply (Hbody done x todo acc E).
      + intros acc'. apply IH. rewrite <- app_assoc. exact E. }
  intros acc. apply H. reflexivity.
Qed.

Lemma seq_split n done x rest :
  seq 0 n = done ++ x :: rest ->
  x = List.length done /\ done = seq 0 x /\ (x < n)%nat.
Proof.
  intros E.
  assert (Hlen : (List.length done < n)%nat).
  { apply (f_equal (@List.length _)) in E.
    rewrite length_seq, length_app in E. simpl in E. lia. }
  assert (Hx : x = List.length done).
  { assert (H : nth_error (seq 0 n) (List.length done) = Some x).
    { rewrite E, nth_error_app2, Nat.sub_diag by lia. reflexivity. }
    rewrite nth_error_seq in H.
    destruct (Nat.ltb_spec (List.length done) n); [|lia].
    inversion H. reflexivity. }
  split; [exact Hx|]. split; [|lia].
  assert (H : firstn x (seq 0 n) = done).
  { rewrite E, Hx, firstn_app, Nat.sub_diag, firstn_all. simpl.
    apply app_nil_r. }
  replace n with (x + (n - x))%nat in H by lia.
  rewrite seq_app, firstn_app, length_seq, Nat.sub_diag in H.
  rewrite firstn_all2 in H by (rewrite length_seq; lia).
  simpl in H. rewrite app_nil_r in H. symmetry. exact H.
Qed.

Lemma at_Ok {A} (v : list A) i d :
  (i < List.length v)%nat -> at_ v i = Ok (nth i v d).
Proof.
  intros H. unfold at_. rewrite (nth_error_nth' v d H). reflexivity.
Qed.


Lemma triple_AddComponent base l c b :
  triple (built_on base l) (AddComponent c b)
         (fun _ =>
            built_on base
              (l ++ [summary {| entry_component := c;
                                entry_is_variable := b |}])).
Proof.
  intros vars (rest & E & Hl). eexists tt, _. split; [reflexivity|].
  exists (rest ++ [{| entry_component := c; entry_is_variable := b |}]).
  simpl. rewrite E, <- app_assoc, map_app, Hl. auto.
Qed.

Lemma change_at_length {A} i (f : A -> A) (l : list A) :
  List.length (change_at i f l) = List.length l.
Proof.
  revert i. induction l as [|x l IH]; intros [|i]; simpl; auto.
Qed.

Lemma change_at_app_r {A} i (f : A -> A) (front rest : list A) :
  change_at (List.length front + i) f (front ++ rest)
  = front ++ change_at i f rest.
Proof.
  induction front as [|x front IH]; simpl; [reflexivity|].
  rewrite IH. reflexivity.
Qed.

Lemma change_at_app_l {A} i (f : A -> A) (front rest : list A) :
  (i < List.length front)%nat ->
  change_at i f (front ++ rest) = change_at i f front ++ rest.
Proof.
  revert i. induction front as [|x front IH]; intros [|i] H; simpl in *;
    try lia; [reflexivity|].
  rewrite IH by lia. reflexivity.
Qed.

Lemma change_at_snoc {A} (f : A -> A) (l : list A) x :
  change_at (List.length l) f (l ++ [x]) = l ++ [f x].
Proof.
  rewrite <- (Nat.add_0_r (List.length l)). rewrite change_at_app_r.
  reflexivity.
Qed.

Lemma change_at_same {A} i (f : A -> A) (l : list A) :
  (forall x, In x l -> f x = x) -> change_at i f l = l.
Proof.
  revert i. induction l as [|x l IH]; intros [|i] H; simpl;
    try reflexivity.
  - rewrite H by (left; reflexivity). reflexivity.
  - rewrite IH; [reflexivity|]. intros y Hy. apply H. right. exact Hy.
Qed.

Lemma map_change_at {A B} (g : A -> B) i (f : A -> A) (l : list A) :
  (forall x, g (f x) = g x) -> map g (change_at i f l) = map g l.
Proof.
  intros Hf. revert i. induction l as [|x l IH]; intros [|i]; simpl;
    try reflexivity.
  - rewrite Hf. reflexivity.
  - rewrite IH. reflexivity.
Qed.

Lemma Forall_change_at {A} (P : A -> Prop) i (f : A -> A) (l : list A) :
  (forall x, P x -> P (f x)) -> Forall P l -> Forall P (change_at i f l).
Proof.
  intros Hf H. revert i. induction H as [|x l Hx Hl IH]; intros [|i]; simpl;
    constructor; auto.
Qed.

Lemma add_observer_summary name c :
  GetName (add_observer name c) = GetName c
  /\ kind_of (add_observer name c) = kind_of c.
Proof. destruct c; simpl; auto. Qed.

Lemma summary_add_observer name (e : Entry double) :
  summary (on_component (add_observer name) e) = summary e.
Proof.
  unfold summary. simpl.
  destruct (add_observer_summary name (entry_component e)) as (-> & ->).
  reflexivity.
Qed.

(** A block of the base is no schedule: an observer changes nothing of
    it. *)
Lemma add_observer_base name (e : Entry double) :
  base_block e = true -> on_component (add_observer name) e = e.
Proof.
  destruct e as [c b]. unfold base_block, on_component. simpl.
  destruct c; simpl; try reflexivity. discriminate.
Qed.

Lemma observed_keeps name (places : list nat) (base rest : list (Entry double)) :
  Forall (fun e => base_block e = true) base ->
  exists rest',
    fold_left (fun es place =>
                 change_at place (on_component (add_observer name)) es)
              places (base ++ rest)
    = base ++ rest'
    /\ map summary rest' = map summary rest.
Proof.
  intros Hbase. revert rest.
  induction places as [|place places IH]; intros rest; simpl.
  - exists rest. auto.
  - destruct (Nat.lt_ge_cases place (List.length base)) as [Hlt|Hge].
    + rewrite change_at_app_l by exact Hlt.
      rewrite change_at_same; [apply IH|].
      intros e He. apply add_observer_base.
      rewrite Forall_forall in Hbase. auto.
    + replace place with (List.length base + (place - List.length base))%nat
        by lia.
      rewrite change_at_app_r.
      destruct (IH (change_at (place - List.length base)
                      (on_component (add_observer name)) rest))
        as (rest' & E & Hs).
      exists rest'. split; [exact E|].
      rewrite Hs. apply map_change_at. apply summary_add_observer.
Qed.

Lemma triple_AddObserver base l schedule observer :
  Forall (fun e => base_block e = true) base ->
  triple (built_on base l) (AddObserver schedule observer)
         (fun _ => built_on base l).
Proof.
  intros Hbase vars (rest & E & Hl). eexists tt, _.
  split; [reflexivity|]. simpl. rewrite E.
  destruct (observed_keeps (nodes_id observer) (places schedule) rest Hbase)
    as (rest' & E' & Hs).
  exists rest'. split; [exact E'|]. rewrite Hs. exact Hl.
Qed.

Lemma triple_NextPlace base l :
  triple (built_on base l) NextPlace
         (fun place vars =>
            place = (List.length base + List.length l)%nat
            /\ built_on base l vars).
Proof.
  intros vars (rest & E & Hl). eexists _, _. split; [reflexivity|].
  split; [|exists rest; auto].
  rewrite E, length_app, <- Hl, length_map. reflexivity.
Qed.

Lemma nth_schedule_pointer this first n ee d :
  (ee < n)%nat -> nth ee (map (schedule_pointer this first) (seq 0 n)) d
                  = schedule_pointer this first ee.
Proof.
  intros H. rewrite (nth_indep _ d (schedule_pointer this first 0))
    by (rewrite length_map, length_seq; exact H).
  rewrite map_nth, seq_nth by exact H. reflexivity.
Qed.

Section Loops.
Variables (this : Facade) (n : nat) (base : list (Entry double)).
Hypothesis Hwf : well_formed this n.
Hypothesis Hbase : Forall (fun e => base_block e = true) base.

Let schedules := map (schedule_summary this) (seq 0 n).
Let motions := flat_map motion_summaries (seq 0 n).
Let forces := map force_summary (seq 0 n).

Lemma triple_bind_lift {A B} (P : Variables -> Prop) (o : outcome A)
  (a : A) (k : A -> M Variables B) (Q : B -> Variables -> Prop) :
  o = Ok a -> triple P (k a) Q -> triple P (bind (lift o) k) Q.
Proof.
  intros -> Hk vars HP. destruct (Hk vars HP) as (b & v & E & HQ).
  exists b, v. split; [exact E|exact HQ].
Qed.

Let pointers := map (schedule_pointer this (List.length base)) (seq 0 n).

Lemma add_schedules_built :
  triple (built_on base [])
         (for_each (seq 0 n) (add_schedule this) [])
         (fun contact_schedule vars =>
            contact_schedule = pointers /\ built_on base schedules vars).
Proof.
  eapply triple_weaken;
    [apply (@triple_for_each _ _
              (fun done cs vars =>
                 cs = map (schedule_pointer this (List.length base)) done
                 /\ built_on base (map (schedule_summary this) done) vars))
    |intros vars H; split; [reflexivity|exact H]
    |intros cs vars H; exact H].
  intros done x rest acc E.
  apply seq_split in E. destruct E as (Hx & Hdone & Hlt).
  destruct Hwf as (_ & Htimings & _).
  intros vars (-> & Hbuilt). revert vars Hbuilt.
  change (triple (built_on base (map (schedule_summary this) done))
            (add_schedule this
               (map (schedule_pointer this (List.length base)) done) x)
            (fun cs vars =>
               cs = map (schedule_pointer this (List.length base))
                        (done ++ [x])
               /\ built_on base
                    (map (schedule_summary this) (done ++ [x])) vars)).
  unfold add_schedule.
  apply (@triple_bind_lift _ _ _ _
           (nth x (contact_timings_ (params_ this)) [])).
  { apply at_Ok. apply (Nat.lt_le_trans _ n); assumption. }
  apply (@triple_bind_lift _ _ _ _
           {| target := schedule_of this x; places := [] |}).
  { unfold at_. rewrite nth_error_app2, length_map, Hx, Nat.sub_diag
      by (rewrite length_map; lia).
    reflexivity. }
  eapply triple_bind; [apply triple_NextPlace|].
  intros place. cbv beta.
  intros vars (-> & Hbuilt). revert vars Hbuilt.
  eapply triple_bind; [apply triple_AddComponent|].
  intros []. apply triple_ret. intros vars H.
  rewrite !map_app. simpl. split; [|exact H].
  replace x with (List.length
                    (map (schedule_pointer this (List.length base)) done))
    at 1 by (rewrite length_map; auto).
  rewrite change_at_snoc. unfold held_at, schedule_pointer. simpl.
  rewrite length_map, <- Hx. reflexivity.
Qed.

Lemma at_schedules x d :
  (x < n)%nat -> at_ pointers x = Ok (nth x pointers d).
Proof.
  intros H. apply at_Ok. unfold pointers. rewrite length_map, length_seq.
  exact H.
Qed.

Lemma flat_map_snoc {A B} (f : A -> list B) xs x :
  flat_map f (xs ++ [x]) = flat_map f xs ++ f x.
Proof. rewrite flat_map_app. simpl. rewrite app_nil_r. reflexivity. Qed.

Lemma add_motions_built :
  triple (built_on base schedules)
         (for_each (seq 0 n) (add_motion this pointers) tt)
         (fun _ => built_on base (schedules ++ motions)).
Proof.
  eapply triple_weaken;
    [apply (@triple_for_each _ _
              (fun done (_ : unit) =>
                 built_on base (schedules ++ flat_map motion_summaries done)))
    |intros vars H; simpl; rewrite app_nil_r; exact H
    |intros u vars H; exact H].
  intros done x rest [] E.
  apply seq_split in E. destruct E as (Hx & Hdone & Hlt).
  destruct Hwf as (_ & _ & Hnominal & Hinitial & _).
  unfold add_motion.
  apply (@triple_bind_lift _ _ _ _
           (schedule_pointer this (List.length base) x)).
  { rewrite (at_schedules (schedule_pointer this (List.length base) x) Hlt).
    unfold pointers. rewrite nth_schedule_pointer by exact Hlt.
    reflexivity. }
  cbv beta zeta.
  apply (@triple_bind_lift _ _ _ _
           (nth x (GetNominalStanceInBase (model_ this)) [])).
  { apply at_Ok. apply (Nat.lt_le_trans _ n); assumption. }
  cbv beta zeta.
  apply (@triple_bind_lift _ _ _ _ (nth x (initial_ee_W_ this) [])).
  { apply at_Ok. apply (Nat.lt_le_trans _ n); assumption. }
  cbv beta zeta.
  eapply triple_bind; [apply triple_AddComponent|intros []].
  eapply triple_bind; [apply triple_AddObserver; exact Hbase|intros []].
  eapply triple_bind; [apply triple_AddComponent|intros []].
  eapply triple_weaken;
    [apply triple_AddObserver; exact Hbase|intros vars H; exact H|].
  intros [] vars H. rewrite flat_map_snoc.
  repeat rewrite <- app_assoc in H. exact H.
Qed.

Lemma add_forces_built :
  triple (built_on base (schedules ++ motions))
         (for_each (seq 0 n) (add_force this pointers) tt)
         (fun _ => built_on base (schedules ++ motions ++ forces)).
Proof.
  eapply triple_weaken;
    [apply (@triple_for_each _ _
              (fun done (_ : unit) =>
                 built_on base
                   ((schedules ++ motions) ++ map force_summary done)))
    |intros vars H; simpl; rewrite app_nil_r; exact H
    |intros u vars H; rewrite <- app_assoc in H; exact H].
  intros done x rest [] E.
  apply seq_split in E. destruct E as (Hx & Hdone & Hlt).
  unfold add_force.
  apply (@triple_bind_lift _ _ _ _
           (schedule_pointer this (List.length base) x)).
  { rewrite (at_schedules (schedule_pointer this (List.length base) x) Hlt).
    unfold pointers. rewrite nth_schedule_pointer by exact Hlt.
    reflexivity. }
  cbv beta zeta.
  eapply triple_bind; [apply triple_AddComponent|intros []].
  eapply triple_weaken;
    [apply triple_AddObserver; exact Hbase|intros vars H; exact H|].
  intros [] vars H. rewrite map_app.
  repeat rewrite <- app_assoc in H. repeat rewrite <- app_assoc. exact H.
Qed.

(** The three loops, on a composite that holds the blocks of the base. *)
Lemma limbs_built :
  triple (fun vars => components vars = base)
         (contact_schedule <-
            for_each (seq 0 n) (add_schedule this) [] ;;
          for_each (seq 0 n) (add_motion this contact_schedule) tt ;;;
          for_each (seq 0 n) (add_force this contact_schedule) tt)
         (fun _ => built_on base (schedules ++ motions ++ forces)).
Proof.
  eapply triple_bind.
  { eapply triple_weaken;
      [apply add_schedules_built| |intros cs vars H; exact H].
    intros vars H. exists []. rewrite app_nil_r. auto. }
  intros cs. cbv beta.
  intros vars (-> & H). revert vars H.
  change (triple (built_on base schedules)
            (for_each (seq 0 n) (add_motion this pointers) tt ;;;
             for_each (seq 0 n) (add_force this pointers) tt)
            (fun _ => built_on base (schedules ++ motions ++ forces))).
  eapply triple_bind; [apply add_motions_built|intros []].
  apply add_forces_built.
Qed.

End Loops.


(** The base representations. *)

Lemma hermite_base_blocks this :
  Forall (fun e => base_block e = true) (hermite_base this).
Proof. repeat constructor. Qed.

Lemma SetBaseRepresentationHermite_built this :
  triple (fun vars => components vars = [])
         (SetBaseRepresentationHermite this)
         (fun _ vars => components vars = hermite_base this).
Proof.
  intros vars H. eexists tt, _. split; [reflexivity|].
  simpl. rewrite H. reflexivity.
Qed.

Lemma base_blocks_AddComponent c b :
  base_block {| entry_component := c; entry_is_variable := b |} = true ->
  triple base_blocks (AddComponent c b) (fun _ => base_blocks).
Proof.
  intros Hc vars H. eexists tt, _. split; [reflexivity|].
  unfold base_blocks. simpl. apply Forall_app. split; [exact H|].
  constructor; [exact Hc|constructor].
Qed.

Lemma CoeffSpline_InitializeVariables_built spline held initial final :
  Forall (fun p => is_base_name (polyvars_id p) = true) (poly_vars_ spline) ->
  triple base_blocks
         (CoeffSpline_InitializeVariables spline held initial final)
         (fun spline' vars =>
            base_blocks vars /\ coeff_id spline' = coeff_id spline).
Proof.
  intros Hp. unfold CoeffSpline_InitializeVariables. cbv zeta.
  eapply triple_bind.
  - eapply triple_weaken;
      [apply (@triple_for_each _ _
                (fun (done : list (nat * PolynomialVars double))
                     (_ : unit) => base_blocks))
      |intros vars H; exact H|intros u vars H; exact H].
    intros done [place p] rest [] E vars H.
    eexists tt, _. split; [reflexivity|].
    unfold base_blocks. simpl. apply Forall_change_at; [|exact H].
    intros e _. unfold base_block, on_component. simpl.
    assert (Hin : In (place, p) (done ++ (place, p) :: rest))
      by (apply in_or_app; right; left; reflexivity).
    rewrite <- E in Hin. apply in_combine_r in Hin.
    apply in_map_iff in Hin.
    destruct Hin as ((i & q) & <- & Hq). simpl.
    apply in_combine_r in Hq.
    rewrite Forall_forall in Hp. rewrite (Hp q Hq). reflexivity.
  - intros []. apply triple_ret. intros vars H. auto.
Qed.

Lemma coeff_spline_built this name initial final :
  is_base_name name = true ->
  triple base_blocks (coeff_spline this name initial final)
         (fun _ => base_blocks).
Proof.
  intros Hname. unfold coeff_spline. cbv zeta.
  eapply triple_bind.
  { eapply triple_weaken;
      [apply (@triple_for_each _ _
                (fun (done : list nat)
                     (made : CoeffSpline double * list nat) vars =>
                   base_blocks vars
                   /\ coeff_id (fst made) = name
                   /\ Forall (fun p => is_base_name (polyvars_id p) = true)
                             (poly_vars_ (fst made))))
      |intros vars H; simpl; auto
      |intros made vars H; exact H].
    intros done i rest made _ vars (Hb & Hid & Hp).
    eexists _, _. split; [reflexivity|]. simpl.
    split; [|split; [exact Hid|]].
    - unfold base_blocks. simpl. apply Forall_app. split; [exact Hb|].
      repeat constructor.
    - apply Forall_app. split; [exact Hp|]. repeat constructor. }
  intros made vars (Hb & Hid & Hp).
  destruct (@CoeffSpline_InitializeVariables_built (fst made) (snd made)
              initial final Hp vars Hb)
    as (spline' & v1 & E1 & Hb1 & Hid1).
  unfold bind. rewrite E1.
  eexists tt, _. split; [reflexivity|].
  unfold base_blocks. simpl. apply Forall_app. split; [exact Hb1|].
  constructor; [|constructor].
  unfold base_block. simpl. rewrite Hid1, Hid, Hname. reflexivity.
Qed.

Lemma SetBaseRepresentationCoeff_built this :
  triple (fun vars => components vars = [])
         (SetBaseRepresentationCoeff this)
         (fun _ => base_blocks).
Proof.
  unfold SetBaseRepresentationCoeff.
  eapply triple_bind.
  - eapply triple_weaken;
      [apply coeff_spline_built; reflexivity
      |intros vars H; unfold base_blocks; rewrite H; constructor
      |intros u vars H; exact H].
  - intros []. apply coeff_spline_built. reflexivity.
Qed.

(** Running a computation whose triple is known, inside a [bind]. *)
Lemma triple_run {A B} (P : Variables -> Prop) (m : M Variables A)
  (R : A -> Variables -> Prop) (k : A -> M Variables B)
  (Q : B -> Variables -> Prop) vars :
  triple P m R -> P vars ->
  (forall a v, R a v -> exists b v', k a v = Ok (b, v') /\ Q b v') ->
  exists b v', bind m k vars = Ok (b, v') /\ Q b v'.
Proof.
  intros Hm HP Hk. destruct (Hm vars HP) as (a & v & E & HR).
  unfold bind. rewrite E. apply Hk. exact HR.
Qed.

(** The composite [BuildVariables] returns for a well-formed facade: the
    blocks of the base representation, then a schedule per limb, then an
    xy and a z motion per limb, then a force per limb. *)
Lemma BuildVariables_built this n :
  well_formed this n ->
  exists vars base,
    BuildVariables this = Ok vars
    /\ Forall (fun e => base_block e = true) base
    /\ (GetBaseRepresentation (params_ this) = CubicHermite ->
        base = hermite_base this)
    /\ built_on base
         (map (schedule_summary this) (seq 0 n)
          ++ flat_map motion_summaries (seq 0 n)
          ++ map force_summary (seq 0 n)) vars.
Proof.
  intros Hwf.
  assert (H : exists u vars,
             build_variables this
               {| composite_name := "nlp_variables";
                  composite_flag := true;
                  components := [] |} = Ok (u, vars)
             /\ exists base,
                  Forall (fun e => base_block e = true) base
                  /\ (GetBaseRepresentation (params_ this) = CubicHermite ->
                      base = hermite_base this)
                  /\ built_on base
                       (map (schedule_summary this) (seq 0 n)
                        ++ flat_map motion_summaries (seq 0 n)
                        ++ map force_summary (seq 0 n)) vars).
  { unfold build_variables.
    destruct Hwf as (Hids & Hwf'). rewrite Hids.
    unfold bind at 1. unfold ClearComponents.
    destruct Hwf' as (H1 & H2 & H3 & [Hrep|Hrep]); rewrite Hrep.
    - eapply triple_run;
        [apply SetBaseRepresentationHermite_built|reflexivity|].
      intros [] v Hv.
      destruct (@limbs_built this n (hermite_base this)) with (vars := v)
        as (u & v' & E & Hbuilt).
      + unfold well_formed. rewrite Hids, Hrep. repeat split; auto.
      + apply hermite_base_blocks.
      + exact Hv.
      + exists u, v'. split; [exact E|].
        exists (hermite_base this).
        split; [apply hermite_base_blocks|]. split; [reflexivity|].
        exact Hbuilt.
    - eapply triple_run;
        [apply SetBaseRepresentationCoeff_built|reflexivity|].
      intros [] v Hv.
      destruct (@limbs_built this n (components v)) with (vars := v)
        as (u & v' & E & Hbuilt).
      + unfold well_formed. rewrite Hids, Hrep. repeat split; auto.
      + exact Hv.
      + reflexivity.
      + exists u, v'. split; [exact E|].
        exists (components v). split; [exact Hv|].
        split; [intros Habs; discriminate|exact Hbuilt]. }
  destruct H as (u & vars & E & base & Hbase & Hh & Hbuilt).
  exists vars, base. unfold BuildVariables. rewrite E. auto.
Qed.


(** *** Looking blocks up in the composite that was built *)

Lemma id_eqb_eq a b : id.eqb a b = true <-> a = b.
Proof.
  unfold id.eqb. destruct (id.eq_dec a b); split; auto; discriminate.
Qed.

Lemma id_eqb_refl a : id.eqb a a = true.
Proof. apply id_eqb_eq. reflexivity. Qed.

Lemma id_eqb_neq a b : a <> b -> id.eqb a b = false.
Proof.
  intros H. unfold id.eqb. destruct (id.eq_dec a b); [contradiction|auto].
Qed.

Lemma find_entry_summary name (es : list (Entry double)) :
  option_map summary (find_entry name es)
  = find (named name) (map summary es).
Proof.
  unfold find_entry. induction es as [|e es IH]; simpl; [reflexivity|].
  unfold named at 1. simpl. destruct (id.eqb _ name); [reflexivity|exact IH].
Qed.

Lemma find_entry_base base rest name :
  Forall (fun e : Entry double => base_block e = true) base ->
  is_base_name name = false ->
  find_entry name (base ++ rest) = find_entry name rest.
Proof.
  intros Hbase Hname. unfold find_entry.
  induction Hbase as [|e base He _ IH]; simpl; [reflexivity|].
  destruct (id.eqb _ name) eqn:E; [|exact IH].
  apply id_eqb_eq in E. unfold base_block in He.
  rewrite E, Hname in He. discriminate.
Qed.

Lemma filter_entry_base base name :
  Forall (fun e : Entry double => base_block e = true) base ->
  is_base_name name = false ->
  filter (fun e => id.eqb (GetName (entry_component e)) name) base = [].
Proof.
  intros Hbase Hname. induction Hbase as [|e base He _ IH]; simpl;
    [reflexivity|].
  destruct (id.eqb _ name) eqn:E; [|exact IH].
  apply id_eqb_eq in E. unfold base_block in He.
  rewrite E, Hname in He. discriminate.
Qed.

Lemma filter_entry_summary name (es : list (Entry double)) :
  List.length (filter (fun e => id.eqb (GetName (entry_component e)) name) es)
  = List.length (filter (named name) (map summary es)).
Proof.
  induction es as [|e es IH]; simpl; [reflexivity|].
  unfold named at 1. simpl. destruct (id.eqb _ name); simpl; rewrite IH;
    reflexivity.
Qed.

Lemma find_single {A} (p : A -> bool) l x :
  filter p l = [x] -> find p l = Some x.
Proof.
  induction l as [|a l IH]; simpl; [discriminate|].
  destruct (p a); [intros H; inversion H; reflexivity|exact IH].
Qed.

(** In a list made from the limbs [0 .. n-1], where the elements of limb
    [ee] that pass [p] are [hit] and no element of another limb passes. *)
Lemma filter_limbs {A} (p : A -> bool) (g : nat -> list A) (hit : list A)
  ee n :
  filter p (g ee) = hit ->
  (forall j, j <> ee -> filter p (g j) = []) ->
  filter p (flat_map g (seq 0 n)) = if (ee <? n)%nat then hit else [].
Proof.
  intros Hhit Hmiss. induction n as [|n IH]; [reflexivity|].
  rewrite seq_S, flat_map_app, filter_app, IH. simpl. rewrite app_nil_r.
  destruct (Nat.ltb_spec ee n), (Nat.ltb_spec ee (S n)); try lia.
  - rewrite Hmiss by lia. apply app_nil_r.
  - replace n with ee by lia. exact Hhit.
  - apply Hmiss. lia.
Qed.

Lemma filter_no_limb {A} (p : A -> bool) (g : nat -> list A) n :
  (forall j, filter p (g j) = []) ->
  filter p (flat_map g (seq 0 n)) = [].
Proof.
  intros Hmiss. induction (seq 0 n) as [|j l IH]; [reflexivity|].
  simpl. rewrite filter_app, Hmiss, IH. reflexivity.
Qed.

Lemma map_as_flat_map {A B} (g : A -> B) l :
  map g l = flat_map (fun x => [g x]) l.
Proof. induction l; simpl; congruence. Qed.

Section Blocks.
Variables (this : Facade) (n : nat).

Ltac other_limb :=
  let j := fresh "j" in
  let H := fresh "H" in
  intros j H; cbn; unfold named; cbn;
  rewrite ?id_eqb_neq by congruence; reflexivity.

Ltac this_limb :=
  cbn; unfold named; cbn;
  rewrite ?id_eqb_refl; rewrite ?id_eqb_neq by congruence; reflexivity.

Ltac no_limb :=
  let j := fresh "j" in
  intros j; cbn; unfold named; cbn;
  rewrite ?id_eqb_neq by congruence; reflexivity.

Lemma filter_schedule ee :
  (ee < n)%nat ->
  filter (named (id.GetEEScheduleId ee)) (limb_summaries this n)
  = [schedule_summary this ee].
Proof.
  intros H. unfold limb_summaries. rewrite !filter_app, !map_as_flat_map.
  rewrite (@filter_limbs _ _ (fun x => [schedule_summary this x])
             [schedule_summary this ee] ee);
    [|this_limb|other_limb].
  rewrite !filter_no_limb; [|no_limb|no_limb].
  destruct (Nat.ltb_spec ee n); [reflexivity|lia].
Qed.

Lemma filter_xy_motion ee :
  (ee < n)%nat ->
  filter (named (id.GetEEXYMotionId ee)) (limb_summaries this n)
  = [(id.GetEEXYMotionId ee, KEndeffectorNodes 1, true)].
Proof.
  intros H. unfold limb_summaries. rewrite !filter_app, !map_as_flat_map.
  rewrite (@filter_limbs _ _ motion_summaries
             [(id.GetEEXYMotionId ee, KEndeffectorNodes 1, true)] ee);
    [|this_limb|other_limb].
  rewrite !filter_no_limb; [|no_limb|no_limb].
  destruct (Nat.ltb_spec ee n); [reflexivity|lia].
Qed.

Lemma filter_z_motion ee :
  (ee < n)%nat ->
  filter (named (id.GetEEZMotionId ee)) (limb_summaries this n)
  = [(id.GetEEZMotionId ee, KEndeffectorNodes 2, true)].
Proof.
  intros H. unfold limb_summaries. rewrite !filter_app, !map_as_flat_map.
  rewrite (@filter_limbs _ _ motion_summaries
             [(id.GetEEZMotionId ee, KEndeffectorNodes 2, true)] ee);
    [|this_limb|other_limb].
  rewrite !filter_no_limb; [|no_limb|no_limb].
  destruct (Nat.ltb_spec ee n); [reflexivity|lia].
Qed.

Lemma filter_force ee :
  (ee < n)%nat ->
  filter (named (id.GetEEForceId ee)) (limb_summaries this n)
  = [force_summary ee].
Proof.
  intros H. unfold limb_summaries. rewrite !filter_app, !map_as_flat_map.
  rewrite (@filter_limbs _ _ (fun x => [force_summary x])
             [force_summary ee] ee);
    [|this_limb|other_limb].
  rewrite !filter_no_limb; [|no_limb|no_limb].
  destruct (Nat.ltb_spec ee n); [reflexivity|lia].
Qed.

(** A block of the limbs is found under its name, once, with the class
    and the flag of its summary. *)
Lemma built_block base vars name s :
  Forall (fun e => base_block e = true) base ->
  built_on base (limb_summaries this n) vars ->
  is_base_name name = false ->
  filter (named name) (limb_summaries this n) = [s] ->
  (exists e, find_entry name (components vars) = Some e /\ summary e = s)
  /\ List.length
       (filter (fun e => id.eqb (GetName (entry_component e)) name)
               (components vars)) = 1%nat.
Proof.
  intros Hbase (rest & E & Hl) Hname Hs. rewrite E. split.
  - rewrite find_entry_base by assumption.
    pose proof (find_entry_summary name rest) as H.
    rewrite Hl, (find_single _ _ Hs) in H.
    destruct (find_entry name rest) as [e|]; [|discriminate].
    exists e. inversion H. auto.
  - rewrite filter_app, length_app, filter_entry_base by assumption.
    rewrite filter_entry_summary, Hl, Hs. reflexivity.
Qed.

End Blocks.


(** *** Properties of BuildVariables and SolveProblem *)

Lemma bounded_hermite_bounds init final dims node d dim :
  bounded (hermite_bounds init final dims) node d dim <->
  (node = StartNode /\ (d = kPos \/ d = kVel))
  \/ (node = FinalNode /\ d = kVel)
  \/ (node = FinalNode /\ d = kPos /\ In dim dims).
Proof.
  assert (Hall : In dim [Coords3D.X; Coords3D.Y; Coords3D.Z])
    by (destruct dim; simpl; auto).
  unfold bounded, hermite_bounds. split.
  - intros (b & [<-|[<-|[<-|[<-|[]]]]] & <- & <- & Hdim); simpl in *; auto.
  - intros [(-> & [-> | ->])|[(-> & ->)|(-> & -> & Hdim)]].
    + eexists. split; [left; reflexivity|]. simpl. auto.
    + eexists. split; [right; left; reflexivity|]. simpl. auto.
    + eexists. split; [right; right; left; reflexivity|]. simpl. auto.
    + eexists. split; [right; right; right; left; reflexivity|].
      simpl. auto.
Qed.

(** C4.  Under the Hermite representation the linear and the angular base
    spline get the same bounds on their first node (position and velocity
    on X, Y and Z) and on the velocity of their last node (X, Y and Z); the
    position of the last node is bound on X and Y only for the linear
    spline and on Z (yaw) only for the angular one; there is no other
    bound.  This holds of the blocks [SetBaseRepresentationHermite] adds
    and of the blocks found in what [BuildVariables] returns. *)
Theorem hermite_boundary_bounds this :
  (forall vars0,
     components vars0 = [] ->
     exists vars,
       SetBaseRepresentationHermite this vars0 = Ok (tt, vars)
       /\ bounds_of vars id.base_linear
          = Some (hermite_bounds (lin (inital_base_ this))
                                 (lin (final_base_ this))
                                 [Coords3D.X; Coords3D.Y])
       /\ bounds_of vars id.base_angular
          = Some (hermite_bounds (ang (inital_base_ this))
                                 (ang (final_base_ this))
                                 [Coords3D.Z]))
  /\ (forall n,
        well_formed this n ->
        GetBaseRepresentation (params_ this) = CubicHermite ->
        exists vars,
          BuildVariables this = Ok vars
          /\ bounds_of vars id.base_linear
             = Some (hermite_bounds (lin (inital_base_ this))
                                    (lin (final_base_ this))
                                    [Coords3D.X; Coords3D.Y])
          /\ bounds_of vars id.base_angular
             = Some (hermite_bounds (ang (inital_base_ this))
                                    (ang (final_base_ this))
                                    [Coords3D.Z]))
  /\ (forall init final dims node d dim,
        bounded (hermite_bounds init final dims) node d dim <->
        (node = StartNode /\ (d = kPos \/ d = kVel))
        \/ (node = FinalNode /\ d = kVel)
        \/ (node = FinalNode /\ d = kPos /\ In dim dims)).
Proof.
  split; [|split].
  - intros vars0 H0.
    destruct (@SetBaseRepresentationHermite_built this vars0 H0)
      as ([] & vars & E & Hc).
    exists vars. split; [exact E|].
    unfold bounds_of. rewrite Hc. split; reflexivity.
  - intros n Hwf Hrep.
    destruct (BuildVariables_built Hwf)
      as (vars & base & E & _ & Hh & (rest & Hc & _)).
    exists vars. split; [exact E|].
    unfold bounds_of. rewrite Hc, (Hh Hrep). split; reflexivity.
  - apply bounded_hermite_bounds.
Qed.


Lemma kind_schedule (c : Component double) :
  kind_of c = KContactSchedule -> exists s, c = CContactSchedule s.
Proof.
  destruct c as [s|nodes|p|c]; simpl; try discriminate.
  - intros _. exists s. reflexivity.
  - destruct (nodes_kind nodes); discriminate.
Qed.

(** C7.  For a well-formed facade [BuildVariables] returns a composite in
    which the schedule of every limb is found under the name of the limb,
    and a schedule is flagged as contributing free values exactly when the
    parameters have the [TotalTime] constraint. *)
Theorem schedules_optimized_iff_TotalTime this n :
  well_formed this n ->
  exists vars,
    BuildVariables this = Ok vars
    /\ (forall ee, (ee < n)%nat ->
          exists e schedule,
            find_entry (id.GetEEScheduleId ee) (components vars) = Some e
            /\ entry_component e = CContactSchedule schedule
            /\ schedule_ee schedule = ee
            /\ entry_is_variable e
               = ConstraintExists (params_ this) TotalTime)
    /\ (forall e schedule,
          In e (components vars) ->
          entry_component e = CContactSchedule schedule ->
          entry_is_variable e = ConstraintExists (params_ this) TotalTime).
Proof.
  intros Hwf.
  destruct (BuildVariables_built Hwf) as (vars & base & E & Hbase & _ & Hb).
  exists vars. split; [exact E|]. split.
  - intros ee Hee.
    destruct (@built_block this n base vars (id.GetEEScheduleId ee)
                (schedule_summary this ee) Hbase Hb eq_refl
                (filter_schedule this Hee)) as ((e & He & Hs) & _).
    unfold summary, schedule_summary in Hs. injection Hs as Hn Hk Hf.
    destruct (kind_schedule _ Hk) as (schedule & Hc).
    exists e, schedule. rewrite Hc in Hn. simpl in Hn.
    injection Hn as Hn. auto.
  - intros e schedule Hin Hc. destruct Hb as (rest & Hcs & Hl).
    rewrite Hcs in Hin. apply in_app_or in Hin. destruct Hin as [Hin|Hin].
    + rewrite Forall_forall in Hbase. apply Hbase in Hin.
      unfold base_block in Hin. rewrite Hc in Hin. simpl in Hin.
      discriminate.
    + apply (in_map summary) in Hin. rewrite Hl in Hin.
      unfold summary in Hin. rewrite Hc in Hin. simpl in Hin.
      apply in_app_or in Hin. destruct Hin as [Hin|Hin].
      * apply in_map_iff in Hin. destruct Hin as (j & Hj & _).
        unfold schedule_summary in Hj. inversion Hj. reflexivity.
      * apply in_app_or in Hin. destruct Hin as [Hin|Hin].
        -- apply in_flat_map in Hin. destruct Hin as (j & _ & Hj).
           simpl in Hj. destruct Hj as [Hj|[Hj|[]]]; discriminate.
        -- apply in_map_iff in Hin. destruct Hin as (j & Hj & _).
           discriminate.
Qed.


Lemma built_holds_block this n base vars name kind flag :
  Forall (fun e => base_block e = true) base ->
  built_on base (limb_summaries this n) vars ->
  is_base_name name = false ->
  filter (named name) (limb_summaries this n) = [(name, kind, flag)] ->
  holds_block vars name kind.
Proof.
  intros Hbase Hb Hname Hs.
  destruct (@built_block this n base vars name _ Hbase Hb Hname Hs)
    as ((e & He & Hsum) & Hcount).
  split; [|exact Hcount]. exists e. split; [exact He|].
  unfold summary in Hsum. injection Hsum as _ Hk _. exact Hk.
Qed.

Lemma Forall2_In_r {A B} (R : A -> B -> Prop) xs ys y :
  Forall2 R xs ys -> In y ys -> exists x, In x xs /\ R x y.
Proof.
  induction 1 as [|x0 y0 xs ys HR _ IH]; simpl; [contradiction|].
  intros [<-|Hin].
  - exists x0. auto.
  - destruct (IH Hin) as (x & Hx & Hxy). exists x. auto.
Qed.

(** C5, as amended.  [BuildVariables] registers for every limb two motion
    blocks, each under a name of its own: the xy motion under
    [GetEEXYMotionId(ee)] and the z motion under [GetEEZMotionId(ee)]
    (beside one schedule block and one force block per limb); and
    [BuildTrajectory] reads the motion of a limb from the xy block of the
    limb. *)
Theorem two_motion_blocks_per_limb this :
  (forall n,
     well_formed this n ->
     exists vars,
       BuildVariables this = Ok vars
       /\ forall ee, (ee < n)%nat ->
            holds_block vars (id.GetEEScheduleId ee) KContactSchedule
            /\ holds_block vars (id.GetEEXYMotionId ee) (KEndeffectorNodes 1)
            /\ holds_block vars (id.GetEEZMotionId ee) (KEndeffectorNodes 2)
            /\ holds_block vars (id.GetEEForceId ee) KForceNodes)
  /\ (forall vars fuel dt trajectory vars',
        BuildTrajectory this fuel dt vars = Ok (trajectory, vars') ->
        forall state ee,
          In state trajectory ->
          (ee < GetEECount (model_ this))%nat ->
          exists motion,
            lookup as_Spline (id.GetEEXYMotionId ee) vars = Some motion
            /\ nth_error (ee_motion_ state) ee
               = Some (GetPoint motion (t_global_ state))).
Proof.
  split.
  - intros n Hwf.
    destruct (BuildVariables_built Hwf) as (vars & base & E & Hbase & _ & Hb).
    exists vars. split; [exact E|]. intros ee Hee.
    split; [|split; [|split]].
    + apply (@built_holds_block this n base vars (id.GetEEScheduleId ee) _ _ Hbase Hb
               eq_refl (filter_schedule this Hee)).
    + apply (@built_holds_block this n base vars (id.GetEEXYMotionId ee) _ _ Hbase Hb
               eq_refl (filter_xy_motion this Hee)).
    + apply (@built_holds_block this n base vars (id.GetEEZMotionId ee) _ _ Hbase Hb
               eq_refl (filter_z_motion this Hee)).
    + apply (@built_holds_block this n base vars (id.GetEEForceId ee) _ _ Hbase Hb
               eq_refl (filter_force this Hee)).
  - intros vars fuel dt trajectory vars' Hrun state ee Hin Hee.
    apply BuildTrajectory_sound in Hrun.
    destruct Hrun as (schedule & n & _ & _ & _ & _ & Hall).
    destruct (@Forall2_In_r _ _ _ _ _ state Hall Hin) as (t & _ & Hstate).
    destruct Hstate as (Ht & _ & _ & _ & Hlen & _ & Hlimbs).
    destruct (Hlimbs ee Hee) as (_ & Hm & _).
    destruct (nth_error (ee_motion_ state) ee) as [v|] eqn:Hv.
    + destruct (lookup as_Spline (id.GetEEXYMotionId ee) vars) as [motion|];
        [|discriminate].
      exists motion. split; [reflexivity|]. rewrite Ht. exact (eq_sym Hm).
    + apply nth_error_None in Hv. lia.
Qed.

(** ** The rest of the facade

    What the facade does beside the properties above: the very blocks
    [BuildVariables] makes and when it fails, the ways [BuildTrajectory]
    ends, the errors of [GetTrajectories], [SolveProblem] as a whole and
    [BuildDefaultInitialState]. *)

(** *** The blocks of the limbs *)

Definition entry (c : Component double) (b : bool) : Entry double :=
  {| entry_component := c; entry_is_variable := b |}.

Definition with_observers (s : ContactSchedule double) (obs : list id.Id)
  : ContactSchedule double :=
  {| schedule_ee := schedule_ee s;
     schedule_timings := schedule_timings s;
     min_duration := min_duration s;
     max_duration := max_duration s;
     observers := obs |}.

(** The xy motion of limb [ee], as lines 92 to 99 make it. *)
Definition xy_motion_of (this : Facade) (ee : EndeffectorID)
  : NodeValues double :=
  let schedule := schedule_of this ee in
  let initial := nth ee (initial_ee_W_ this) [] in
  let final_ee_pos_W :=
    vadd (p_ (lin (final_base_ this)))
         (nth ee (GetNominalStanceInBase (model_ this)) []) in
  AddStartBound
    (InitializeVariables
       (make_NodeValues
          (EndeffectorNodes double (GetContactSequence schedule) 1)
          kDim3d (id.GetEEXYMotionId ee))
       initial final_ee_pos_W (GetTimePerPhase schedule))
    kPos [Coords3D.X; Coords3D.Y] initial.

(** The z motion of limb [ee], as lines 105 to 110 make it. *)
Definition z_motion_of (this : Facade) (ee : EndeffectorID)
  : NodeValues double :=
  let schedule := schedule_of this ee in
  let initial := nth ee (initial_ee_W_ this) [] in
  let final_ee_pos_W :=
    vadd (p_ (lin (final_base_ this)))
         (nth ee (GetNominalStanceInBase (model_ this)) []) in
  InitializeVariables
    (make_NodeValues
       (EndeffectorNodes double (GetContactSequence schedule) 2)
       kDim3d (id.GetEEZMotionId ee))
    (bottomRows1 initial) (bottomRows1 final_ee_pos_W)
    (GetTimePerPhase schedule).

(** The force of limb [ee], as lines 117 to 124 make it. *)
Definition force_of (this : Facade) (ee : EndeffectorID)
  : NodeValues double :=
  let schedule := schedule_of this ee in
  let f_stance := [d0; d0; GetStandingZForce (model_ this)] in
  InitializeVariables
    (make_NodeValues
       (ForceNodes (GetContactSequence schedule)
                   (force_splines_per_stance_phase_ (params_ this))
                   (GetForceLimit (model_ this)))
       kDim3d (id.GetEEForceId ee))
    f_stance f_stance (GetTimePerPhase schedule).

(** The schedules of the limbs [0 .. n-1], limb [ee] with the observers
    [obs ee]. *)
Definition schedule_entries (this : Facade) (n : nat)
  (obs : nat -> list id.Id) : list (Entry double) :=
  map (fun ee =>
         entry (CContactSchedule
                  (with_observers (schedule_of this ee) (obs ee)))
               (ConstraintExists (params_ this) TotalTime))
      (seq 0 n).

Definition motion_entries (this : Facade) (ee : EndeffectorID)
  : list (Entry double) :=
  [entry (CNodeValues (xy_motion_of this ee)) true;
   entry (CNodeValues (z_motion_of this ee)) true].

Definition force_entry (this : Facade) (ee : EndeffectorID) : Entry double :=
  entry (CNodeValues (force_of this ee)) true.

(** The observers of the schedule of limb [ee] in the end. *)
Definition limb_observers (ee : EndeffectorID) : list id.Id :=
  [id.GetEEXYMotionId ee; id.GetEEZMotionId ee; id.GetEEForceId ee].

(** The observers when the motions of the limbs below [motions] and the
    forces of the limbs below [forces] have been added. *)
Definition observers_when (motions forces : nat) (ee : EndeffectorID)
  : list id.Id :=
  (if (ee <? motions)%nat
   then [id.GetEEXYMotionId ee; id.GetEEZMotionId ee] else [])
  ++ (if (ee <? forces)%nat then [id.GetEEForceId ee] else []).

(** The blocks of the limbs [0 .. n-1] in the order of the three loops. *)
Definition limb_entries (this : Facade) (n : nat) : list (Entry double) :=
  schedule_entries this n limb_observers
  ++ flat_map (motion_entries this) (seq 0 n)
  ++ map (force_entry this) (seq 0 n).

(** The composite named as [BuildVariables] names it. *)
Definition nlp_variables (es : list (Entry double)) : Variables :=
  {| composite_name := "nlp_variables"; composite_flag := true;
     components := es |}.

Definition holds (es : list (Entry double)) (vars : Variables) : Prop :=
  vars = nlp_variables es.

Lemma holds_AddComponent es c b :
  triple (holds es) (AddComponent c b) (fun _ => holds (es ++ [entry c b])).
Proof.
  intros vars ->. eexists tt, _. split; reflexivity.
Qed.

(** In blocks made from the indices [a .. a+m-1], a write to the place of
    index [i] changes the block of index [i] and nothing else. *)
Lemma change_at_indexed {A} (g : nat -> A) (f : A -> A) i :
  forall m a rest,
    (a <= i < a + m)%nat ->
    change_at (i - a) f (map g (seq a m) ++ rest)
    = map (fun j => if (j =? i)%nat then f (g j) else g j) (seq a m)
      ++ rest.
Proof.
  induction m as [|m IH]; intros a rest Hi; [lia|].
  simpl. destruct (Nat.eqb_spec a i) as [->|Hne].
  - rewrite Nat.sub_diag. simpl. f_equal. f_equal.
    apply map_ext_in. intros j Hj. apply in_seq in Hj.
    destruct (Nat.eqb_spec j i); [lia|reflexivity].
  - replace (i - a)%nat with (S (i - S a)) by lia.
    simpl. f_equal. apply IH. lia.
Qed.

Lemma schedule_entries_ext this n obs obs' :
  (forall ee, (ee < n)%nat -> obs ee = obs' ee) ->
  schedule_entries this n obs = schedule_entries this n obs'.
Proof.
  intros H. unfold schedule_entries. apply map_ext_in. intros ee Hee.
  apply in_seq in Hee. rewrite H by lia. reflexivity.
Qed.

Lemma holds_AddObserver this n base obs rest ee observer :
  (ee < n)%nat ->
  triple (holds (base ++ schedule_entries this n obs ++ rest))
         (AddObserver (schedule_pointer this (List.length base) ee) observer)
         (fun _ =>
            holds (base
                   ++ schedule_entries this n
                        (fun j => if (j =? ee)%nat
                                  then obs j ++ [nodes_id observer]
                                  else obs j)
                   ++ rest)).
Proof.
  intros Hee vars ->. eexists tt, _. split; [reflexivity|].
  unfold holds, nlp_variables. simpl. f_equal.
  rewrite change_at_app_r. f_equal.
  unfold schedule_entries.
  rewrite <- (Nat.sub_0_r ee) at 1.
  rewrite change_at_indexed by lia.
  f_equal. apply map_ext. intros j.
  destruct (Nat.eqb_spec j ee); reflexivity.
Qed.

Lemma holds_eq {A} es es' (m : M Variables A) Q :
  es = es' -> triple (holds es') m Q -> triple (holds es) m Q.
Proof. intros ->. auto. Qed.

Lemma holds_AddComponent_rest front mid rest c b :
  triple (holds (front ++ mid ++ rest)) (AddComponent c b)
         (fun _ => holds (front ++ mid ++ rest ++ [entry c b])).
Proof.
  eapply triple_weaken;
    [apply holds_AddComponent|intros vars H; exact H|].
  intros [] vars ->. unfold holds. rewrite <- !app_assoc. reflexivity.
Qed.

Section Limbs.
Variables (this : Facade) (n : nat) (base : list (Entry double)).
Hypothesis Hwf : well_formed this n.

Let motions := flat_map (motion_entries this) (seq 0 n).
Let pointers := map (schedule_pointer this (List.length base)) (seq 0 n).

Lemma holds_NextPlace es :
  triple (holds es) NextPlace
         (fun place vars => place = List.length es /\ holds es vars).
Proof.
  intros vars ->. eexists _, _. split; [reflexivity|]. split; reflexivity.
Qed.

Lemma add_schedules_holds :
  triple (holds base)
         (for_each (seq 0 n) (add_schedule this) [])
         (fun contact_schedule vars =>
            contact_schedule = pointers
            /\ holds (base ++ schedule_entries this n (fun _ => [])) vars).
Proof.
  eapply triple_weaken;
    [apply (@triple_for_each _ _
              (fun done cs vars =>
                 cs = map (schedule_pointer this (List.length base)) done
                 /\ holds (base
                           ++ schedule_entries this (List.length done)
                                (fun _ => [])) vars))
    |intros vars H; split; [reflexivity|];
     unfold schedule_entries; simpl; rewrite app_nil_r; exact H
    |intros cs vars H; rewrite length_seq in H; exact H].
  intros done x rest acc E.
  apply seq_split in E. destruct E as (Hx & Hdone & Hlt).
  destruct Hwf as (_ & Htimings & _).
  intros vars (-> & Hholds). revert vars Hholds.
  change (triple (holds (base ++ schedule_entries this (List.length done)
                                  (fun _ => [])))
            (add_schedule this
               (map (schedule_pointer this (List.length base)) done) x)
            (fun cs vars =>
               cs = map (schedule_pointer this (List.length base))
                        (done ++ [x])
               /\ holds (base
                         ++ schedule_entries this (List.length (done ++ [x]))
                              (fun _ => [])) vars)).
  unfold add_schedule.
  apply (@triple_bind_lift _ _ _ _
           (nth x (contact_timings_ (params_ this)) [])).
  { apply at_Ok. apply (Nat.lt_le_trans _ n); assumption. }
  apply (@triple_bind_lift _ _ _ _
           {| target := schedule_of this x; places := [] |}).
  { unfold at_. rewrite nth_error_app2, length_map, Hx, Nat.sub_diag
      by (rewrite length_map; lia).
    reflexivity. }
  eapply triple_bind; [apply holds_NextPlace|].
  intros place. cbv beta.
  intros vars (-> & Hholds). revert vars Hholds.
  eapply triple_bind; [apply holds_AddComponent|].
  intros []. apply triple_ret. intros vars ->.
  rewrite !map_app. split.
  - replace x with (List.length
                      (map (schedule_pointer this (List.length base)) done))
      at 1 by (rewrite length_map; auto).
    rewrite change_at_snoc. unfold held_at, schedule_pointer. simpl.
    unfold schedule_entries.
    rewrite length_app, length_map, length_seq, <- Hx. reflexivity.
  - unfold holds, schedule_entries.
    rewrite length_app, Nat.add_1_r, seq_S, map_app, <- Hx, <- app_assoc.
    reflexivity.
Qed.

Lemma observers_after_motion x :
  forall ee, (ee < n)%nat ->
    (if (ee =? x)%nat
     then (if (ee =? x)%nat
           then observers_when x 0 ee ++ [id.GetEEXYMotionId x]
           else observers_when x 0 ee) ++ [id.GetEEZMotionId x]
     else if (ee =? x)%nat
          then observers_when x 0 ee ++ [id.GetEEXYMotionId x]
          else observers_when x 0 ee)
    = observers_when (S x) 0 ee.
Proof.
  intros ee _. unfold observers_when. simpl.
  destruct (Nat.eqb_spec ee x) as [->|Hne].
  - destruct (Nat.ltb_spec x x); [lia|].
    destruct (Nat.ltb_spec x (S x)); [reflexivity|lia].
  - destruct (Nat.ltb_spec ee x), (Nat.ltb_spec ee (S x));
      reflexivity || lia.
Qed.

Lemma add_motions_holds :
  triple (holds (base ++ schedule_entries this n (fun _ => [])))
         (for_each (seq 0 n) (add_motion this pointers) tt)
         (fun _ =>
            holds (base ++ schedule_entries this n (observers_when n 0)
                   ++ motions)).
Proof.
  eapply triple_weaken;
    [apply (@triple_for_each _ _
              (fun done (_ : unit) =>
                 holds (base
                        ++ schedule_entries this n
                             (observers_when (List.length done) 0)
                        ++ flat_map (motion_entries this) done)))
    |intros vars H; simpl; rewrite app_nil_r; exact H
    |intros u vars H; rewrite length_seq in H; exact H].
  intros done x rest [] E.
  apply seq_split in E. destruct E as (Hx & Hdone & Hlt).
  destruct Hwf as (_ & _ & Hnominal & Hinitial & _).
  rewrite <- Hx.
  unfold add_motion.
  apply (@triple_bind_lift _ _ _ _
           (schedule_pointer this (List.length base) x)).
  { unfold pointers.
    rewrite (at_schedules this base
               (schedule_pointer this (List.length base) x) Hlt).
    rewrite nth_schedule_pointer by exact Hlt. reflexivity. }
  cbv beta zeta.
  apply (@triple_bind_lift _ _ _ _
           (nth x (GetNominalStanceInBase (model_ this)) [])).
  { apply at_Ok. apply (Nat.lt_le_trans _ n); assumption. }
  cbv beta zeta.
  apply (@triple_bind_lift _ _ _ _ (nth x (initial_ee_W_ this) [])).
  { apply at_Ok. apply (Nat.lt_le_trans _ n); assumption. }
  cbv beta zeta.
  eapply triple_bind; [apply holds_AddComponent_rest|intros []].
  eapply triple_bind;
    [apply holds_AddObserver; exact Hlt|intros []].
  eapply triple_bind; [apply holds_AddComponent_rest|intros []].
  eapply triple_weaken;
    [apply holds_AddObserver; exact Hlt
    |intros vars H; exact H|].
  intros [] vars ->. unfold holds.
  rewrite length_app, Nat.add_1_r, <- Hx, flat_map_snoc, <- app_assoc.
  do 2 apply f_equal. apply f_equal2; [|reflexivity].
  apply schedule_entries_ext. exact (observers_after_motion x).
Qed.

Lemma observers_after_force x :
  forall ee, (ee < n)%nat ->
    (if (ee =? x)%nat
     then observers_when n x ee ++ [id.GetEEForceId x]
     else observers_when n x ee)
    = observers_when n (S x) ee.
Proof.
  intros ee Hee. unfold observers_when.
  destruct (Nat.eqb_spec ee x) as [->|Hne].
  - destruct (Nat.ltb_spec x x); [lia|].
    destruct (Nat.ltb_spec x (S x)); [|lia].
    rewrite <- app_assoc. reflexivity.
  - destruct (Nat.ltb_spec ee x), (Nat.ltb_spec ee (S x));
      reflexivity || lia.
Qed.

Lemma add_forces_holds :
  triple (holds (base ++ schedule_entries this n (observers_when n 0)
                 ++ motions))
         (for_each (seq 0 n) (add_force this pointers) tt)
         (fun _ =>
            holds (base ++ schedule_entries this n (observers_when n n)
                   ++ motions ++ map (force_entry this) (seq 0 n))).
Proof.
  eapply triple_weaken;
    [apply (@triple_for_each _ _
              (fun done (_ : unit) =>
                 holds (base
                        ++ schedule_entries this n
                             (observers_when n (List.length done))
                        ++ motions ++ map (force_entry this) done)))
    |intros vars H; simpl; rewrite app_nil_r; exact H
    |intros u vars H; rewrite length_seq in H; exact H].
  intros done x rest [] E.
  apply seq_split in E. destruct E as (Hx & Hdone & Hlt).
  rewrite <- Hx.
  unfold add_force.
  apply (@triple_bind_lift _ _ _ _
           (schedule_pointer this (List.length base) x)).
  { unfold pointers.
    rewrite (at_schedules this base
               (schedule_pointer this (List.length base) x) Hlt).
    rewrite nth_schedule_pointer by exact Hlt. reflexivity. }
  cbv beta zeta.
  eapply triple_bind; [apply holds_AddComponent_rest|intros []].
  eapply triple_weaken;
    [apply holds_AddObserver; exact Hlt
    |intros vars H; exact H|].
  intros [] vars ->. unfold holds.
  rewrite length_app, Nat.add_1_r, <- Hx, map_app, <- app_assoc.
  do 2 apply f_equal. apply f_equal2; [|reflexivity].
  apply schedule_entries_ext. exact (observers_after_force x).
Qed.

Lemma observers_in_the_end :
  forall ee, (ee < n)%nat -> observers_when n n ee = limb_observers ee.
Proof.
  intros ee Hee. unfold observers_when.
  destruct (Nat.ltb_spec ee n); [reflexivity|lia].
Qed.

(** The three loops, on a composite that holds the blocks of the base. *)
Lemma limbs_hold :
  triple (holds base)
         (contact_schedule <-
            for_each (seq 0 n) (add_schedule this) [] ;;
          for_each (seq 0 n) (add_motion this contact_schedule) tt ;;;
          for_each (seq 0 n) (add_force this contact_schedule) tt)
         (fun _ => holds (base ++ limb_entries this n)).
Proof.
  eapply triple_bind; [apply add_schedules_holds|].
  intros cs. cbv beta.
  intros vars (-> & H). revert vars H.
  change (triple (holds (base ++ schedule_entries this n (fun _ => [])))
            (for_each (seq 0 n) (add_motion this pointers) tt ;;;
             for_each (seq 0 n) (add_force this pointers) tt)
            (fun _ => holds (base ++ limb_entries this n))).
  eapply triple_bind; [apply add_motions_holds|intros []].
  eapply triple_weaken;
    [apply add_forces_holds|intros vars H; exact H|].
  intros [] vars ->. unfold holds, limb_entries.
  do 2 apply f_equal. apply f_equal2; [|reflexivity].
  apply schedule_entries_ext. exact observers_in_the_end.
Qed.

End Limbs.

(** *** The blocks of the base in polynomial coefficients *)

Definition base_poly (this : Facade) : Polynomial :=
  {| poly_order := order_coeff_polys_ (params_ this); poly_dim := kNumDim |}.

(** The polynomial of index [i] of the spline [name] as line 150 makes it. *)
Definition new_poly (this : Facade) (name : id.Id) (i : nat)
  : PolynomialVars double :=
  {| polyvars_id := id.indexed name i;
     polyvars_poly := base_poly this;
     polyvars_values := NewCoefficients (base_poly this) |}.

(** The same polynomial after [InitializeVariables] of its spline. *)
Definition coeff_poly (this : Facade) (name : id.Id)
  (initial final : VectorXd double) (i : nat) : PolynomialVars double :=
  {| polyvars_id := id.indexed name i;
     polyvars_poly := base_poly this;
     polyvars_values :=
       InitialCoefficients (GetBasePolyDurations (params_ this)) i
                           (base_poly this) initial final |}.

Definition poly_entry (p : PolynomialVars double) : Entry double :=
  entry (CPolynomialVars p) true.

(** The spline [name] over its polynomials. *)
Definition coeff_spline_of (this : Facade) (name : id.Id)
  (initial final : VectorXd double) : CoeffSpline double :=
  {| coeff_id := name;
     coeff_timings := GetBasePolyDurations (params_ this);
     poly_vars_ :=
       map (coeff_poly this name initial final)
           (seq 0 (List.length (GetBasePolyDurations (params_ this)))) |}.

(** What one call of the lambda of lines 141 to 159 adds. *)
Definition coeff_entries (this : Facade) (name : id.Id)
  (initial final : VectorXd double) : list (Entry double) :=
  map (fun i => poly_entry (coeff_poly this name initial final i))
      (seq 0 (List.length (GetBasePolyDurations (params_ this))))
  ++ [entry (CCoeffSpline (coeff_spline_of this name initial final)) false].

Definition coeff_base (this : Facade) : list (Entry double) :=
  coeff_entries this id.base_angular
    (p_ (ang (inital_base_ this))) (p_ (ang (final_base_ this)))
  ++ coeff_entries this id.base_linear
       (p_ (lin (inital_base_ this))) (p_ (lin (final_base_ this))).

(** The blocks of the base under the representation of the parameters. *)
Definition base_entries (this : Facade) : list (Entry double) :=
  match GetBaseRepresentation (params_ this) with
  | CubicHermite => hermite_base this
  | PolyCoeff => coeff_base this
  | OtherRepresentation _ => []
  end.

Lemma combine_map_map {A B C} (h : A -> B) (g : A -> C) (l : list A) :
  combine (map h l) (map g l) = map (fun i => (h i, g i)) l.
Proof.
  induction l as [|x l IH]; simpl; [reflexivity|]. rewrite IH. reflexivity.
Qed.

Lemma map_split {A} (g : nat -> A) m done x rest :
  map g (seq 0 m) = done ++ x :: rest ->
  (List.length done < m)%nat /\ x = g (List.length done).
Proof.
  intros E.
  assert (Hlen : (List.length done < m)%nat).
  { apply (f_equal (@List.length _)) in E.
    rewrite length_map, length_seq, length_app in E. simpl in E. lia. }
  split; [exact Hlen|].
  assert (H : nth_error (map g (seq 0 m)) (List.length done) = Some x).
  { rewrite E, nth_error_app2, Nat.sub_diag by lia. reflexivity. }
  rewrite nth_error_map, nth_error_seq in H.
  destruct (Nat.ltb_spec (List.length done) m); [|lia].
  simpl in H. inversion H. reflexivity.
Qed.

Lemma map_combine_seq {A B} (h : nat -> A -> B) (g : nat -> A) m :
  forall a,
    map (fun '(i, p) => h i p) (combine (seq a m) (map g (seq a m)))
    = map (fun i => h i (g i)) (seq a m).
Proof.
  induction m as [|m IH]; intros a; simpl; [reflexivity|].
  rewrite IH. reflexivity.
Qed.

(** The polynomials of a spline, the first [k] of them initialised. *)
Definition polys_when (this : Facade) (name : id.Id)
  (initial final : VectorXd double) (k : nat) : list (Entry double) :=
  map (fun i => poly_entry (if (i <? k)%nat
                            then coeff_poly this name initial final i
                            else new_poly this name i))
      (seq 0 (List.length (GetBasePolyDurations (params_ this)))).

Lemma polys_when_all this name initial final :
  polys_when this name initial final
    (List.length (GetBasePolyDurations (params_ this)))
  = map (fun i => poly_entry (coeff_poly this name initial final i))
        (seq 0 (List.length (GetBasePolyDurations (params_ this)))).
Proof.
  apply map_ext_in. intros i Hi. apply in_seq in Hi.
  destruct (Nat.ltb_spec i (List.length (GetBasePolyDurations (params_ this))));
    [reflexivity|lia].
Qed.

Lemma CoeffSpline_InitializeVariables_holds this front name initial final :
  triple (holds (front ++ polys_when this name initial final 0))
         (CoeffSpline_InitializeVariables
            {| coeff_id := name;
               coeff_timings := GetBasePolyDurations (params_ this);
               poly_vars_ :=
                 map (new_poly this name)
                     (seq 0 (List.length
                               (GetBasePolyDurations (params_ this)))) |}
            (map (fun i => (List.length front + i)%nat)
                 (seq 0 (List.length (GetBasePolyDurations (params_ this)))))
            initial final)
         (fun spline vars =>
            spline = coeff_spline_of this name initial final
            /\ holds (front
                      ++ polys_when this name initial final
                           (List.length
                              (GetBasePolyDurations (params_ this)))) vars).
Proof.
  unfold CoeffSpline_InitializeVariables.
  cbn [poly_vars_ coeff_timings coeff_id].
  rewrite length_map, length_seq.
  rewrite (map_combine_seq
             (fun i p =>
                set_coefficients p
                  (InitialCoefficients (GetBasePolyDurations (params_ this))
                     i (polyvars_poly p) initial final))
             (new_poly this name)).
  change (map _ (seq 0 (List.length (GetBasePolyDurations (params_ this)))))
    with (map (coeff_poly this name initial final)
              (seq 0 (List.length (GetBasePolyDurations (params_ this)))))
    at 2 3.
  rewrite combine_map_map.
  eapply triple_bind.
  - eapply triple_weaken;
      [apply (@triple_for_each _ _
                (fun (done : list (nat * PolynomialVars double))
                     (_ : unit) =>
                   holds (front
                          ++ polys_when this name initial final
                               (List.length done))))
      |intros vars H; exact H
      |intros u vars H; exact H].
    intros done p rest [] E. apply map_split in E. destruct E as (Hlt & ->).
    intros vars ->. eexists tt, _. split; [reflexivity|].
    unfold holds, nlp_variables. cbn [components composite_name composite_flag
                                      places fold_left].
    f_equal. rewrite change_at_app_r.
    apply f_equal. unfold polys_when.
    rewrite <- (app_nil_r (map _ _)) at 1.
    rewrite <- (Nat.sub_0_r (List.length done)) at 1.
    rewrite change_at_indexed by lia.
    rewrite app_nil_r. apply map_ext_in. intros j Hj.
    rewrite length_app, Nat.add_1_r.
    destruct (Nat.eqb_spec j (List.length done)) as [->|Hne].
    + destruct (Nat.ltb_spec (List.length done) (S (List.length done)));
        [|lia].
      destruct (Nat.ltb_spec (List.length done) (List.length done));
        [lia|reflexivity].
    + destruct (Nat.ltb_spec j (List.length done)),
               (Nat.ltb_spec j (S (List.length done)));
        reflexivity || lia.
  - intros []. apply triple_ret. intros vars H.
    rewrite length_map, length_seq in H. split; [reflexivity|exact H].
Qed.

Lemma coeff_spline_holds this front name initial final :
  triple (holds front) (coeff_spline this name initial final)
         (fun _ => holds (front ++ coeff_entries this name initial final)).
Proof.
  unfold coeff_spline. cbv zeta.
  eapply triple_bind.
  { eapply triple_weaken;
      [apply (@triple_for_each _ _
                (fun (done : list nat)
                     (made : CoeffSpline double * list nat) vars =>
                   made
                   = ({| coeff_id := name;
                         coeff_timings := GetBasePolyDurations (params_ this);
                         poly_vars_ := map (new_poly this name) done |},
                      map (fun i => (List.length front + i)%nat) done)
                   /\ holds (front
                             ++ map (fun i => poly_entry (new_poly this name i))
                                    done) vars))
      |intros vars H; simpl; rewrite app_nil_r; auto
      |intros made vars H; exact H].
    intros done i rest made E vars (-> & ->).
    apply seq_split in E. destruct E as (Hi & _ & _).
    eexists _, _. split; [reflexivity|]. simpl.
    split.
    - rewrite !map_app, length_app, length_map, <- Hi. reflexivity.
    - unfold holds, nlp_variables. rewrite map_app, app_assoc. reflexivity. }
  intros made vars (-> & H). revert vars H.
  change (triple (holds (front ++ polys_when this name initial final 0))
            (spline <-
               CoeffSpline_InitializeVariables
                 {| coeff_id := name;
                    coeff_timings := GetBasePolyDurations (params_ this);
                    poly_vars_ :=
                      map (new_poly this name)
                          (seq 0 (List.length
                                    (GetBasePolyDurations (params_ this)))) |}
                 (map (fun i => (List.length front + i)%nat)
                      (seq 0 (List.length
                                (GetBasePolyDurations (params_ this)))))
                 initial final ;;
             AddComponent (CCoeffSpline spline) false)
            (fun _ => holds (front ++ coeff_entries this name initial final))).
  eapply triple_bind;
    [apply CoeffSpline_InitializeVariables_holds|].
  intros spline vars (-> & ->). eexists tt, _. split; [reflexivity|].
  unfold holds, nlp_variables. cbn [components composite_name composite_flag].
  rewrite polys_when_all, <- app_assoc. reflexivity.
Qed.

Lemma coeff_entries_blocks this name initial final :
  is_base_name name = true ->
  Forall (fun e => base_block e = true)
         (coeff_entries this name initial final).
Proof.
  intros Hname. apply Forall_app. split.
  - apply Forall_forall. intros e He. apply in_map_iff in He.
    destruct He as (i & <- & _). reflexivity.
  - constructor; [|constructor].
    unfold base_block. simpl. rewrite Hname. reflexivity.
Qed.

Lemma base_entries_blocks this :
  Forall (fun e => base_block e = true) (base_entries this).
Proof.
  unfold base_entries. destruct (GetBaseRepresentation (params_ this)).
  - apply hermite_base_blocks.
  - apply Forall_app.
    split; apply coeff_entries_blocks; reflexivity.
  - constructor.
Qed.

Lemma SetBaseRepresentationCoeff_holds this :
  triple (holds []) (SetBaseRepresentationCoeff this)
         (fun _ => holds (coeff_base this)).
Proof.
  unfold SetBaseRepresentationCoeff.
  eapply triple_bind.
  - apply (@coeff_spline_holds this []).
  - intros []. apply (@coeff_spline_holds this).
Qed.

Lemma build_variables_holds this n :
  well_formed this n ->
  triple (holds []) (build_variables this)
         (fun _ => holds (base_entries this ++ limb_entries this n)).
Proof.
  intros Hwf. unfold build_variables.
  apply (@triple_bind _ _ _ _ (fun _ => holds [])).
  { intros vars ->. eexists tt, _. split; reflexivity. }
  intros [].
  apply (@triple_bind _ _ _ _ (fun _ => holds (base_entries this))).
  { unfold base_entries.
    destruct Hwf as (_ & _ & _ & _ & [Hrep | Hrep]); rewrite Hrep.
    - intros vars ->. eexists tt, _. split; reflexivity.
    - apply SetBaseRepresentationCoeff_holds. }
  intros []. destruct Hwf as (Hids & Hwf). rewrite Hids.
  apply limbs_hold. split; [exact Hids|exact Hwf].
Qed.

(** The composite [BuildVariables] returns for a well-formed facade. *)
Lemma BuildVariables_holds this n :
  well_formed this n ->
  BuildVariables this
  = Ok (nlp_variables (base_entries this ++ limb_entries this n)).
Proof.
  intros Hwf. unfold BuildVariables.
  destruct (@build_variables_holds this n Hwf (nlp_variables []))
    as ([] & vars & E & ->); [reflexivity|].
  unfold nlp_variables in E. rewrite E. reflexivity.
Qed.

(** X1.  For a facade whose limbs are [E0 .. E(n-1)], each with contact
    timings, a nominal stance and an initial position, and whose base
    representation is one of the two, [BuildVariables] returns the
    composite [nlp_variables] that holds, in this order: the blocks of
    the base; for each limb its schedule, observed by the xy motion, the z
    motion and the force of that limb, in this order; for each limb its
    xy motion and its z motion; for each limb its force. *)
Theorem BuildVariables_returns this n :
  well_formed this n ->
  BuildVariables this
  = Ok (nlp_variables (base_entries this ++ limb_entries this n)).
Proof.
  intros Hwf. unfold BuildVariables.
  destruct (@build_variables_holds this n Hwf (nlp_variables []))
    as ([] & vars & E & ->); [reflexivity|].
  unfold nlp_variables in E. rewrite E. reflexivity.
Qed.

(** *** Looking the blocks of a limb up *)

Definition is_named (name : id.Id) (e : Entry double) : bool :=
  id.eqb (GetName (entry_component e)) name.

Ltac same_name :=
  cbn; unfold is_named; cbn;
  rewrite ?id_eqb_refl; rewrite ?id_eqb_neq by congruence; reflexivity.
Ltac other_name :=
  intros; cbn; unfold is_named; cbn;
  rewrite ?id_eqb_neq by congruence; reflexivity.

Lemma schedule_entries_as_flat_map this n obs :
  schedule_entries this n obs
  = flat_map
      (fun ee =>
         [entry (CContactSchedule
                   (with_observers (schedule_of this ee) (obs ee)))
                (ConstraintExists (params_ this) TotalTime)])
      (seq 0 n).
Proof. apply map_as_flat_map. Qed.

(** Among the blocks of the limbs [0 .. n-1] each name of a limb below [n]
    is the name of one block. *)
Lemma limb_entries_named this n ee :
  (ee < n)%nat ->
  filter (is_named (id.GetEEScheduleId ee)) (limb_entries this n)
  = [entry (CContactSchedule
              (with_observers (schedule_of this ee) (limb_observers ee)))
           (ConstraintExists (params_ this) TotalTime)]
  /\ filter (is_named (id.GetEEXYMotionId ee)) (limb_entries this n)
     = [entry (CNodeValues (xy_motion_of this ee)) true]
  /\ filter (is_named (id.GetEEZMotionId ee)) (limb_entries this n)
     = [entry (CNodeValues (z_motion_of this ee)) true]
  /\ filter (is_named (id.GetEEForceId ee)) (limb_entries this n)
     = [force_entry this ee].
Proof.
  intros Hee. unfold limb_entries.
  rewrite schedule_entries_as_flat_map.
  rewrite (map_as_flat_map (force_entry this)).
  rewrite !filter_app.
  assert (Hlt : (ee <? n)%nat = true) by (apply Nat.ltb_lt; exact Hee).
  split; [|split; [|split]].
  - rewrite (@filter_limbs _ _
               (fun ee =>
                  [entry (CContactSchedule
                            (with_observers (schedule_of this ee)
                                            (limb_observers ee)))
                         (ConstraintExists (params_ this) TotalTime)])
               [entry (CContactSchedule
                         (with_observers (schedule_of this ee)
                                         (limb_observers ee)))
                      (ConstraintExists (params_ this) TotalTime)] ee);
      [|same_name|other_name].
    rewrite !filter_no_limb; [|other_name|other_name].
    rewrite Hlt. reflexivity.
  - rewrite (@filter_limbs _ _ (motion_entries this)
               [entry (CNodeValues (xy_motion_of this ee)) true] ee);
      [|same_name|other_name].
    rewrite !filter_no_limb; [|other_name|other_name].
    rewrite Hlt. reflexivity.
  - rewrite (@filter_limbs _ _ (motion_entries this)
               [entry (CNodeValues (z_motion_of this ee)) true] ee);
      [|same_name|other_name].
    rewrite !filter_no_limb; [|other_name|other_name].
    rewrite Hlt. reflexivity.
  - rewrite (@filter_limbs _ _ (fun x => [force_entry this x])
               [force_entry this ee] ee);
      [|same_name|other_name].
    rewrite !filter_no_limb; [|other_name|other_name].
    rewrite Hlt. reflexivity.
Qed.

Lemma find_limb_entry base rest name e :
  Forall (fun e : Entry double => base_block e = true) base ->
  is_base_name name = false ->
  filter (is_named name) rest = [e] ->
  find_entry name (base ++ rest) = Some e.
Proof.
  intros Hbase Hname Hrest. rewrite find_entry_base by assumption.
  apply find_single. exact Hrest.
Qed.

(** X2.  In the composite [BuildVariables] returns, the schedule of a limb
    is the one made from the contact timings and the phase durations of
    the parameters, and its observers are the xy motion, the z motion and
    the force of that very limb, registered in this order: no block of
    another limb observes it, and none is registered twice. *)
Theorem schedule_observed_by_own_blocks this n ee :
  well_formed this n ->
  (ee < n)%nat ->
  exists vars schedule,
    BuildVariables this = Ok vars
    /\ lookup as_ContactSchedule (id.GetEEScheduleId ee) vars = Some schedule
    /\ observers schedule
       = [id.GetEEXYMotionId ee; id.GetEEZMotionId ee; id.GetEEForceId ee]
    /\ schedule_ee schedule = ee
    /\ schedule_timings schedule = nth ee (contact_timings_ (params_ this)) []
    /\ min_duration schedule = min_phase_duration_ (params_ this)
    /\ max_duration schedule = max_phase_duration_ (params_ this).
Proof.
  intros Hwf Hee. eexists _, _.
  split; [apply BuildVariables_holds; exact Hwf|].
  split.
  { unfold lookup. cbn [components nlp_variables].
    rewrite (@find_limb_entry (base_entries this) (limb_entries this n)
               (id.GetEEScheduleId ee) _
               (base_entries_blocks this) eq_refl
               (proj1 (limb_entries_named this Hee))).
    reflexivity. }
  repeat split.
Qed.

Lemma built_bounds this n ee :
  (ee < n)%nat ->
  let vars := nlp_variables (base_entries this ++ limb_entries this n) in
  bounds_of vars (id.GetEEXYMotionId ee)
  = Some [bound StartNode kPos [Coords3D.X; Coords3D.Y]
                (nth ee (initial_ee_W_ this) [])]
  /\ bounds_of vars (id.GetEEZMotionId ee) = Some []
  /\ bounds_of vars (id.GetEEForceId ee) = Some [].
Proof.
  intros Hee vars.
  destruct (limb_entries_named this Hee) as (_ & Hxy & Hz & Hf).
  unfold bounds_of, vars. cbn [components nlp_variables].
  rewrite (@find_limb_entry (base_entries this) (limb_entries this n)
             (id.GetEEXYMotionId ee) _ (base_entries_blocks this) eq_refl Hxy).
  rewrite (@find_limb_entry (base_entries this) (limb_entries this n)
             (id.GetEEZMotionId ee) _ (base_entries_blocks this) eq_refl Hz).
  rewrite (@find_limb_entry (base_entries this) (limb_entries this n)
             (id.GetEEForceId ee) _ (base_entries_blocks this) eq_refl Hf).
  repeat split.
Qed.

(** X3.  Of the blocks of a limb in the composite [BuildVariables] returns,
    the xy motion has one boundary constraint, the one [AddStartBound]
    recorded: the position of its first node is fixed in X and Y to the
    initial position of the foot.  It has none on its last node, and no
    boundary constraint is recorded on the z motion and on the force:
    the facade calls neither [AddStartBound] nor [AddFinalBound] on them.
    The limit of the force is no boundary constraint: the force block is
    the [ForceNodes] whose constructor was given [GetForceLimit()] of the
    model. *)
Theorem limb_blocks_start_bound this n ee :
  well_formed this n ->
  (ee < n)%nat ->
  exists vars,
    BuildVariables this = Ok vars
    /\ bounds_of vars (id.GetEEXYMotionId ee)
       = Some [bound StartNode kPos [Coords3D.X; Coords3D.Y]
                     (nth ee (initial_ee_W_ this) [])]
    /\ bounds_of vars (id.GetEEZMotionId ee) = Some []
    /\ bounds_of vars (id.GetEEForceId ee) = Some []
    /\ exists force,
         find_entry (id.GetEEForceId ee) (components vars)
         = Some (entry (CNodeValues force) true)
         /\ nodes_kind force
            = ForceNodes (GetContactSequence (schedule_of this ee))
                         (force_splines_per_stance_phase_ (params_ this))
                         (GetForceLimit (model_ this)).
Proof.
  intros Hwf Hee. eexists.
  split; [apply BuildVariables_holds; exact Hwf|].
  destruct (built_bounds this Hee) as (Hxy & Hz & Hf).
  split; [exact Hxy|]. split; [exact Hz|]. split; [exact Hf|].
  exists (force_of this ee). split; [|reflexivity].
  destruct (limb_entries_named this Hee) as (_ & _ & _ & Hforce).
  cbn [components nlp_variables].
  apply (@find_limb_entry (base_entries this) (limb_entries this n)
           (id.GetEEForceId ee) _ (base_entries_blocks this) eq_refl Hforce).
Qed.

Lemma find_entry_skip name (front rest : list (Entry double)) :
  Forall (fun e => GetName (entry_component e) <> name) front ->
  find_entry name (front ++ rest) = find_entry name rest.
Proof.
  unfold find_entry.
  induction 1 as [|e front He _ IH]; simpl; [reflexivity|].
  rewrite id_eqb_neq by exact He. exact IH.
Qed.

Lemma find_entry_indexed (g : nat -> Entry double) (nm : nat -> id.Id) i :
  (forall j, GetName (entry_component (g j)) = nm j) ->
  (forall j, nm j = nm i -> j = i) ->
  forall m a rest,
    (a <= i < a + m)%nat ->
    find_entry (nm i) (map g (seq a m) ++ rest) = Some (g i).
Proof.
  intros Hname Hinj. unfold find_entry.
  induction m as [|m IH]; intros a rest Hi; [lia|].
  simpl. rewrite Hname. destruct (Nat.eq_dec a i) as [->|Hne].
  - rewrite id_eqb_refl. reflexivity.
  - rewrite id_eqb_neq by (intros H; apply Hne, Hinj, H).
    apply IH. lia.
Qed.

(** The blocks of one spline in coefficients: the spline under its name,
    its polynomials under the indexed names. *)
Lemma find_coeff_entries this name initial final rest :
  (forall i, name <> id.indexed name i) ->
  find_entry name (coeff_entries this name initial final ++ rest)
  = Some (entry (CCoeffSpline (coeff_spline_of this name initial final))
                false)
  /\ forall i,
       (i < List.length (GetBasePolyDurations (params_ this)))%nat ->
       find_entry (id.indexed name i)
                  (coeff_entries this name initial final ++ rest)
       = Some (poly_entry (coeff_poly this name initial final i)).
Proof.
  intros Hname. unfold coeff_entries. rewrite <- app_assoc. split.
  - rewrite find_entry_skip.
    + unfold find_entry. simpl. rewrite id_eqb_refl. reflexivity.
    + apply Forall_forall. intros e He. apply in_map_iff in He.
      destruct He as (j & <- & _). intros H. exact (Hname j (eq_sym H)).
  - intros i Hi.
    apply (@find_entry_indexed
             (fun i => poly_entry (coeff_poly this name initial final i))
             (id.indexed name)).
    + reflexivity.
    + intros j H. injection H. auto.
    + lia.
Qed.

Lemma coeff_entries_not_named this name name' initial final :
  name <> name' ->
  (forall i, id.indexed name i <> name') ->
  Forall (fun e => GetName (entry_component e) <> name')
         (coeff_entries this name initial final).
Proof.
  intros Hne Hni. apply Forall_app. split.
  - apply Forall_forall. intros e He. apply in_map_iff in He.
    destruct He as (j & <- & _). exact (Hni j).
  - constructor; [exact Hne|constructor].
Qed.

(** X4.  With the base in polynomial coefficients, the composite
    [BuildVariables] returns holds each base spline under its name as a
    block that is no variable, and the polynomials of the spline are the
    blocks of the composite under the indexed names, which are variables:
    one polynomial per base duration, the spline and the composite
    holding the same coefficients. *)
Theorem coeff_spline_shares_polynomials this n name :
  well_formed this n ->
  GetBaseRepresentation (params_ this) = PolyCoeff ->
  name = id.base_linear \/ name = id.base_angular ->
  exists vars spline,
    BuildVariables this = Ok vars
    /\ find_entry name (components vars)
       = Some (entry (CCoeffSpline spline) false)
    /\ coeff_timings spline = GetBasePolyDurations (params_ this)
    /\ List.length (poly_vars_ spline)
       = List.length (GetBasePolyDurations (params_ this))
    /\ forall i p,
         nth_error (poly_vars_ spline) i = Some p ->
         find_entry (id.indexed name i) (components vars)
         = Some (entry (CPolynomialVars p) true).
Proof.
  intros Hwf Hrep Hname.
  assert (H : exists initial final,
             find_entry name (components
                                (nlp_variables (base_entries this
                                                ++ limb_entries this n)))
             = Some (entry (CCoeffSpline
                              (coeff_spline_of this name initial final))
                           false)
             /\ forall i,
                  (i < List.length (GetBasePolyDurations (params_ this)))%nat ->
                  find_entry (id.indexed name i)
                    (components (nlp_variables (base_entries this
                                                ++ limb_entries this n)))
                  = Some (poly_entry (coeff_poly this name initial final i))).
  { cbn [components nlp_variables]. unfold base_entries. rewrite Hrep.
    unfold coeff_base. rewrite <- app_assoc.
    destruct Hname as [-> | ->].
    - eexists _, _. split.
      + rewrite find_entry_skip
          by (apply coeff_entries_not_named; [|intros i]; discriminate).
        apply find_coeff_entries. intros i. discriminate.
      + intros i Hi.
        rewrite find_entry_skip
          by (apply coeff_entries_not_named; [|intros j]; discriminate).
        apply find_coeff_entries; [intros j; discriminate|exact Hi].
    - eexists _, _. apply find_coeff_entries. intros i. discriminate. }
  destruct H as (initial & final & Hspline & Hpolys).
  exists (nlp_variables (base_entries this ++ limb_entries this n)),
         (coeff_spline_of this name initial final).
  split; [apply BuildVariables_holds; exact Hwf|].
  split; [exact Hspline|]. split; [reflexivity|].
  split; [simpl; rewrite length_map, length_seq; reflexivity|].
  intros i p Hp. simpl in Hp. rewrite nth_error_map, nth_error_seq in Hp.
  destruct (Nat.ltb_spec i (List.length (GetBasePolyDurations (params_ this))))
    as [Hi|Hi]; [|discriminate].
  simpl in Hp. injection Hp as <-. apply Hpolys. exact Hi.
Qed.

(** *** When BuildVariables fails *)

Definition recognised (representation : BaseRepresentation) : bool :=
  match representation with
  | CubicHermite | PolyCoeff => true
  | OtherRepresentation _ => false
  end.

(** The limbs [ids] pass the first loop when [k] schedules are in the
    local vector: each has contact timings, and the vector holds the index
    of each after its schedule is pushed. *)
Fixpoint schedules_in_range (this : Facade) (k : nat)
  (ids : list EndeffectorID) : bool :=
  match ids with
  | [] => true
  | ee :: ids' =>
      (ee <? List.length (contact_timings_ (params_ this)))%nat
      && (ee <=? k)%nat
      && schedules_in_range this (S k) ids'
  end.

(** A limb passes the second loop when the local vector holds [k]
    schedules. *)
Definition motion_in_range (this : Facade) (k : nat) (ee : EndeffectorID)
  : bool :=
  (ee <? k)%nat
  && (ee <? List.length (GetNominalStanceInBase (model_ this)))%nat
  && (ee <? List.length (initial_ee_W_ this))%nat.

(** The run passes line 74 when the representation is one of the two, or
    when the assertion is compiled away. *)
Definition passes_assertion (this : Facade) : bool :=
  recognised (GetBaseRepresentation (params_ this)) || NDEBUG.

Definition buildable (this : Facade) : bool :=
  passes_assertion this
  && schedules_in_range this 0 (GetEEIDs (model_ this))
  && forallb (motion_in_range this (List.length (GetEEIDs (model_ this))))
             (GetEEIDs (model_ this)).

Lemma at_Err {A} (v : list A) i :
  (List.length v <= i)%nat -> at_ v i = Err OutOfRange.
Proof.
  intros H. unfold at_. apply nth_error_None in H. rewrite H. reflexivity.
Qed.

Lemma add_schedule_run this cs ee vars :
  if ((ee <? List.length (contact_timings_ (params_ this)))%nat
      && (ee <=? List.length cs)%nat)%bool
  then exists cs' vars',
         add_schedule this cs ee vars = Ok (cs', vars')
         /\ List.length cs' = S (List.length cs)
  else add_schedule this cs ee vars = Err OutOfRange.
Proof.
  unfold add_schedule, bind, lift.
  destruct (Nat.ltb_spec ee (List.length (contact_timings_ (params_ this))))
    as [Ht|Ht]; simpl.
  - rewrite (at_Ok _ [] Ht).
    destruct (Nat.leb_spec ee (List.length cs)) as [Hc|Hc].
    + rewrite (@at_Ok _ (cs ++ [{| target :=
                                    make_ContactSchedule this ee
                                      (nth ee
                                         (contact_timings_ (params_ this))
                                         []);
                                  places := [] |}])
                 ee {| target := schedule_of this ee; places := [] |})
        by (rewrite length_app; simpl; lia).
      eexists _, _. split; [reflexivity|].
      rewrite change_at_length, length_app. simpl. lia.
    + rewrite at_Err by (rewrite length_app; simpl; lia). reflexivity.
  - rewrite at_Err by exact Ht. reflexivity.
Qed.

Lemma add_schedules_run this ids :
  forall cs vars,
    if schedules_in_range this (List.length cs) ids
    then exists cs' vars',
           for_each ids (add_schedule this) cs vars = Ok (cs', vars')
           /\ List.length cs' = (List.length cs + List.length ids)%nat
    else for_each ids (add_schedule this) cs vars = Err OutOfRange.
Proof.
  induction ids as [|ee ids IH]; intros cs vars; simpl.
  - eexists _, _. split; [reflexivity|lia].
  - pose proof (add_schedule_run this cs ee vars) as Hrun.
    unfold bind.
    destruct ((ee <? List.length (contact_timings_ (params_ this)))%nat
              && (ee <=? List.length cs)%nat)%bool; simpl.
    + destruct Hrun as (cs' & vars' & -> & Hlen).
      specialize (IH cs' vars'). rewrite Hlen in IH.
      destruct (schedules_in_range this (S (List.length cs)) ids).
      * destruct IH as (cs'' & vars'' & E & Hlen').
        exists cs'', vars''. split; [exact E|lia].
      * exact IH.
    + rewrite Hrun. reflexivity.
Qed.

Lemma add_motion_run this cs ee vars :
  if motion_in_range this (List.length cs) ee
  then exists vars', add_motion this cs tt ee vars = Ok (tt, vars')
  else add_motion this cs tt ee vars = Err OutOfRange.
Proof.
  unfold add_motion, motion_in_range, bind, lift.
  destruct (Nat.ltb_spec ee (List.length cs)) as [Hc|Hc]; cbn [andb].
  - destruct cs as [|c cs']; [simpl in Hc; lia|].
    rewrite (at_Ok _ c Hc).
    destruct (Nat.ltb_spec ee
                (List.length (GetNominalStanceInBase (model_ this))))
      as [Hn|Hn]; cbn [andb].
    + rewrite at_Ok with (d := @nil double) by exact Hn.
      destruct (Nat.ltb_spec ee (List.length (initial_ee_W_ this)))
        as [Hi|Hi].
      * rewrite at_Ok with (d := @nil double) by exact Hi. eexists. reflexivity.
      * rewrite at_Err by exact Hi. reflexivity.
    + rewrite at_Err by exact Hn. reflexivity.
  - rewrite (at_Err _ Hc). reflexivity.
Qed.

Lemma add_force_run this cs ee vars :
  if (ee <? List.length cs)%nat
  then exists vars', add_force this cs tt ee vars = Ok (tt, vars')
  else add_force this cs tt ee vars = Err OutOfRange.
Proof.
  unfold add_force, bind, lift.
  destruct (Nat.ltb_spec ee (List.length cs)) as [Hc|Hc].
  - destruct cs as [|c cs']; [simpl in Hc; lia|].
    rewrite (at_Ok _ c Hc). eexists. reflexivity.
  - rewrite (at_Err _ Hc). reflexivity.
Qed.

(** A loop whose body passes or fails by a test on the element alone. *)
Lemma for_each_run {A} (body : unit -> A -> M Variables unit)
  (test : A -> bool) e :
  (forall x vars,
     if test x then exists vars', body tt x vars = Ok (tt, vars')
     else body tt x vars = Err e) ->
  forall xs vars,
    if forallb test xs
    then exists vars', for_each xs body tt vars = Ok (tt, vars')
    else for_each xs body tt vars = Err e.
Proof.
  intros Hbody. induction xs as [|x xs IH]; intros vars; simpl.
  - eexists. reflexivity.
  - specialize (Hbody x vars). unfold bind.
    destruct (test x); simpl.
    + destruct Hbody as (vars' & ->). apply IH.
    + rewrite Hbody. reflexivity.
Qed.

Lemma limbs_run this vars :
  if (schedules_in_range this 0 (GetEEIDs (model_ this))
      && forallb (motion_in_range this (List.length (GetEEIDs (model_ this))))
                 (GetEEIDs (model_ this)))%bool
  then exists vars',
         (contact_schedule <-
            for_each (GetEEIDs (model_ this)) (add_schedule this) [] ;;
          for_each (GetEEIDs (model_ this))
                   (add_motion this contact_schedule) tt ;;;
          for_each (GetEEIDs (model_ this))
                   (add_force this contact_schedule) tt) vars
         = Ok (tt, vars')
  else (contact_schedule <-
          for_each (GetEEIDs (model_ this)) (add_schedule this) [] ;;
        for_each (GetEEIDs (model_ this))
                 (add_motion this contact_schedule) tt ;;;
        for_each (GetEEIDs (model_ this))
                 (add_force this contact_schedule) tt) vars
       = Err OutOfRange.
Proof.
  pose proof (add_schedules_run this (GetEEIDs (model_ this)) [] vars) as H1.
  simpl in H1. unfold bind.
  destruct (schedules_in_range this 0 (GetEEIDs (model_ this)));
    cbn [andb]; [|rewrite H1; reflexivity].
  destruct H1 as (cs & vars1 & -> & Hlen).
  pose proof (for_each_run (add_motion this cs)
                (motion_in_range this (List.length cs)) OutOfRange
                (fun x v => add_motion_run this cs x v)
                (GetEEIDs (model_ this)) vars1) as H2.
  rewrite Hlen in H2.
  destruct (forallb _ (GetEEIDs (model_ this))) eqn:Hall;
    [|rewrite H2; reflexivity].
  destruct H2 as (vars2 & ->).
  pose proof (for_each_run (add_force this cs)
                (fun ee => (ee <? List.length cs)%nat) OutOfRange
                (fun x v => add_force_run this cs x v)
                (GetEEIDs (model_ this)) vars2) as H3.
  replace (forallb _ (GetEEIDs (model_ this))) with true in H3;
    [exact H3|].
  symmetry. apply forallb_forall. intros ee Hee.
  rewrite forallb_forall in Hall. specialize (Hall ee Hee).
  unfold motion_in_range in Hall. rewrite Hlen.
  destruct (ee <? List.length (GetEEIDs (model_ this)))%nat;
    [reflexivity|discriminate].
Qed.

Lemma bind_run {S A B} (m : M S A) (k : A -> M S B) s a s' :
  m s = Ok (a, s') -> bind m k s = k a s'.
Proof. intros E. unfold bind. rewrite E. reflexivity. Qed.

Lemma build_variables_start this :
  build_variables this
    {| composite_name := "nlp_variables"; composite_flag := true;
       components := [] |}
  = (match GetBaseRepresentation (params_ this) with
     | CubicHermite => SetBaseRepresentationHermite this
     | PolyCoeff => SetBaseRepresentationCoeff this
     | OtherRepresentation _ => assert_false
     end ;;;
     contact_schedule <-
       for_each (GetEEIDs (model_ this)) (add_schedule this) [] ;;
     for_each (GetEEIDs (model_ this)) (add_motion this contact_schedule) tt ;;;
     for_each (GetEEIDs (model_ this)) (add_force this contact_schedule) tt)
      (nlp_variables []).
Proof. reflexivity. Qed.

Lemma BuildVariables_run this :
  if buildable this
  then exists vars, BuildVariables this = Ok vars
  else BuildVariables this
       = Err (if passes_assertion this then OutOfRange else AssertionFailed).
Proof.
  assert (Hbase : passes_assertion this = true ->
                  exists vars,
                    match GetBaseRepresentation (params_ this) with
                    | CubicHermite => SetBaseRepresentationHermite this
                    | PolyCoeff => SetBaseRepresentationCoeff this
                    | OtherRepresentation _ => assert_false
                    end (nlp_variables []) = Ok (tt, vars)).
  { unfold passes_assertion, assert_false.
    destruct (GetBaseRepresentation (params_ this)); intros H.
    - eexists. reflexivity.
    - destruct (@SetBaseRepresentationCoeff_holds this (nlp_variables []))
        as ([] & vars & E & _); [reflexivity|].
      exists vars. exact E.
    - simpl in H. rewrite H. eexists. reflexivity. }
  unfold buildable, BuildVariables. rewrite build_variables_start.
  destruct (passes_assertion this) eqn:Hrep; cbn [andb].
  - destruct (Hbase eq_refl) as (vars & E).
    erewrite bind_run by exact E.
    pose proof (limbs_run this vars) as H.
    destruct (schedules_in_range this 0 (GetEEIDs (model_ this))
              && forallb _ (GetEEIDs (model_ this)))%bool.
    + destruct H as (vars' & ->). eexists. reflexivity.
    + rewrite H. reflexivity.
  - unfold passes_assertion, assert_false in *.
    destruct (GetBaseRepresentation (params_ this)); try discriminate.
    simpl in Hrep. rewrite Hrep. reflexivity.
Qed.

(** X5.  [BuildVariables] returns a composite if and only if the run
    passes line 74 (the base representation is one of the two, or the
    assertion is compiled away by [NDEBUG]) and every identifier of the
    model is in range: the k-th identifier is at most k (the local vector
    of schedules holds its index when its schedule is added), and it has
    contact timings, a nominal stance and an initial position.  It fails
    on the assertion when the representation is unknown and assertions are
    compiled in, before any limb is looked at, and with an index out of
    range otherwise. *)
Theorem BuildVariables_succeeds_iff this :
  ((exists vars, BuildVariables this = Ok vars) <-> buildable this = true)
  /\ (forall e,
        BuildVariables this = Err e ->
        e = if recognised (GetBaseRepresentation (params_ this)) || NDEBUG
            then OutOfRange else AssertionFailed).
Proof.
  pose proof (BuildVariables_run this) as H.
  destruct (buildable this).
  - destruct H as (vars & E). split.
    + split; [reflexivity|]. intros _. exists vars. exact E.
    + intros e He. rewrite E in He. discriminate.
  - split.
    + split; [|discriminate]. intros (vars & E). rewrite E in H.
      discriminate.
    + intros e He. rewrite H in He. injection He as <-. reflexivity.
Qed.

(** *** Sampling the composite that was built *)

Lemma built_has_base this rest name :
  recognised (GetBaseRepresentation (params_ this)) = true ->
  name = id.base_linear \/ name = id.base_angular ->
  has as_Spline name (nlp_variables (base_entries this ++ rest)) = true.
Proof.
  intros Hrep Hname. unfold has, lookup. cbn [components nlp_variables].
  unfold base_entries.
  destruct (GetBaseRepresentation (params_ this)); [| |discriminate].
  - destruct Hname as [-> | ->]; reflexivity.
  - unfold coeff_base. rewrite <- app_assoc.
    assert (Hl : forall i, id.base_linear <> id.indexed id.base_linear i)
      by (intros i; discriminate).
    assert (Ha : forall i, id.base_angular <> id.indexed id.base_angular i)
      by (intros i; discriminate).
    destruct Hname as [-> | ->].
    + rewrite find_entry_skip
        by (apply coeff_entries_not_named; [|intros i]; discriminate).
      rewrite (proj1 (@find_coeff_entries this id.base_linear _ _ _ Hl)).
      reflexivity.
    + rewrite (proj1 (@find_coeff_entries this id.base_angular _ _ _ Ha)).
      reflexivity.
Qed.

Lemma built_has_limb this n ee :
  (ee < n)%nat ->
  let vars := nlp_variables (base_entries this ++ limb_entries this n) in
  lookup as_ContactSchedule (id.GetEEScheduleId ee) vars
  = Some (with_observers (schedule_of this ee) (limb_observers ee))
  /\ lookup as_Spline (id.GetEEXYMotionId ee) vars
     = Some (CNodeValues (xy_motion_of this ee))
  /\ lookup as_Spline (id.GetEEForceId ee) vars
     = Some (CNodeValues (force_of this ee)).
Proof.
  intros Hee vars.
  destruct (limb_entries_named this Hee) as (Hs & Hxy & _ & Hf).
  unfold lookup, vars. cbn [components nlp_variables].
  rewrite (@find_limb_entry (base_entries this) (limb_entries this n)
             (id.GetEEScheduleId ee) _ (base_entries_blocks this) eq_refl Hs).
  rewrite (@find_limb_entry (base_entries this) (limb_entries this n)
             (id.GetEEXYMotionId ee) _ (base_entries_blocks this) eq_refl Hxy).
  rewrite (@find_limb_entry (base_entries this) (limb_entries this n)
             (id.GetEEForceId ee) _ (base_entries_blocks this) eq_refl Hf).
  repeat split.
Qed.

Lemma built_assigned this n :
  recognised (GetBaseRepresentation (params_ this)) = true ->
  (1 <= n)%nat ->
  (GetEECount (model_ this) <= n)%nat ->
  assigned this (nlp_variables (base_entries this ++ limb_entries this n))
  = true.
Proof.
  intros Hrep Hn Hcount. unfold assigned.
  rewrite !built_has_base by auto.
  assert (H0 : (E0 < n)%nat) by (unfold E0; lia).
  unfold has at 1. rewrite (proj1 (built_has_limb this H0)).
  cbn [andb]. apply forallb_forall. intros ee Hee. apply in_seq in Hee.
  assert (Hlt : (ee < n)%nat) by lia.
  destruct (built_has_limb this Hlt) as (Hs & Hxy & Hf).
  unfold has. rewrite Hs, Hxy, Hf. reflexivity.
Qed.

Lemma well_formed_recognised this n :
  well_formed this n ->
  recognised (GetBaseRepresentation (params_ this)) = true.
Proof. intros (_ & _ & _ & _ & [-> | ->]); reflexivity. Qed.

(** X6.  The composite [BuildVariables] returns can be sampled: for a
    facade with at least one limb whose model counts no more limbs than it
    names, [BuildTrajectory] on that composite finds every block it asks
    for, and the contact, the motion and the force of a limb in a state
    are the values, at the time of the state, of the schedule, the xy
    motion and the force [BuildVariables] made for that limb. *)
Theorem initial_guess_is_sampled this n dt k fuel :
  well_formed this n ->
  (1 <= n)%nat ->
  (GetEECount (model_ this) <= n)%nat ->
  exit_round (GetTotalTime (with_observers (schedule_of this E0)
                                           (limb_observers E0))) dt k ->
  (k < fuel)%nat ->
  exists vars trajectory,
    BuildVariables this = Ok vars
    /\ BuildTrajectory this fuel dt vars = Ok (trajectory, vars)
    /\ map (@t_global_ _ _) trajectory = map (sample_time dt) (seq 0 k)
    /\ forall state, In state trajectory ->
       forall ee, (ee < GetEECount (model_ this))%nat ->
         nth_error (ee_contact_ state) ee
         = Some (IsInContact (with_observers (schedule_of this ee)
                                             (limb_observers ee))
                             (t_global_ state))
         /\ nth_error (ee_motion_ state) ee
            = Some (GetPoint (CNodeValues (xy_motion_of this ee))
                             (t_global_ state))
         /\ nth_error (ee_forces_ state) ee
            = Some (p_ (GetPoint (CNodeValues (force_of this ee))
                                 (t_global_ state))).
Proof.
  intros Hwf Hn Hcount Hexit Hfuel.
  set (vars := nlp_variables (base_entries this ++ limb_entries this n)).
  assert (H0 : (E0 < n)%nat) by (unfold E0; lia).
  destruct (@BuildTrajectory_samples this vars _ dt k fuel
              (proj1 (built_has_limb this H0))
              (built_assigned this (well_formed_recognised Hwf) Hn Hcount)
              Hexit Hfuel)
    as (trajectory & Hrun & _ & Htimes & Hall).
  exists vars, trajectory.
  split; [apply BuildVariables_holds; exact Hwf|].
  split; [exact Hrun|]. split; [exact Htimes|].
  intros state Hin ee Hee.
  destruct (@Forall2_In_r _ _ _ _ _ state Hall Hin)
    as (t & _ & Ht & _ & _ & _ & _ & _ & Hl).
  assert (Hlt : (ee < n)%nat) by lia.
  destruct (built_has_limb this Hlt) as (Hs & Hxy & Hf).
  destruct (Hl ee Hee) as (Hc & Hm & Hfo).
  fold vars in Hs, Hxy, Hf. rewrite Hs in Hc. rewrite Hxy in Hm.
  rewrite Hf in Hfo. rewrite Ht. simpl in Hc, Hm, Hfo. auto.
Qed.

(** X7.  For a model without limbs [BuildVariables] returns a composite,
    the blocks of the base, and [BuildTrajectory] fails on it with a
    lookup error, whatever the step: it reads the total time from the
    schedule of limb [E0], which no loop has added. *)
Theorem no_limb_no_trajectory this fuel dt :
  well_formed this 0 ->
  exists vars,
    BuildVariables this = Ok vars
    /\ components vars = base_entries this
    /\ BuildTrajectory this fuel dt vars = Err LookupError.
Proof.
  intros Hwf. eexists.
  split; [apply BuildVariables_holds; exact Hwf|].
  split; [apply app_nil_r|].
  unfold BuildTrajectory, bind. rewrite GetComponent_lookup.
  unfold lookup. cbn [components nlp_variables].
  rewrite find_entry_base by (apply base_entries_blocks || reflexivity).
  reflexivity.
Qed.

(** *** The ways BuildTrajectory ends *)

(** A computation whose only failure is a lookup error. *)
Definition fails_on_lookup {A} (m : M Variables A) : Prop :=
  forall vars e, m vars = Err e -> e = LookupError.

Lemma fails_on_lookup_ret {A} (a : A) : fails_on_lookup (ret a).
Proof. intros vars e H. discriminate. Qed.

Lemma fails_on_lookup_bind {A B} (m : M Variables A)
  (k : A -> M Variables B) :
  fails_on_lookup m -> (forall a, fails_on_lookup (k a)) ->
  fails_on_lookup (bind m k).
Proof.
  intros Hm Hk vars e. unfold bind.
  destruct (m vars) as [[a v]|e'] eqn:E.
  - apply Hk.
  - intros H. injection H as <-. exact (Hm vars e' E).
Qed.

Lemma fails_on_lookup_GetComponent {T} (cast : Component double -> option T)
  name : fails_on_lookup (GetComponent cast name).
Proof.
  intros vars e. rewrite GetComponent_lookup.
  destruct (lookup cast name vars); [discriminate|].
  intros H. injection H as <-. reflexivity.
Qed.

Lemma fails_on_lookup_for_each {A B} (body : B -> A -> M Variables B) xs :
  (forall acc x, fails_on_lookup (body acc x)) ->
  forall acc, fails_on_lookup (for_each xs body acc).
Proof.
  intros Hbody. induction xs as [|x xs IH]; intros acc; simpl.
  - apply fails_on_lookup_ret.
  - apply fails_on_lookup_bind; [apply Hbody|exact IH].
Qed.

Lemma fails_on_lookup_sample_state this t :
  fails_on_lookup (sample_state this t).
Proof.
  unfold sample_state.
  apply fails_on_lookup_bind; [apply fails_on_lookup_GetComponent|].
  intros linear.
  apply fails_on_lookup_bind; [apply fails_on_lookup_GetComponent|].
  intros angular. apply fails_on_lookup_for_each.
  intros state ee. unfold sample_limb.
  repeat (apply fails_on_lookup_bind;
          [apply fails_on_lookup_GetComponent|intros ?]).
  apply fails_on_lookup_ret.
Qed.

Lemma option_map_Some {A B} (f : A -> B) (o : option A) b :
  option_map f o = Some b -> exists a, o = Some a.
Proof. destruct o as [a|]; [eauto|discriminate]. Qed.

Lemma option_map_nth_error {A B C} (f : A -> B) (o : option A)
  (l : list C) (g : C -> B) i :
  option_map f o = option_map g (nth_error l i) ->
  (i < List.length l)%nat -> exists a, o = Some a.
Proof.
  intros H Hi. destruct (nth_error l i) as [c|] eqn:E.
  - apply (option_map_Some f o H).
  - apply nth_error_None in E. lia.
Qed.

(** A state is made only from a composite that holds the blocks of the
    base and of every limb the model counts. *)
Lemma sample_state_assigned this t vars state vars' :
  sample_state this t vars = Ok (state, vars') ->
  has as_Spline id.base_linear vars = true
  /\ has as_Spline id.base_angular vars = true
  /\ forallb
       (fun ee =>
          has as_ContactSchedule (id.GetEEScheduleId ee) vars
          && has as_Spline (id.GetEEXYMotionId ee) vars
          && has as_Spline (id.GetEEForceId ee) vars)
       (seq 0 (GetEECount (model_ this))) = true.
Proof.
  intros H. apply sample_state_sound in H.
  destruct H as (_ & _ & Hl & Ha & Hc & Hm & Hf & Hlimbs).
  apply option_map_Some in Hl. destruct Hl as (l & Hl).
  apply option_map_Some in Ha. destruct Ha as (a & Ha).
  unfold has. rewrite Hl, Ha. split; [reflexivity|]. split; [reflexivity|].
  apply forallb_forall. intros ee Hee. apply in_seq in Hee.
  destruct (Hlimbs ee) as (H1 & H2 & H3); [lia|].
  rewrite <- (map_id (ee_contact_ state)), nth_error_map in H1.
  rewrite <- (map_id (ee_motion_ state)), nth_error_map in H2.
  rewrite <- (map_id (ee_forces_ state)), nth_error_map in H3.
  apply option_map_nth_error in H1; [|lia].
  apply option_map_nth_error in H2; [|lia].
  apply option_map_nth_error in H3; [|lia].
  destruct H1 as (x1 & ->), H2 as (x2 & ->), H3 as (x3 & ->). reflexivity.
Qed.

Lemma sample_state_missing this t vars :
  has as_ContactSchedule (id.GetEEScheduleId E0) vars = true ->
  assigned this vars = false ->
  sample_state this t vars = Err LookupError.
Proof.
  intros H0 Ha. destruct (sample_state this t vars) as [[state v]|e] eqn:E.
  - apply sample_state_assigned in E. destruct E as (Hl & Hang & Hall).
    unfold assigned in Ha. rewrite H0, Hl, Hang, Hall in Ha. discriminate.
  - rewrite (@fails_on_lookup_sample_state this t vars e E). reflexivity.
Qed.

(** X8.  [BuildTrajectory] on a composite that lacks a block it reads ends
    in a lookup error: at once when the schedule of limb [E0] is the one
    that is missing, and in the first round of the loop otherwise, when
    the total time lets the loop start. *)
Theorem BuildTrajectory_missing_block this fuel dt vars :
  assigned this vars = false ->
  match lookup as_ContactSchedule (id.GetEEScheduleId E0) vars with
  | Some schedule =>
      dleb d0 (dadd (GetTotalTime schedule) d1e_5) = true /\ (0 < fuel)%nat
  | None => True
  end ->
  BuildTrajectory this fuel dt vars = Err LookupError.
Proof.
  intros Ha H. unfold BuildTrajectory, bind at 1.
  rewrite GetComponent_lookup.
  destruct (lookup as_ContactSchedule (id.GetEEScheduleId E0) vars)
    as [schedule|] eqn:Hs; [|reflexivity].
  destruct H as (Htest & Hfuel).
  destruct fuel as [|fuel]; [lia|]. simpl. rewrite Htest.
  unfold bind. rewrite sample_state_missing; [reflexivity| |exact Ha].
  unfold has. rewrite Hs. reflexivity.
Qed.

(** X9.  When the total time of the schedule of limb [E0] is so far below
    zero that the first test [0 <= T + 1e-5] fails, [BuildTrajectory]
    returns the empty trajectory; it reads no other block, so it does so
    on a composite that holds none. *)
Theorem BuildTrajectory_negative_total_time this fuel dt vars schedule :
  lookup as_ContactSchedule (id.GetEEScheduleId E0) vars = Some schedule ->
  dleb d0 (dadd (GetTotalTime schedule) d1e_5) = false ->
  (0 < fuel)%nat ->
  BuildTrajectory this fuel dt vars = Ok ([], vars).
Proof.
  intros Hs Htest Hfuel. unfold BuildTrajectory, bind.
  rewrite GetComponent_lookup, Hs.
  destruct fuel as [|fuel]; [lia|]. simpl. rewrite Htest. reflexivity.
Qed.

Lemma BuildTrajectory_loop_runs_out this dt T vars :
  assigned this vars = true ->
  forall fuel t trajectory,
    (forall k, dleb (time_after dt t k) (dadd T d1e_5) = true) ->
    BuildTrajectory_loop this fuel dt T t trajectory vars = Err OutOfFuel.
Proof.
  intros Ha. induction fuel as [|fuel IH]; intros t trajectory Hall;
    [reflexivity|].
  assert (H0 : dleb t (dadd T d1e_5) = true) by exact (Hall 0%nat).
  simpl. rewrite H0.
  destruct (@sample_state_complete this t vars Ha) as (state & Hs).
  unfold bind. rewrite Hs. apply IH.
  intros k. rewrite time_after_shift. apply Hall.
Qed.

(** The loop whose test never fails. *)
Lemma BuildTrajectory_runs_out this dt vars schedule :
  lookup as_ContactSchedule (id.GetEEScheduleId E0) vars = Some schedule ->
  assigned this vars = true ->
  (forall k,
     dleb (sample_time dt k) (dadd (GetTotalTime schedule) d1e_5) = true) ->
  forall fuel, BuildTrajectory this fuel dt vars = Err OutOfFuel.
Proof.
  intros Hs Ha Hall fuel. unfold BuildTrajectory, bind.
  rewrite GetComponent_lookup, Hs.
  apply BuildTrajectory_loop_runs_out; assumption.
Qed.

(** X10.  When every sample time [0, dt, 2*dt, ...] passes the test
    [t <= T + 1e-5], the loop of [BuildTrajectory] does not end: on a
    composite that holds the blocks, no number of rounds is enough for it
    to return.  A step of zero is such a step when the total time is not
    below zero. *)
Theorem BuildTrajectory_never_returns this dt vars schedule :
  lookup as_ContactSchedule (id.GetEEScheduleId E0) vars = Some schedule ->
  assigned this vars = true ->
  (forall k,
     dleb (sample_time dt k) (dadd (GetTotalTime schedule) d1e_5) = true) ->
  forall fuel, BuildTrajectory this fuel dt vars = Err OutOfFuel.
Proof.
  intros Hs Ha Hall fuel. unfold BuildTrajectory, bind.
  rewrite GetComponent_lookup, Hs.
  apply BuildTrajectory_loop_runs_out; assumption.
Qed.

(** *** The errors of GetTrajectories *)

Lemma GetTrajectories_loop_fails this fuel dt e :
  forall i a n trajectories,
    (i < n)%nat ->
    (forall j, (j < i)%nat ->
       exists trajectory,
         trajectory_of_iterate this fuel dt (a + j) = Ok trajectory) ->
    trajectory_of_iterate this fuel dt (a + i) = Err e ->
    GetTrajectories_loop this fuel dt n (Z.of_nat a) trajectories = Err e.
Proof.
  induction i as [|i IH]; intros a n trajectories Hi Hbefore Hfail;
    (destruct n as [|n]; [lia|]); rewrite GetTrajectories_loop_step.
  - rewrite Nat.add_0_r in Hfail. rewrite Hfail. reflexivity.
  - destruct (Hbefore 0%nat) as (trajectory & H0); [lia|].
    rewrite Nat.add_0_r in H0. rewrite H0.
    apply IH; [lia| |].
    + intros j Hj. destruct (Hbefore (S j)) as (tr & Htr); [lia|].
      exists tr. rewrite Nat.add_succ_r in Htr. exact Htr.
    + rewrite Nat.add_succ_r in Hfail. exact Hfail.
Qed.

(** X11.  [GetTrajectories] fails as soon as [BuildTrajectory] fails for
    an iterate: its error is the error of the first iterate that has no
    trajectory, the iterates after it are not looked at, and no trajectory
    of an iterate before it is returned. *)
Theorem GetTrajectories_first_failure this fuel dt i e :
  (i < Z.to_nat (GetIterationCount (nlp this)))%nat ->
  (forall j, (j < i)%nat ->
     exists trajectory, trajectory_of_iterate this fuel dt j = Ok trajectory) ->
  trajectory_of_iterate this fuel dt i = Err e ->
  GetTrajectories this fuel dt = Err e.
Proof.
  intros Hi Hbefore Hfail. unfold GetTrajectories.
  change 0%Z with (Z.of_nat 0).
  apply (@GetTrajectories_loop_fails this fuel dt e i); assumption.
Qed.

(** *** SolveProblem as a whole *)

Lemma fold_left_snoc {A B} (f : A -> B) l :
  forall acc, fold_left (fun cs x => cs ++ [f x]) l acc = acc ++ map f l.
Proof.
  induction l as [|x l IH]; intros acc; simpl.
  - rewrite app_nil_r. reflexivity.
  - rewrite IH, <- app_assoc. reflexivity.
Qed.

(** The problem the solver is given: initialised with the variables, then
    given the constraints, then the costs. *)
Definition problem_of (this : Facade) (variables : Variables) : NLP :=
  let initialised := set_nlp this (nlp_Init (nlp this) variables) in
  nlp_AddCost
    (nlp_AddConstraint
       (nlp_Init (nlp this) variables)
       ("constraints"%string, true,
        map (factory_GetConstraint initialised variables)
            (GetUsedConstraints (params_ this))))
    ("costs"%string, false,
     map (fun pair => factory_GetCost initialised variables
                                      (fst pair) (snd pair))
         (GetCostWeights (params_ this))).

Definition known (solver : NlpSolver) : bool :=
  match solver with
  | Ipopt | Snopt => true
  | OtherSolver _ => false
  end.

Lemma BuildCostConstraints_problem this variables :
  nlp (BuildCostConstraints (set_nlp this (nlp_Init (nlp this) variables))
                            variables)
  = problem_of this variables.
Proof.
  unfold BuildCostConstraints, problem_of. cbn [nlp set_nlp params_].
  rewrite !fold_left_snoc. reflexivity.
Qed.

(** X12.  When [SolveProblem] returns, the facade differs from the one it
    was called on in the problem only.  The problem the solver was given
    is the old one initialised with the composite of [BuildVariables],
    then given the composite [constraints] with one constraint per used
    name, in the order of the names, then the composite [costs] with one
    cost per weight, in the order of the weights.  With an unknown solver
    it returns only when the assertion is compiled away, and then that
    problem is left as it was set up: no solver has run. *)
Theorem SolveProblem_result this solver this' :
  SolveProblem this solver = Ok this' ->
  exists variables,
    BuildVariables this = Ok variables
    /\ (solver = Ipopt
        /\ this' = set_nlp this
                     (IpoptAdapter_Solve (problem_of this variables))
        \/ solver = Snopt
           /\ this' = set_nlp this
                        (SnoptAdapter_Solve (problem_of this variables))
        \/ known solver = false
           /\ NDEBUG = true
           /\ this' = set_nlp this (problem_of this variables)).
Proof.
  unfold SolveProblem. intros H.
  destruct (BuildVariables this) as [variables|e]; [|discriminate].
  exists variables. split; [reflexivity|].
  cbv zeta in H. rewrite <- BuildCostConstraints_problem.
  destruct solver; [left|right; left|right; right].
  - injection H as <-. split; reflexivity.
  - injection H as <-. split; reflexivity.
  - destruct NDEBUG; [|discriminate]. injection H as <-.
    repeat split.
Qed.

(** X13.  [SolveProblem] returns if and only if [BuildVariables] does and
    the run passes line 266: the solver is one of the two, or the
    assertion is compiled away by [NDEBUG].  Otherwise it fails with the
    error of [BuildVariables] if that fails, whatever the solver, and on
    the assertion if the variables were built, the solver is unknown and
    assertions are compiled in. *)
Theorem SolveProblem_succeeds_iff this solver :
  ((exists this', SolveProblem this solver = Ok this')
   <-> buildable this = true /\ known solver || NDEBUG = true)
  /\ (forall e,
        SolveProblem this solver = Err e ->
        e = if buildable this then AssertionFailed
            else if recognised (GetBaseRepresentation (params_ this))
                    || NDEBUG
                 then OutOfRange else AssertionFailed)
  /\ (forall e,
        SolveProblem this solver = Err e ->
        buildable this = true -> known solver = false /\ NDEBUG = false).
Proof.
  pose proof (BuildVariables_run this) as H. unfold SolveProblem.
  destruct (buildable this).
  - destruct H as (variables & ->). cbv zeta.
    destruct solver; simpl.
    + split; [|split; discriminate]. split; [auto|]. intros _.
      eexists. reflexivity.
    + split; [|split; discriminate]. split; [auto|]. intros _.
      eexists. reflexivity.
    + destruct NDEBUG.
      * split; [|split; discriminate]. split; [auto|]. intros _.
        eexists. reflexivity.
      * split; [|split].
        -- split; [intros (this' & H); discriminate|].
           intros (_ & H). discriminate.
        -- intros e H. injection H as <-. reflexivity.
        -- intros e _ _. split; reflexivity.
  - rewrite H. split; [|split].
    + split; [intros (this' & H'); discriminate|].
      intros (H' & _). discriminate.
    + intros e H'. injection H' as <-. reflexivity.
    + intros e _ H'. discriminate.
Qed.

(** *** BuildDefaultInitialState (lines 44 to 57) *)

Section DefaultState.
Context {NG : Negation double}.

(** What a default-constructed [Vector3d] holds is not specified. *)
Variable unset : Vector3d double.

(** [v.z()] *)
Definition z (v : Vector3d double) : double := nth 2 v d0.

(** Modelled from the spec: [SetCount(n)] of the containers indexed by
    limb (absent) makes the container hold [n] entries: it keeps the first
    entries it has and adds default-constructed ones. *)
Definition SetCount (c : list (Vector3d double)) (n : nat)
  : list (Vector3d double) :=
  firstn n c ++ repeat unset (n - List.length c).

(** [c.At(ee) = v] *)
Definition assign_At (ee : EndeffectorID) (v : Vector3d double)
  : M (list (Vector3d double)) unit :=
  fun c =>
    match at_ c ee with
    | Ok _ => Ok (tt, set_At c ee v)
    | Err e => Err e
    end.

(** [c.At(ee).z() = a] *)
Definition assign_z_At (ee : EndeffectorID) (a : double)
  : M (list (Vector3d double)) unit :=
  fun c =>
    match at_ c ee with
    | Ok v => Ok (tt, set_At c ee (set_At v 2 a))
    | Err e => Err e
    end.

(** [s.p_ << ...] *)
Definition set_p (s : StateLin3d double) (p : Vector3d double)
  : StateLin3d double :=
  {| p_ := p; v_ := v_ s; a_ := a_ s |}.

(** The body of the loop of lines 53 to 56. *)
Definition place_foot (p_nom_B : list (Vector3d double))
  (inital_base_lin_p : Vector3d double) (_ : unit) (ee : EndeffectorID)
  : M (list (Vector3d double)) unit :=
  nominal <- lift (at_ p_nom_B ee) ;;
  assign_At ee (vadd nominal inital_base_lin_p) ;;;
  assign_z_At ee d0.

(** The facade with the two members the function assigns. *)
Definition set_initial_state (this : Facade)
  (base : State3dEuler double) (feet : list (Vector3d double)) : Facade :=
  {| params_ := params_ this; model_ := model_ this;
     terrain_ := terrain_ this; inital_base_ := base;
     final_base_ := final_base_ this; initial_ee_W_ := feet;
     nlp := nlp this |}.

(** The loop runs over [initial_ee_W_.GetEEsOrdered()], the limbs of the
    container in order. *)
Definition BuildDefaultInitialState (this : Facade) : outcome Facade :=
  let p_nom_B := GetNominalStanceInBase (model_ this) in
  match at_ p_nom_B E0 with
  | Err e => Err e
  | Ok nominal =>
      let inital_base_ :=
        {| lin := set_p (lin (inital_base_ this))
                        [d0; d0; dopp (z nominal)];
           ang := set_p (ang (inital_base_ this))
                        [d0; d0; d0] (* euler (roll, pitch, yaw) *) |} in
      let initial_ee_W_ :=
        SetCount (initial_ee_W_ this) (GetEECount (model_ this)) in
      match for_each (seq 0 (List.length initial_ee_W_))
                     (place_foot p_nom_B (p_ (lin inital_base_))) tt
                     initial_ee_W_ with
      | Err e => Err e
      | Ok (_, initial_ee_W_) =>
          Ok (set_initial_state this inital_base_ initial_ee_W_)
      end
  end.

(** The base the function leaves: at the height that puts the nominal
    stance of limb [E0] on the ground, with no rotation. *)
Definition default_base (this : Facade) : State3dEuler double :=
  {| lin := set_p (lin (inital_base_ this))
                  [d0; d0;
                   dopp (z (nth E0 (GetNominalStanceInBase (model_ this))
                                []))];
     ang := set_p (ang (inital_base_ this)) [d0; d0; d0] |}.

(** The foot of a limb: its nominal stance moved by the position of the
    base, then put on the ground. *)
Definition foot (inital_base_lin_p nominal : Vector3d double)
  : Vector3d double :=
  set_At (vadd nominal inital_base_lin_p) 2 d0.

Lemma SetCount_length c n : List.length (SetCount c n) = n.
Proof.
  unfold SetCount. rewrite length_app, length_firstn, repeat_length. lia.
Qed.

Lemma set_At_twice {A} (v : list A) i a b :
  set_At (set_At v i a) i b = set_At v i b.
Proof.
  revert i. induction v as [|x v IH]; intros [|i]; simpl; auto.
  rewrite IH. reflexivity.
Qed.

Lemma place_foot_run p_nom_B p ee c :
  place_foot p_nom_B p tt ee c
  = if ((ee <? List.length p_nom_B)%nat && (ee <? List.length c)%nat)%bool
    then Ok (tt, set_At c ee (foot p (nth ee p_nom_B [])))
    else Err OutOfRange.
Proof.
  unfold place_foot, bind, lift, assign_At, assign_z_At.
  destruct (Nat.ltb_spec ee (List.length p_nom_B)) as [Hn|Hn]; cbn [andb].
  - rewrite at_Ok with (d := @nil double) by exact Hn.
    destruct (Nat.ltb_spec ee (List.length c)) as [Hc|Hc].
    + rewrite at_Ok with (d := @nil double) by exact Hc.
      unfold at_. rewrite nth_error_set_At_same by exact Hc.
      rewrite set_At_twice. reflexivity.
    + rewrite at_Err by exact Hc. reflexivity.
  - rewrite at_Err by exact Hn. reflexivity.
Qed.

Lemma place_feet_run p_nom_B p :
  forall m a c,
    List.length c = (a + m)%nat ->
    if ((m =? 0)%nat || (a + m <=? List.length p_nom_B)%nat)%bool
    then exists c',
           for_each (seq a m) (place_foot p_nom_B p) tt c = Ok (tt, c')
           /\ List.length c' = List.length c
           /\ (forall ee, (ee < a)%nat -> nth_error c' ee = nth_error c ee)
           /\ (forall ee, (a <= ee < a + m)%nat ->
                 nth_error c' ee = Some (foot p (nth ee p_nom_B [])))
    else for_each (seq a m) (place_foot p_nom_B p) tt c = Err OutOfRange.
Proof.
  induction m as [|m IH]; intros a c Hlen.
  - simpl. exists c. repeat split; auto. intros ee Hee. lia.
  - cbn [for_each seq Nat.eqb orb]. unfold bind.
    rewrite place_foot_run.
    specialize (IH (S a) (set_At c a (foot p (nth a p_nom_B [])))).
    rewrite set_At_length in IH.
    specialize (IH (eq_trans Hlen (Nat.add_succ_r a m))).
    replace (S a + m)%nat with (a + S m)%nat in IH by lia.
    destruct (Nat.ltb_spec a (List.length c)) as [Hc|Hc];
      [|rewrite Hlen in Hc; lia].
    destruct (Nat.leb_spec (a + S m) (List.length p_nom_B)) as [Hall|Hall].
    + destruct (Nat.ltb_spec a (List.length p_nom_B)) as [Hn|Hn]; [|lia].
      cbn [andb]. rewrite Bool.orb_true_r in IH.
      destruct IH as (c' & -> & Hl & Hbelow & Hfeet).
      exists c'. split; [reflexivity|]. split; [exact Hl|]. split.
      * intros ee Hee. rewrite Hbelow by lia.
        apply nth_error_set_At_other. lia.
      * intros ee Hee. destruct (Nat.eq_dec ee a) as [->|Hne].
        -- rewrite Hbelow by lia. apply nth_error_set_At_same. exact Hc.
        -- apply Hfeet. lia.
    + destruct (Nat.ltb_spec a (List.length p_nom_B)) as [Hn|Hn];
        cbn [andb]; [|reflexivity].
      destruct (Nat.eqb_spec m 0) as [Hm|Hm]; [lia|].
      cbn [orb] in IH. exact IH.
Qed.

Lemma BuildDefaultInitialState_run (this : Facade) :
  if ((1 <=? List.length (GetNominalStanceInBase (model_ this)))%nat
      && (GetEECount (model_ this)
          <=? List.length (GetNominalStanceInBase (model_ this)))%nat)%bool
  then BuildDefaultInitialState this
       = Ok (set_initial_state this (default_base this)
               (map (foot (p_ (lin (default_base this))))
                    (firstn (GetEECount (model_ this))
                            (GetNominalStanceInBase (model_ this)))))
  else BuildDefaultInitialState this = Err OutOfRange.
Proof.
  unfold BuildDefaultInitialState.
  destruct (Nat.leb_spec 1 (List.length
                              (GetNominalStanceInBase (model_ this))))
    as [H0|H0]; cbn [andb].
  - rewrite at_Ok with (d := @nil double) by exact H0.
    cbv zeta.
    change (Build_State3dEuler (set_p _ _) (set_p _ _))
      with (default_base this).
    rewrite SetCount_length.
    pose proof (@place_feet_run (GetNominalStanceInBase (model_ this))
                  (p_ (lin (default_base this))) (GetEECount (model_ this)) 0
                  (SetCount (initial_ee_W_ this) (GetEECount (model_ this)))
                  (SetCount_length _ _)) as Hrun.
    cbn [Nat.add] in Hrun.
    destruct (Nat.leb_spec (GetEECount (model_ this))
                (List.length (GetNominalStanceInBase (model_ this))))
      as [Hn|Hn].
    + rewrite Bool.orb_true_r in Hrun.
      destruct Hrun as (c' & E & Hl & _ & Hfeet).
      rewrite E. do 2 f_equal.
      apply nth_error_ext. intros ee.
      rewrite nth_error_map, nth_error_firstn.
      rewrite SetCount_length in Hl.
      destruct (Nat.ltb_spec ee (GetEECount (model_ this))) as [Hee|Hee].
      * rewrite Hfeet by (split; [apply Nat.le_0_l|exact Hee]).
        rewrite (nth_error_nth' (GetNominalStanceInBase (model_ this)) []
                   (Nat.lt_le_trans _ _ _ Hee Hn)).
        reflexivity.
      * apply nth_error_None. rewrite Hl. exact Hee.
    + destruct (Nat.eqb_spec (GetEECount (model_ this)) 0) as [Hz|Hz];
        [rewrite Hz in Hn; inversion Hn|].
      cbn [orb] in Hrun. rewrite Hrun. reflexivity.
  - rewrite at_Err by (apply Nat.lt_succ_r; exact H0). reflexivity.
Qed.

(** X14.  [BuildDefaultInitialState] returns if and only if the nominal
    stance of the model holds limb [E0] and every limb the model counts;
    otherwise it ends with an index out of range.  The stance of limb
    [E0] is read also when the model counts no limb. *)
Theorem BuildDefaultInitialState_succeeds_iff (this : Facade) :
  ((exists this', BuildDefaultInitialState this = Ok this')
   <-> (1 <= List.length (GetNominalStanceInBase (model_ this)))%nat
       /\ (GetEECount (model_ this)
           <= List.length (GetNominalStanceInBase (model_ this)))%nat)
  /\ (forall e, BuildDefaultInitialState this = Err e -> e = OutOfRange).
Proof.
  pose proof (BuildDefaultInitialState_run this) as H.
  destruct (Nat.leb_spec 1 (List.length
                              (GetNominalStanceInBase (model_ this))))
    as [H0|H0];
    destruct (Nat.leb_spec (GetEECount (model_ this))
                (List.length (GetNominalStanceInBase (model_ this))))
      as [Hn|Hn];
    cbn [andb] in H; rewrite H; (split; [split|]);
    try (intros e He; congruence);
    try (intros (this' & H'); discriminate);
    try (intros _; eauto; fail).
  - intros (H1 & H2). exfalso. apply (Nat.lt_irrefl _ (Nat.lt_le_trans _ _ _ Hn H2)).
  - intros (H1 & H2). exfalso. apply (Nat.lt_irrefl _ (Nat.lt_le_trans _ _ _ H0 H1)).
  - intros (H1 & H2). exfalso. apply (Nat.lt_irrefl _ (Nat.lt_le_trans _ _ _ H0 H1)).
Qed.

Lemma foot_of_3d (b x y h : double) :
  foot [d0; d0; b] [x; y; h] = [dadd x d0; dadd y d0; d0].
Proof. reflexivity. Qed.

(** X15.  When [BuildDefaultInitialState] returns, the facade holds one
    initial foot position per limb the model counts: the x and the y of
    the nominal stance of the limb, each with 0.0 added, and the height
    0.0.  The position of the initial base is 0.0, 0.0 and minus the
    height of the nominal stance of limb [E0], its Euler angles are 0.0;
    velocities, accelerations and the other members are as they were.
    What the container of the feet held before has no part in it. *)
Theorem BuildDefaultInitialState_result (this this' : Facade) :
  BuildDefaultInitialState this = Ok this' ->
  List.length (initial_ee_W_ this') = GetEECount (model_ this)
  /\ (forall ee x y h,
        (ee < GetEECount (model_ this))%nat ->
        nth_error (GetNominalStanceInBase (model_ this)) ee = Some [x; y; h] ->
        nth_error (initial_ee_W_ this') ee
        = Some [dadd x d0; dadd y d0; d0])
  /\ p_ (lin (inital_base_ this'))
     = [d0; d0;
        dopp (z (nth E0 (GetNominalStanceInBase (model_ this)) []))]
  /\ p_ (ang (inital_base_ this')) = [d0; d0; d0]
  /\ v_ (lin (inital_base_ this')) = v_ (lin (inital_base_ this))
  /\ a_ (lin (inital_base_ this')) = a_ (lin (inital_base_ this))
  /\ v_ (ang (inital_base_ this')) = v_ (ang (inital_base_ this))
  /\ a_ (ang (inital_base_ this')) = a_ (ang (inital_base_ this))
  /\ params_ this' = params_ this
  /\ model_ this' = model_ this
  /\ terrain_ this' = terrain_ this
  /\ final_base_ this' = final_base_ this
  /\ nlp this' = nlp this.
Proof.
  intros H. pose proof (BuildDefaultInitialState_run this) as Hrun.
  destruct (Nat.leb_spec 1 (List.length
                              (GetNominalStanceInBase (model_ this))))
    as [H0|H0];
    destruct (Nat.leb_spec (GetEECount (model_ this))
                (List.length (GetNominalStanceInBase (model_ this))))
      as [Hn|Hn];
    cbn [andb] in Hrun; rewrite Hrun in H; try discriminate.
  injection H as <-. cbn [set_initial_state initial_ee_W_ inital_base_
                          params_ model_ terrain_ final_base_ nlp].
  split; [rewrite length_map; apply firstn_length_le; exact Hn|].
  split; [|repeat split].
  intros ee x y h Hee Hnom.
  rewrite nth_error_map, nth_error_firstn.
  apply Nat.ltb_lt in Hee. rewrite Hee, Hnom. reflexivity.
Qed.

(** X16.  The default initial state is one [BuildVariables] accepts: for
    a model whose identifiers are [E0 .. E(n-1)], [n] being the number
    of limbs it counts, with contact timings for each and a recognised
    base representation, [BuildVariables] returns a composite after
    [BuildDefaultInitialState], and the xy motion of a limb starts, in X
    and Y, at the nominal stance of the limb, on the ground. *)
Theorem default_state_is_buildable (this this' : Facade) :
  BuildDefaultInitialState this = Ok this' ->
  GetEEIDs (model_ this) = seq 0 (GetEECount (model_ this)) ->
  (GetEECount (model_ this)
   <= List.length (contact_timings_ (params_ this)))%nat ->
  recognised (GetBaseRepresentation (params_ this)) = true ->
  exists vars,
    BuildVariables this' = Ok vars
    /\ forall ee x y h,
         (ee < GetEECount (model_ this))%nat ->
         nth_error (GetNominalStanceInBase (model_ this)) ee
         = Some [x; y; h] ->
         bounds_of vars (id.GetEEXYMotionId ee)
         = Some [bound StartNode kPos [Coords3D.X; Coords3D.Y]
                       [dadd x d0; dadd y d0; d0]].
Proof.
  intros H Hids Htimings Hrep.
  pose proof (BuildDefaultInitialState_run this) as Hrun.
  destruct (Nat.leb_spec 1 (List.length
                              (GetNominalStanceInBase (model_ this))))
    as [H0|H0];
    destruct (Nat.leb_spec (GetEECount (model_ this))
                (List.length (GetNominalStanceInBase (model_ this))))
      as [Hn|Hn];
    cbn [andb] in Hrun; rewrite Hrun in H; try discriminate.
  injection H as <-.
  set (this' := set_initial_state this (default_base this) _).
  assert (Hwf : well_formed this' (GetEECount (model_ this))).
  { unfold well_formed, this'.
    cbn [set_initial_state initial_ee_W_ params_ model_].
    split; [exact Hids|]. split; [exact Htimings|]. split; [exact Hn|].
    split.
    - rewrite length_map, firstn_length_le by exact Hn. apply Nat.le_refl.
    - destruct (GetBaseRepresentation (params_ this)); auto; discriminate. }
  eexists. split; [apply BuildVariables_holds; exact Hwf|].
  intros ee x y h Hee Hnom.
  rewrite (proj1 (built_bounds this' Hee)).
  unfold this'. cbn [set_initial_state initial_ee_W_].
  assert (Hfoot : nth_error
                    (map (foot (p_ (lin (default_base this))))
                         (firstn (GetEECount (model_ this))
                                 (GetNominalStanceInBase (model_ this)))) ee
                  = Some [dadd x d0; dadd y d0; d0]).
  { rewrite nth_error_map, nth_error_firstn.
    apply Nat.ltb_lt in Hee. rewrite Hee, Hnom. reflexivity. }
  unfold bound. repeat f_equal. exact (nth_error_nth _ _ _ Hfoot).
Qed.

End DefaultState.

(** *** No two blocks under one name *)

Definition names (es : list (Entry double)) : list id.Id :=
  map (fun e => GetName (entry_component e)) es.

Lemma NoDup_flat_map_seq {A} (g : nat -> list A) :
  (forall i, NoDup (g i)) ->
  (forall i j x, In x (g i) -> In x (g j) -> i = j) ->
  forall m a, NoDup (flat_map g (seq a m)).
Proof.
  intros Hg Hdisjoint. induction m as [|m IH]; intros a; simpl.
  - constructor.
  - apply NoDup_app; [apply Hg|apply IH|].
    intros x Hx Hin. apply in_flat_map in Hin.
    destruct Hin as (j & Hj & Hxj). apply in_seq in Hj.
    pose proof (Hdisjoint a j x Hx Hxj). lia.
Qed.

Lemma names_flat_map {A} (g : A -> list (Entry double)) l :
  names (flat_map g l) = flat_map (fun x => names (g x)) l.
Proof.
  unfold names. induction l as [|x l IH]; simpl; [reflexivity|].
  rewrite map_app, IH. reflexivity.
Qed.

Lemma names_base_blocks es name :
  Forall (fun e => base_block e = true) es ->
  In name (names es) -> is_base_name name = true.
Proof.
  intros Hes Hin. apply in_map_iff in Hin. destruct Hin as (e & <- & He).
  rewrite Forall_forall in Hes. specialize (Hes e He).
  unfold base_block in Hes. apply andb_true_iff in Hes. apply Hes.
Qed.

Lemma names_coeff_entries this name initial final :
  names (coeff_entries this name initial final)
  = map (id.indexed name)
        (seq 0 (List.length (GetBasePolyDurations (params_ this))))
    ++ [name].
Proof.
  unfold names, coeff_entries. rewrite map_app, map_map. reflexivity.
Qed.

Lemma NoDup_names_coeff_entries this name initial final :
  (forall i, name <> id.indexed name i) ->
  NoDup (names (coeff_entries this name initial final)).
Proof.
  intros Hname. rewrite names_coeff_entries. apply NoDup_app.
  - rewrite map_as_flat_map. apply NoDup_flat_map_seq.
    + intros i. repeat constructor. intros [].
    + intros i j x [<-|[]] [H|[]]. injection H. auto.
  - repeat constructor. intros [].
  - intros x Hx [<-|[]]. apply in_map_iff in Hx.
    destruct Hx as (i & Hi & _). exact (Hname i (eq_sym Hi)).
Qed.

Lemma NoDup_names_base this :
  NoDup (names (base_entries this)).
Proof.
  unfold base_entries. destruct (GetBaseRepresentation (params_ this)).
  - constructor; [intros [H|[]]; discriminate|].
    constructor; [intros []|constructor].
  - unfold coeff_base, names. rewrite map_app. apply NoDup_app.
    + apply NoDup_names_coeff_entries. intros i. discriminate.
    + apply NoDup_names_coeff_entries. intros i. discriminate.
    + intros x Hx Hx'.
      change (In x (names (coeff_entries this id.base_angular
                             (p_ (ang (inital_base_ this)))
                             (p_ (ang (final_base_ this)))))) in Hx.
      change (In x (names (coeff_entries this id.base_linear
                             (p_ (lin (inital_base_ this)))
                             (p_ (lin (final_base_ this)))))) in Hx'.
      rewrite names_coeff_entries in Hx, Hx'.
      apply in_app_or in Hx. apply in_app_or in Hx'.
      destruct Hx as [Hx|[<-|[]]]; destruct Hx' as [Hx'|[Hx'|[]]];
        try (apply in_map_iff in Hx; destruct Hx as (i & <- & _));
        try (apply in_map_iff in Hx'; destruct Hx' as (j & Hj & _));
        discriminate.
  - constructor.
Qed.

Lemma NoDup_names_limbs this n :
  NoDup (names (limb_entries this n)).
Proof.
  unfold limb_entries. rewrite schedule_entries_as_flat_map.
  rewrite (map_as_flat_map (force_entry this)).
  unfold names. rewrite !map_app. fold (names (flat_map
    (fun ee => [entry (CContactSchedule
                         (with_observers (schedule_of this ee)
                                         (limb_observers ee)))
                      (ConstraintExists (params_ this) TotalTime)])
    (seq 0 n))).
  fold (names (flat_map (motion_entries this) (seq 0 n))).
  fold (names (flat_map (fun x => [force_entry this x]) (seq 0 n))).
  rewrite !names_flat_map.
  apply NoDup_app; [|apply NoDup_app|].
  - apply NoDup_flat_map_seq.
    + intros i. repeat constructor. intros [].
    + intros i j x [<-|[]] [H|[]]. injection H. auto.
  - apply NoDup_flat_map_seq.
    + intros i. constructor; [intros [H|[]]; discriminate|].
      constructor; [intros []|constructor].
    + intros i j x [<-|[<-|[]]] [H|[H|[]]];
        try discriminate; injection H; auto.
  - apply NoDup_flat_map_seq.
    + intros i. repeat constructor. intros [].
    + intros i j x [<-|[]] [H|[]]. injection H. auto.
  - intros x Hx Hx'. apply in_flat_map in Hx, Hx'.
    destruct Hx as (i & _ & [<-|[<-|[]]]);
      destruct Hx' as (j & _ & [H|[]]); discriminate.
  - intros x Hx Hx'. apply in_flat_map in Hx.
    destruct Hx as (i & _ & [<-|[]]).
    apply in_app_or in Hx'. destruct Hx' as [Hx'|Hx'];
      apply in_flat_map in Hx'.
    + destruct Hx' as (j & _ & [H|[H|[]]]); discriminate.
    + destruct Hx' as (j & _ & [H|[]]); discriminate.
Qed.

Lemma length_limb_entries this n :
  List.length (limb_entries this n) = (4 * n)%nat.
Proof.
  unfold limb_entries, schedule_entries.
  rewrite !length_app, !length_map, length_seq.
  assert (H : forall m a,
             List.length (flat_map (motion_entries this) (seq a m))
             = (2 * m)%nat).
  { induction m as [|m IH]; intros a; simpl; [reflexivity|].
    rewrite IH. lia. }
  rewrite H. lia.
Qed.

Lemma length_base_entries this :
  List.length (base_entries this)
  = match GetBaseRepresentation (params_ this) with
    | CubicHermite => 2%nat
    | PolyCoeff =>
        (2 * (List.length (GetBasePolyDurations (params_ this)) + 1))%nat
    | OtherRepresentation _ => 0%nat
    end.
Proof.
  unfold base_entries. destruct (GetBaseRepresentation (params_ this));
    [reflexivity| |reflexivity].
  unfold coeff_base, coeff_entries.
  rewrite !length_app, !length_map, length_seq. simpl. lia.
Qed.

(** X19.  The composite [BuildVariables] returns holds no two blocks under
    one name, and it holds four blocks per limb beside the blocks of the
    base: two with the Hermite representation, and one per base duration
    and one more for each of the two splines with the polynomial one. *)
Theorem BuildVariables_names_distinct this n :
  well_formed this n ->
  exists vars,
    BuildVariables this = Ok vars
    /\ NoDup (names (components vars))
    /\ List.length (components vars)
       = (match GetBaseRepresentation (params_ this) with
          | CubicHermite => 2
          | PolyCoeff =>
              2 * (List.length (GetBasePolyDurations (params_ this)) + 1)
          | OtherRepresentation _ => 0
          end + 4 * n)%nat.
Proof.
  intros Hwf. eexists.
  split; [apply BuildVariables_holds; exact Hwf|].
  cbn [components nlp_variables]. split.
  - unfold names. rewrite map_app. apply NoDup_app.
    + apply NoDup_names_base.
    + apply NoDup_names_limbs.
    + intros x Hx Hx'.
      pose proof (@names_base_blocks _ x (base_entries_blocks this) Hx)
        as Hb.
      unfold limb_entries in Hx'. rewrite !map_app in Hx'.
      apply in_app_or in Hx'. destruct Hx' as [H|H];
        [|apply in_app_or in H; destruct H as [H|H]];
        apply in_map_iff in H; destruct H as (e & <- & He).
      * apply in_map_iff in He. destruct He as (ee & <- & _). discriminate.
      * apply in_flat_map in He.
        destruct He as (ee & _ & [<-|[<-|[]]]); discriminate.
      * apply in_map_iff in He. destruct He as (ee & <- & _). discriminate.
  - rewrite length_app, length_base_entries, length_limb_entries.
    reflexivity.
Qed.

(** *** A limb the model names twice *)





End Facade.

(** ** A biped to run the facade on

    Sample implementations of the methods of the absent classes, and a
    facade with two limbs.  They serve to run the definitions on concrete
    inputs; the theorems above hold for every implementation. *)

Section Biped.
Context {double : Type} {SC : Scalar double}.

(** The total time of a schedule: the sum of its durations. *)
Definition sum_of_durations (s : ContactSchedule double) : double :=
  fold_left dadd (schedule_timings s) d0.

(** A schedule that is in contact up to its total time. *)
Definition contact_until_end (s : ContactSchedule double) (t : double)
  : bool :=
  dleb t (sum_of_durations s).

(** A spline whose position is the time it is asked for. *)
Definition clock (c : Component double) (t : double) : StateLinXd double :=
  {| p_ := [t; t; t]; v_ := [d0; d0; d0]; a_ := [d0; d0; d0] |}.

Definition euler (s : StateLinXd double) : StateLinXd double := s.

Definition alternating (s : ContactSchedule double) : ContactVector :=
  map Nat.even (seq 0 (List.length (schedule_timings s))).

Definition durations (s : ContactSchedule double) : list double :=
  schedule_timings s.

Definition end_points (n : NodeValues double) (a b : VectorXd double)
  (timings : list double) : VectorXd double :=
  a ++ b.

Definition no_coefficients (p : Polynomial) : VectorXd double := [].

Definition end_point_coefficients (timings : list double) (i : nat)
  (p : Polynomial) (a b : VectorXd double) : VectorXd double :=
  a ++ b.

Definition at_rest : StateLinXd double :=
  {| p_ := [d0; d0; d0]; v_ := [d0; d0; d0]; a_ := [d0; d0; d0] |}.

Definition biped_parameters (representation : BaseRepresentation)
  (timings : list (list double)) (optimize_timings : bool)
  : OptimizationParameters double :=
  {| GetBaseRepresentation := representation;
     GetBasePolyDurations := [d0; d0];
     order_coeff_polys_ := 4;
     contact_timings_ := timings;
     min_phase_duration_ := d0;
     max_phase_duration_ := d0;
     force_splines_per_stance_phase_ := 3;
     ConstraintExists :=
       fun c => match c with
                | TotalTime => optimize_timings
                | OtherConstraint _ => false
                end;
     GetUsedConstraints := if optimize_timings then [TotalTime] else [];
     GetCostWeights := [] |}.

Definition biped_model : RobotModel double :=
  {| GetEECount := 2;
     GetEEIDs := [0%nat; 1%nat];
     GetNominalStanceInBase := [[d0; d0; d0]; [d0; d0; d0]];
     GetForceLimit := d0;
     GetStandingZForce := d0 |}.

(** The solver of the sample keeps the composites of its iterates. *)
Definition biped (representation : BaseRepresentation)
  (timings : list (list double)) (optimize_timings : bool)
  (iterates : list (Composite double))
  : MotionOptimizerFacade double unit (list (Composite double)) :=
  {| params_ := biped_parameters representation timings optimize_timings;
     model_ := biped_model;
     terrain_ := tt;
     inital_base_ := {| lin := at_rest; ang := at_rest |};
     final_base_ := {| lin := at_rest; ang := at_rest |};
     initial_ee_W_ := [[d0; d0; d0]; [d0; d0; d0]];
     nlp := iterates |}.

Definition empty_composite : Composite double :=
  {| composite_name := "nlp_variables"; composite_flag := true;
     components := [] |}.

Definition iteration_count (iterates : list (Composite double)) : Z :=
  Z.of_nat (List.length iterates).

Definition iterate (iterates : list (Composite double)) (i : Z)
  : Composite double :=
  nth (Z.to_nat i) iterates empty_composite.

(** [BuildVariables] and [BuildTrajectory] with the sample methods;
    [biped_variables] is the build with assertions compiled in,
    [release_variables] the one with [NDEBUG]. *)
Definition biped_variables (this : MotionOptimizerFacade double unit
                                     (list (Composite double)))
  : outcome (Composite double) :=
  BuildVariables alternating durations end_points no_coefficients
                 end_point_coefficients false this.

Definition release_variables (this : MotionOptimizerFacade double unit
                                       (list (Composite double)))
  : outcome (Composite double) :=
  BuildVariables alternating durations end_points no_coefficients
                 end_point_coefficients true this.

Definition biped_trajectory (this : MotionOptimizerFacade double unit
                                      (list (Composite double)))
  (fuel : nat) (dt : double)
  : M (Composite double)
      (list (RobotStateCartesian double (StateLinXd double))) :=
  BuildTrajectory euler sum_of_durations contact_until_end clock this fuel dt.

(** The composite of the biped, or an empty one. *)
Definition biped_composite (this : MotionOptimizerFacade double unit
                                     (list (Composite double)))
  : Composite double :=
  match biped_variables this with
  | Ok vars => vars
  | Err _ => empty_composite
  end.

End Biped.

(** The biped on binary64, with schedules of total time 1.0. *)
Definition biped64 : MotionOptimizerFacade float unit (list (Composite float)) :=
  biped CubicHermite
        [[0.5; 0.25; 0.25]; [0.25; 0.5; 0.25]]%float true [].

Definition vars64 : Composite float := biped_composite biped64.

(** ** Addition and order on binary64

    What the loop of [BuildTrajectory] needs of the arithmetic: adding a
    positive step never gives an earlier time, adding a step that is not
    positive never gives a positive time, and the order is transitive.
    The facts are proved of the specification of binary64 that Rocq's
    primitive floats obey ([SpecFloat], [FloatAxioms]). *)

Module Binary64.

Local Open Scope Z_scope.

(** Zero, a positive number or plus infinity. *)
Definition not_negative (f : spec_float) : bool :=
  match f with
  | S754_zero _ | S754_finite false _ _ | S754_infinity false => true
  | _ => false
  end.

(** A positive number or plus infinity. *)
Definition above_zero (f : spec_float) : bool :=
  match f with
  | S754_finite false _ _ | S754_infinity false => true
  | _ => false
  end.

(** Zero, a negative number or minus infinity. *)
Definition not_positive (f : spec_float) : bool :=
  match f with
  | S754_zero _ | S754_finite true _ _ | S754_infinity true => true
  | _ => false
  end.

Lemma digits2_size m : digits2_pos m = Pos.size m.
Proof. induction m as [m IH|m IH|]; simpl; rewrite ?IH; reflexivity. Qed.

Lemma digits2_bounds m :
  2 ^ (Zpos (digits2_pos m) - 1) <= Zpos m < 2 ^ Zpos (digits2_pos m).
Proof.
  rewrite digits2_size. split.
  - pose proof (Pos.size_le m) as H.
    assert (H' : 2 ^ Zpos (Pos.size m) <= 2 * Zpos m).
    { change (2 * Zpos m) with (Zpos m~0).
      rewrite <- Pos2Z.inj_pow. apply Pos2Z.pos_le_pos. exact H. }
    replace (Zpos (Pos.size m)) with (Z.succ (Zpos (Pos.size m) - 1)) in H'
      by lia.
    rewrite Z.pow_succ_r in H' by lia. lia.
  - pose proof (Pos.size_gt m) as H.
    rewrite <- Pos2Z.inj_pow. apply Pos2Z.pos_lt_pos. exact H.
Qed.

Lemma shr_1_m mrs :
  0 <= shr_m mrs -> shr_m (shr_1 mrs) = shr_m mrs / 2.
Proof.
  destruct mrs as [m r s]. simpl. intros Hm.
  destruct m as [|[p|p|]|p]; simpl; try lia.
  - reflexivity.
  - apply Z.div_unique with (r := 1); lia.
  - apply Z.div_unique with (r := 0); lia.
  - reflexivity.
Qed.

Lemma iter_shr_1_m n :
  forall mrs,
    0 <= shr_m mrs ->
    shr_m (iter_pos shr_1 n mrs) = shr_m mrs / 2 ^ Zpos n.
Proof.
  assert (Hnonneg : forall mrs, 0 <= shr_m mrs -> 0 <= shr_m (shr_1 mrs)).
  { intros mrs H. rewrite shr_1_m by exact H. apply Z.div_pos; lia. }
  induction n as [n IH|n IH|]; intros mrs Hm; cbn [iter_pos].
  - assert (H1 : 0 <= shr_m (shr_1 mrs)) by auto.
    assert (H2 : 0 <= shr_m (iter_pos shr_1 n (shr_1 mrs))).
    { rewrite IH by exact H1. apply Z.div_pos; [exact H1|].
      apply Z.pow_pos_nonneg; lia. }
    rewrite IH by exact H2. rewrite IH by exact H1.
    rewrite shr_1_m by exact Hm.
    rewrite !Z.div_div by (try apply Z.pow_pos_nonneg; lia).
    f_equal.
    replace (Zpos n~1) with (1 + Zpos n + Zpos n) by lia.
    rewrite !Z.pow_add_r by lia. lia.
  - assert (H2 : 0 <= shr_m (iter_pos shr_1 n mrs)).
    { rewrite IH by exact Hm. apply Z.div_pos; [exact Hm|].
      apply Z.pow_pos_nonneg; lia. }
    rewrite IH by exact H2. rewrite IH by exact Hm.
    rewrite !Z.div_div by (try apply Z.pow_pos_nonneg; lia).
    f_equal.
    replace (Zpos n~0) with (Zpos n + Zpos n) by lia.
    rewrite !Z.pow_add_r by lia. lia.
  - rewrite shr_1_m by exact Hm. reflexivity.
Qed.

Lemma shr_record_of_loc_m m l : shr_m (shr_record_of_loc m l) = m.
Proof. destruct l as [|[]]; reflexivity. Qed.

Section Format.
Variables prec emax : Z.
Hypothesis Hprec : 0 < prec.

Let emin := SpecFloat.emin prec emax.
Let fexp := SpecFloat.fexp prec emax.

Lemma fexp_ge_emin e : emin <= fexp e.
Proof. unfold fexp, SpecFloat.fexp. apply Z.le_max_r. Qed.

Lemma fexp_mono e e' : e <= e' -> fexp e <= fexp e'.
Proof. unfold fexp, SpecFloat.fexp. lia. Qed.

(** What a shift to the exponent of the format leaves of a positive
    mantissa. *)
Lemma shr_fexp_spec m e l :
  0 < m -> emin <= e ->
  exists mrs e',
    shr_fexp prec emax m e l = (mrs, e')
    /\ e' = Z.max e (fexp (Zdigits2 m + e))
    /\ shr_m mrs = m / 2 ^ (e' - e)
    /\ 1 <= shr_m mrs.
Proof.
  intros Hm He. unfold shr_fexp, shr.
  fold (fexp (Zdigits2 m + e)).
  destruct (fexp (Zdigits2 m + e) - e) as [|n|n] eqn:En.
  - eexists _, _. split; [reflexivity|].
    rewrite shr_record_of_loc_m.
    replace (Z.max e (fexp (Zdigits2 m + e))) with e by lia.
    rewrite Z.sub_diag, Z.div_1_r. repeat split; lia.
  - eexists _, _. split; [reflexivity|].
    replace (Z.max e (fexp (Zdigits2 m + e))) with (e + Zpos n) by lia.
    split; [reflexivity|].
    rewrite iter_shr_1_m by (rewrite shr_record_of_loc_m; lia).
    rewrite shr_record_of_loc_m.
    replace (e + Zpos n - e) with (Zpos n) by lia.
    split; [reflexivity|].
    apply Z.div_le_lower_bound; [apply Z.pow_pos_nonneg; lia|].
    rewrite Z.mul_1_r.
    destruct m as [|p|p]; try lia. cbn [Zdigits2] in En.
    pose proof (digits2_bounds p) as (Hlow & _).
    assert (Hn : Zpos n <= Zpos (digits2_pos p) - 1).
    { unfold fexp, SpecFloat.fexp in En. unfold emin in He. lia. }
    apply Z.le_trans with (2 ^ (Zpos (digits2_pos p) - 1)); [|exact Hlow].
    apply Z.pow_le_mono_r; lia.
  - eexists _, _. split; [reflexivity|].
    rewrite shr_record_of_loc_m.
    replace (Z.max e (fexp (Zdigits2 m + e))) with e by lia.
    rewrite Z.sub_diag, Z.div_1_r. repeat split; lia.
Qed.

Lemma round_nearest_even_bounds m l :
  m <= round_nearest_even m l <= m + 1.
Proof.
  destruct l as [|[]]; simpl; try lia. destruct (Z.even m); lia.
Qed.

(** Rounding a positive mantissa gives a float of the sign it is given,
    no NaN and no zero; its exponent is no less than the one the format
    asks for, and with that very exponent its mantissa is no less than
    what the shift left of the mantissa. *)
Lemma binary_round_aux_positive sx m e l :
  0 < m -> emin <= e ->
  binary_round_aux prec emax sx m e l = S754_infinity sx
  \/ exists mr er,
       binary_round_aux prec emax sx m e l = S754_finite sx mr er
       /\ Z.max e (fexp (Zdigits2 m + e)) <= er
       /\ (er = Z.max e (fexp (Zdigits2 m + e)) ->
           m / 2 ^ (er - e) <= Zpos mr).
Proof.
  intros Hm He. unfold binary_round_aux.
  destruct (shr_fexp_spec l Hm He) as (mrs1 & e1 & -> & He1 & Hm1 & Hpos1).
  set (m2 := round_nearest_even (shr_m mrs1) (loc_of_shr_record mrs1)).
  pose proof (round_nearest_even_bounds (shr_m mrs1)
                (loc_of_shr_record mrs1)) as Hround.
  fold m2 in Hround.
  assert (Hm2 : 0 < m2) by lia.
  assert (He1' : emin <= e1) by lia.
  destruct (shr_fexp_spec loc_Exact Hm2 He1')
    as (mrs2 & e2 & -> & He2 & Hm3 & Hpos3).
  destruct (shr_m mrs2) as [|mr|mr] eqn:Emr; try lia.
  destruct (Z.leb e2 (emax - prec)); [|left; reflexivity].
  right. exists mr, e2. split; [reflexivity|].
  split; [lia|].
  intros Heq. assert (E21 : e2 = e1) by lia.
  rewrite E21, Z.sub_diag, Z.div_1_r in Hm3.
  rewrite E21, <- Hm1. lia.
Qed.

Lemma shl_align_fst mx ex ez :
  ez <= ex ->
  Zpos (fst (shl_align mx ex ez)) = Zpos mx * 2 ^ (ex - ez).
Proof.
  intros H. unfold shl_align.
  destruct (ez - ex) as [|d|d] eqn:Ed; try lia.
  - replace (ex - ez) with 0 by lia. simpl. lia.
  - cbn [fst]. replace (ex - ez) with (Zpos d) by lia.
    clear. induction d as [|d IH] using Pos.peano_ind.
    + simpl. lia.
    + rewrite Pos.iter_succ, Pos2Z.inj_xO, IH, Pos2Z.inj_succ,
        Z.pow_succ_r by lia.
      ring.
Qed.

(** The sum of a positive float of the format and a positive float is
    plus infinity or a positive float that is no less than the first. *)
Lemma SFadd_positive mx ex my ey :
  SpecFloat.bounded prec emax mx ex = true ->
  SpecFloat.bounded prec emax my ey = true ->
  SFadd prec emax (S754_finite false mx ex) (S754_finite false my ey)
  = S754_infinity false
  \/ exists mr er,
       SFadd prec emax (S754_finite false mx ex) (S754_finite false my ey)
       = S754_finite false mr er
       /\ (ex < er \/ er = ex /\ (mx <= mr)%positive).
Proof.
  intros Hb Hb'. unfold SpecFloat.bounded, canonical_mantissa in Hb, Hb'.
  apply andb_prop in Hb, Hb'. destruct Hb as (Hc & _), Hb' as (Hc' & _).
  apply Z.eqb_eq in Hc, Hc'.
  fold (fexp (Zpos (digits2_pos mx) + ex)) in Hc.
  fold (fexp (Zpos (digits2_pos my) + ey)) in Hc'.
  assert (Hex : emin <= ex) by (rewrite <- Hc; apply fexp_ge_emin).
  assert (Hey : emin <= ey) by (rewrite <- Hc'; apply fexp_ge_emin).
  unfold SFadd. cbv zeta. unfold cond_Zopp.
  set (ez := Z.min ex ey).
  assert (Hzx : ez <= ex) by (unfold ez; lia).
  assert (Hzy : ez <= ey) by (unfold ez; lia).
  assert (Hez : emin <= ez) by (unfold ez; lia).
  pose proof (shl_align_fst mx Hzx) as Hx.
  pose proof (shl_align_fst my Hzy) as Hy.
  set (mx' := fst (shl_align mx ex ez)) in *.
  set (my' := fst (shl_align my ey ez)) in *.
  change (Zpos mx' + Zpos my') with (Zpos (mx' + my')).
  unfold binary_normalize, binary_round.
  set (M := (mx' + my')%positive).
  assert (HM : Zpos mx * 2 ^ (ex - ez) < Zpos M).
  { unfold M. rewrite Pos2Z.inj_add, <- Hx. lia. }
  fold (fexp (Zpos (digits2_pos M) + ez)).
  (* the exponent the format asks for is no less than the one of x *)
  assert (HE : ex <= fexp (Zpos (digits2_pos M) + ez)).
  { rewrite <- Hc at 1. apply fexp_mono.
    pose proof (digits2_bounds mx) as (Hlow & _).
    pose proof (digits2_bounds M) as (_ & Hup).
    assert (Hlt : 2 ^ (Zpos (digits2_pos mx) - 1 + (ex - ez))
                  < 2 ^ Zpos (digits2_pos M)).
    { rewrite Z.pow_add_r by lia.
      apply Z.le_lt_trans with (Zpos mx * 2 ^ (ex - ez)); [|lia].
      apply Z.mul_le_mono_nonneg_r; [apply Z.pow_nonneg; lia|exact Hlow]. }
    apply Z.pow_lt_mono_r_iff in Hlt; lia. }
  unfold shl_align.
  destruct (fexp (Zpos (digits2_pos M) + ez) - ez) as [|d|d] eqn:Ed;
    try lia.
  - (* the sum has the exponent of the format *)
    destruct (@binary_round_aux_positive false (Zpos M) ez loc_Exact
                eq_refl Hez) as [Hinf|(mr & er & Hr & Her & Hmr)];
      [left; exact Hinf|right].
    exists mr, er. split; [exact Hr|].
    simpl Zdigits2 in Her, Hmr.
    destruct (Z.eq_dec er ex) as [Heq|Hne]; [right|left; lia].
    split; [exact Heq|].
    assert (Hmax : er = Z.max ez (fexp (Zpos (digits2_pos M) + ez))) by lia.
    specialize (Hmr Hmax).
    replace (er - ez) with 0 in Hmr by lia.
    rewrite Z.div_1_r in Hmr.
    replace (ex - ez) with 0 in HM by lia.
    lia.
  - (* the sum is shifted to the exponent of the format *)
    destruct (@binary_round_aux_positive false (Zpos M) ez loc_Exact
                eq_refl Hez) as [Hinf|(mr & er & Hr & Her & Hmr)];
      [left; exact Hinf|right].
    exists mr, er. split; [exact Hr|].
    simpl Zdigits2 in Her, Hmr.
    destruct (Z.eq_dec er ex) as [Heq|Hne]; [right|left; lia].
    split; [exact Heq|].
    assert (Hmax : er = Z.max ez (fexp (Zpos (digits2_pos M) + ez)))
      by lia.
    specialize (Hmr Hmax). rewrite Heq in Hmr.
    assert (Hle : Zpos mx <= Zpos mr); [|lia].
    apply Z.le_trans with (Zpos M / 2 ^ (ex - ez)); [|exact Hmr].
    apply Z.div_le_lower_bound; [apply Z.pow_pos_nonneg; lia|lia].
Qed.

(** The sum of two negative floats of the format is negative or minus
    infinity. *)
Lemma SFadd_negative mx ex my ey :
  SpecFloat.bounded prec emax mx ex = true ->
  SpecFloat.bounded prec emax my ey = true ->
  not_positive (SFadd prec emax (S754_finite true mx ex)
                      (S754_finite true my ey)) = true.
Proof.
  intros Hb Hb'. unfold SpecFloat.bounded, canonical_mantissa in Hb, Hb'.
  apply andb_prop in Hb, Hb'. destruct Hb as (Hc & _), Hb' as (Hc' & _).
  apply Z.eqb_eq in Hc, Hc'.
  fold (fexp (Zpos (digits2_pos mx) + ex)) in Hc.
  fold (fexp (Zpos (digits2_pos my) + ey)) in Hc'.
  assert (Hex : emin <= ex) by (rewrite <- Hc; apply fexp_ge_emin).
  assert (Hey : emin <= ey) by (rewrite <- Hc'; apply fexp_ge_emin).
  unfold SFadd. cbv zeta. unfold cond_Zopp.
  set (ez := Z.min ex ey).
  assert (Hez : emin <= ez) by (unfold ez; lia).
  set (mx' := fst (shl_align mx ex ez)).
  set (my' := fst (shl_align my ey ez)).
  change (- Zpos mx' + - Zpos my') with (Zneg (mx' + my')).
  unfold binary_normalize, binary_round.
  set (M := (mx' + my')%positive).
  fold (fexp (Zpos (digits2_pos M) + ez)).
  assert (H : forall mz ez',
             emin <= ez' ->
             not_positive (binary_round_aux prec emax true (Zpos mz) ez'
                             loc_Exact) = true).
  { intros mz ez' Hez'.
    destruct (@binary_round_aux_positive true (Zpos mz) ez' loc_Exact
                eq_refl Hez') as [->|(mr & er & -> & _)]; reflexivity. }
  unfold shl_align.
  destruct (fexp (Zpos (digits2_pos M) + ez) - ez) as [|d|d] eqn:Ed;
    apply H; try exact Hez.
  apply fexp_ge_emin.
Qed.

End Format.

(** *** The order *)

Lemma SFleb_refl x : not_negative x = true -> SFleb x x = true.
Proof.
  destruct x as [s|[]| |[] m e]; try discriminate; intros _;
    unfold SFleb, SFcompare; try reflexivity.
  rewrite Z.compare_refl, Pos.compare_cont_refl. reflexivity.
Qed.

Lemma SFleb_below_zero x c :
  not_positive x = true -> not_negative c = true -> SFleb x c = true.
Proof.
  destruct x as [s|[]| |[] m e]; try discriminate;
    destruct c as [s'|[]| |[] m' e']; try discriminate; reflexivity.
Qed.

Lemma SFleb_positive m1 e1 m2 e2 :
  SFleb (S754_finite false m1 e1) (S754_finite false m2 e2) = true
  <-> (e1 < e2 \/ e1 = e2 /\ (m1 <= m2)%positive).
Proof.
  unfold SFleb, SFcompare.
  destruct (Z.compare_spec e1 e2) as [->|Hlt|Hgt].
  - rewrite Pos.compare_cont_spec. unfold Pos.switch_Eq.
    destruct (Pos.compare_spec m1 m2) as [->|H|H]; split;
      try reflexivity; try discriminate; try lia.
  - split; [intros _; left; exact Hlt|reflexivity].
  - split; [discriminate|lia].
Qed.

(** The order is transitive from a float that is not negative on. *)
Lemma SFleb_trans x y z :
  not_negative x = true ->
  SFleb x y = true -> SFleb y z = true -> SFleb x z = true.
Proof.
  intros Hx Hxy Hyz.
  destruct x as [sx|[]| |[] mx ex]; try discriminate;
    destruct y as [sy|[]| |[] my ey]; try discriminate;
    destruct z as [sz|[]| |[] mz ez]; try discriminate; try reflexivity.
  apply SFleb_positive. apply SFleb_positive in Hxy, Hyz. lia.
Qed.

(** *** The primitive floats *)

Local Open Scope float_scope.

Lemma Prim2SF_bounded x s m e :
  Prim2SF x = S754_finite s m e -> SpecFloat.bounded prec emax m e = true.
Proof.
  intros H. pose proof (Prim2SF_valid x) as Hv. rewrite H in Hv. exact Hv.
Qed.

Lemma above_zero_ltb dt :
  (0 <? dt) = true <-> above_zero (Prim2SF dt) = true.
Proof.
  rewrite ltb_spec. unfold SFltb.
  change (Prim2SF 0) with (S754_zero false).
  destruct (Prim2SF dt) as [s|[]| |[] m e]; simpl; split;
    reflexivity || discriminate.
Qed.

Lemma not_positive_leb dt :
  (dt <=? 0) = true <-> not_positive (Prim2SF dt) = true.
Proof.
  rewrite leb_spec. unfold SFleb.
  change (Prim2SF 0) with (S754_zero false).
  destruct (Prim2SF dt) as [s|[]| |[] m e]; simpl; split;
    reflexivity || discriminate.
Qed.

Lemma not_negative_leb c :
  (0 <=? c) = true <-> not_negative (Prim2SF c) = true.
Proof.
  rewrite leb_spec. unfold SFleb.
  change (Prim2SF 0) with (S754_zero false).
  destruct (Prim2SF c) as [s|[]| |[] m e]; simpl; split;
    reflexivity || discriminate.
Qed.

(** Adding a positive step to a time that is not negative gives a time
    that is not negative; it is the same time, when the step is lost in
    the rounding or the time is infinite, or a later one. *)
Lemma add_above_zero t dt :
  not_negative (Prim2SF t) = true ->
  above_zero (Prim2SF dt) = true ->
  not_negative (Prim2SF (t + dt)) = true
  /\ (t + dt = t \/ (t <? t + dt) = true).
Proof.
  intros Ht Hdt.
  assert (H : not_negative (Prim2SF (t + dt)) = true
              /\ (Prim2SF (t + dt) = Prim2SF t
                  \/ SFltb (Prim2SF t) (Prim2SF (t + dt)) = true)).
  { rewrite add_spec. unfold SF64add.
    destruct (Prim2SF t) as [s|[]| |[] m e] eqn:Et; try discriminate;
      destruct (Prim2SF dt) as [s'|[]| |[] m' e'] eqn:Edt;
      try discriminate; try (split; [reflexivity|auto]);
      try (destruct s; split; [reflexivity|auto]).
    destruct (@SFadd_positive prec emax eq_refl m e m' e'
                (Prim2SF_bounded _ Et) (Prim2SF_bounded _ Edt))
      as [->|(mr & er & -> & Hr)].
    - split; [reflexivity|right; reflexivity].
    - split; [reflexivity|]. unfold SFltb, SFcompare.
      destruct Hr as [Hlt|(-> & Hle)].
      + right. apply Z.compare_lt_iff in Hlt. rewrite Hlt. reflexivity.
      + rewrite Z.compare_refl, Pos.compare_cont_spec. unfold Pos.switch_Eq.
        destruct (Pos.compare_spec m mr) as [->|Hlt|Hgt];
          [left; reflexivity|right; reflexivity|lia]. }
  destruct H as (Hn & [Heq|Hlt]).
  - split; [exact Hn|left]. apply Prim2SF_inj. exact Heq.
  - split; [exact Hn|right]. rewrite ltb_spec. exact Hlt.
Qed.

(** Adding a step that is not positive to a time that is not positive
    gives a time that is not positive. *)
Lemma add_not_positive t dt :
  not_positive (Prim2SF t) = true ->
  not_positive (Prim2SF dt) = true ->
  not_positive (Prim2SF (t + dt)) = true.
Proof.
  intros Ht Hdt. rewrite add_spec. unfold SF64add.
  destruct (Prim2SF t) as [s|[]| |[] m e] eqn:Et; try discriminate;
    destruct (Prim2SF dt) as [s'|[]| |[] m' e'] eqn:Edt;
    try discriminate; try reflexivity;
    try (destruct s; try destruct s'; reflexivity).
  apply (@SFadd_negative prec emax eq_refl m e m' e');
    [exact (Prim2SF_bounded _ Et)|exact (Prim2SF_bounded _ Edt)].
Qed.


End Binary64.

(** *** The sample times of the loop on binary64 *)

Lemma sample_time64_not_negative (dt : float) (k : nat) :
  PrimFloat.ltb 0 dt = true ->
  Binary64.not_negative (Prim2SF (sample_time dt k)) = true.
Proof.
  intros Hdt. apply Binary64.above_zero_ltb in Hdt.
  induction k as [|k IH]; [reflexivity|].
  change (sample_time dt (S k)) with (PrimFloat.add (sample_time dt k) dt).
  apply (Binary64.add_above_zero _ _ IH Hdt).
Qed.

Lemma sample_time64_step (dt : float) (k : nat) :
  PrimFloat.ltb 0 dt = true ->
  sample_time dt (S k) = sample_time dt k
  \/ PrimFloat.ltb (sample_time dt k) (sample_time dt (S k)) = true.
Proof.
  intros Hdt.
  change (sample_time dt (S k)) with (PrimFloat.add (sample_time dt k) dt).
  apply Binary64.add_above_zero.
  - apply sample_time64_not_negative. exact Hdt.
  - apply Binary64.above_zero_ltb. exact Hdt.
Qed.


Lemma ltb_leb64 (x y : float) :
  PrimFloat.ltb x y = true -> PrimFloat.leb x y = true.
Proof.
  rewrite ltb_spec, leb_spec. unfold SFltb, SFleb.
  destruct (SFcompare (Prim2SF x) (Prim2SF y)) as [[]|];
    reflexivity || discriminate.
Qed.

Lemma sample_time64_mono (dt : float) (k j : nat) :
  PrimFloat.ltb 0 dt = true ->
  (k <= j)%nat ->
  PrimFloat.leb (sample_time dt k) (sample_time dt j) = true.
Proof.
  intros Hdt Hj.
  pose proof (sample_time64_not_negative k Hdt) as Hk.
  induction Hj as [|j Hj IH].
  - rewrite leb_spec. apply Binary64.SFleb_refl. exact Hk.
  - rewrite leb_spec in *.
    apply (Binary64.SFleb_trans _ _ _ Hk IH).
    destruct (sample_time64_step j Hdt) as [->|Hlt].
    + apply Binary64.SFleb_refl. apply sample_time64_not_negative.
      exact Hdt.
    + rewrite <- leb_spec. apply ltb_leb64. exact Hlt.
Qed.





(** With a positive step, a round is kept exactly when its own time
    passes the test. *)
Lemma exit_round64_kept_iff (T dt : float) (n k : nat) :
  exit_round T dt n ->
  PrimFloat.ltb 0 dt = true ->
  (k < n)%nat
  <-> PrimFloat.leb (sample_time dt k) (PrimFloat.add T 1e-5) = true.
Proof.
  intros (Hin & Hout) Hdt. split; [apply Hin|].
  intros Hle. destruct (Nat.lt_ge_cases k n) as [H|H]; [exact H|].
  exfalso. pose proof (sample_time64_mono Hdt H) as Hmono.
  simpl in Hout. rewrite leb_spec in *.
  rewrite (Binary64.SFleb_trans _ _ _
             (sample_time64_not_negative n Hdt) Hmono Hle) in Hout.
  discriminate.
Qed.

Lemma sample_time64_not_positive (dt : float) (k : nat) :
  PrimFloat.leb dt 0 = true ->
  Binary64.not_positive (Prim2SF (sample_time dt k)) = true.
Proof.
  intros Hdt. apply Binary64.not_positive_leb in Hdt.
  induction k as [|k IH]; [reflexivity|].
  change (sample_time dt (S k)) with (PrimFloat.add (sample_time dt k) dt).
  apply (Binary64.add_not_positive _ _ IH Hdt).
Qed.

(** With a step that is not positive and a total time that lets the loop
    start, every sample time passes the test. *)
Lemma no_exit_round64 (T dt : float) (k : nat) :
  PrimFloat.leb dt 0 = true ->
  PrimFloat.leb 0 (PrimFloat.add T 1e-5) = true ->
  PrimFloat.leb (sample_time dt k) (PrimFloat.add T 1e-5) = true.
Proof.
  intros Hdt HT. rewrite leb_spec.
  apply Binary64.SFleb_below_zero.
  - apply sample_time64_not_positive. exact Hdt.
  - apply Binary64.not_negative_leb. exact HT.
Qed.

(** Without a positive step the loop keeps one round at most before it
    leaves. *)
Lemma exit_round64_short (T dt : float) (n : nat) :
  exit_round T dt n ->
  PrimFloat.ltb 0 dt = false ->
  (n <= 1)%nat.
Proof.
  intros (Hin & Hout) Hdt.
  destruct (Nat.le_gt_cases n 1) as [H|H]; [exact H|exfalso].
  pose proof (Hin 0%nat ltac:(lia)) as H0.
  pose proof (Hin 1%nat H) as H1.
  change (PrimFloat.leb 0 (PrimFloat.add T 1e-5) = true) in H0.
  change (PrimFloat.leb (PrimFloat.add 0 dt) (PrimFloat.add T 1e-5) = true)
    in H1.
  assert (Hneg : PrimFloat.leb dt 0 = true).
  { rewrite leb_spec in H1. rewrite add_spec in H1.
    rewrite ltb_spec in Hdt. rewrite leb_spec.
    change (Prim2SF 0) with (S754_zero false) in *.
    unfold SF64add in H1.
    destruct (Prim2SF dt) as [s|[]| |[] m e]; try reflexivity;
      discriminate. }
  pose proof (@no_exit_round64 T dt n Hneg H0) as Hn.
  simpl in Hout. rewrite Hn in Hout. discriminate.
Qed.

Lemma exit_round64_tenth : exit_round 1.0%float 0.1%float 11.
Proof.
  split.
  - intros k Hk.
    do 11 (destruct k as [|k]; [vm_compute; reflexivity|]). lia.
  - vm_compute. reflexivity.
Qed.

Lemma exit_round64_third : exit_round 1.0%float 0.33%float 4.
Proof.
  split.
  - intros k Hk.
    do 4 (destruct k as [|k]; [vm_compute; reflexivity|]). lia.
  - vm_compute. reflexivity.
Qed.

(** C1, as amended.  [BuildTrajectory] returns exactly when the test
    [t <= T + 1e-5] of its loop fails at some sample time, [T] being
    [GetTotalTime()] of the schedule of limb [E0].  For every composite
    that holds the blocks and every step for which it does, the states it
    returns are the states at the sample times [0, 0 + dt, (0 + dt) + dt,
    ...] (each the binary64 sum of the one before and [dt]), up to the
    first that fails the test; with [dt > 0] a sample time is included
    exactly when it passes the test.  For [T = 1.0] and [dt = 0.1] there
    are exactly 11 states, and the sums of 0.1 give them the time stamps
    0.0 through 0.99999999999999989. *)
Theorem BuildTrajectory_sample_times :
  (forall (double : Type) (SC : Scalar double) (StateAng3d Terrain NLP : Type)
          (GetState : StateLinXd double -> StateAng3d)
          (GetTotalTime : ContactSchedule double -> double)
          (IsInContact : ContactSchedule double -> double -> bool)
          (GetPoint : Component double -> double -> StateLinXd double)
          (this : MotionOptimizerFacade double Terrain NLP)
          (vars : Composite double) (schedule : ContactSchedule double)
          (dt : double),
     lookup as_ContactSchedule (id.GetEEScheduleId E0) vars = Some schedule ->
     assigned this vars = true ->
     (forall n fuel,
        exit_round (GetTotalTime schedule) dt n ->
        (n < fuel)%nat ->
        exists trajectory,
          BuildTrajectory GetState GetTotalTime IsInContact GetPoint
                          this fuel dt vars = Ok (trajectory, vars)
          /\ map (@t_global_ _ _) trajectory
             = map (sample_time dt) (seq 0 n)
          /\ Forall2 (sampled_at GetState IsInContact GetPoint this vars)
                     (map (sample_time dt) (seq 0 n)) trajectory
          /\ forall k,
               (k < List.length trajectory)%nat <->
               (forall j, (j <= k)%nat ->
                  dleb (sample_time dt j)
                       (dadd (GetTotalTime schedule) d1e_5) = true))
     /\ (forall fuel trajectory vars',
           BuildTrajectory GetState GetTotalTime IsInContact GetPoint
                           this fuel dt vars = Ok (trajectory, vars') ->
           exit_round (GetTotalTime schedule) dt (List.length trajectory)
           /\ (List.length trajectory < fuel)%nat))
  /\ (forall (StateAng3d Terrain NLP : Type)
             (GetState : StateLinXd float -> StateAng3d)
             (GetTotalTime : ContactSchedule float -> float)
             (IsInContact : ContactSchedule float -> float -> bool)
             (GetPoint : Component float -> float -> StateLinXd float)
             (this : MotionOptimizerFacade float Terrain NLP)
             (vars : Composite float) (schedule : ContactSchedule float)
             (fuel : nat),
        lookup as_ContactSchedule (id.GetEEScheduleId E0) vars
        = Some schedule ->
        assigned this vars = true ->
        GetTotalTime schedule = 1.0%float ->
        (11 < fuel)%nat ->
        exists trajectory,
          BuildTrajectory GetState GetTotalTime IsInContact GetPoint
                          this fuel 0.1%float vars = Ok (trajectory, vars)
          /\ List.length trajectory = 11%nat
          /\ map (@t_global_ _ _) trajectory
             = [0; 0.10000000000000001; 0.20000000000000001;
                0.30000000000000004; 0.40000000000000002; 0.5;
                0.59999999999999998; 0.69999999999999996;
                0.79999999999999993; 0.89999999999999991;
                0.99999999999999989]%float)
  /\ (forall (StateAng3d Terrain NLP : Type)
             (GetState : StateLinXd float -> StateAng3d)
             (GetTotalTime : ContactSchedule float -> float)
             (IsInContact : ContactSchedule float -> float -> bool)
             (GetPoint : Component float -> float -> StateLinXd float)
             (this : MotionOptimizerFacade float Terrain NLP)
             (vars : Composite float) (schedule : ContactSchedule float)
             (fuel : nat) (dt : float) trajectory vars',
        lookup as_ContactSchedule (id.GetEEScheduleId E0) vars
        = Some schedule ->
        PrimFloat.ltb 0 dt = true ->
        BuildTrajectory GetState GetTotalTime IsInContact GetPoint
                        this fuel dt vars = Ok (trajectory, vars') ->
        forall k,
          (k < List.length trajectory)%nat
          <-> PrimFloat.leb (sample_time dt k)
                            (PrimFloat.add (GetTotalTime schedule) 1e-5)
              = true).
Proof.
  split; [|split].
  - intros double SC StateAng3d Terrain NLP GetState GetTotalTime IsInContact
           GetPoint this vars schedule dt Hs Ha.
    split.
    + intros n fuel Hexit Hfuel.
      destruct (@BuildTrajectory_samples double SC StateAng3d Terrain NLP
                  GetState GetTotalTime IsInContact GetPoint this vars
                  schedule dt n fuel Hs Ha Hexit Hfuel)
        as (trajectory & Hrun & Hlen & Htimes & Hall).
      exists trajectory. repeat split; try assumption.
      * rewrite Hlen. apply exit_round_kept. exact Hexit.
      * rewrite Hlen. apply exit_round_kept. exact Hexit.
    + intros fuel trajectory vars' Hrun.
      apply BuildTrajectory_sound in Hrun.
      destruct Hrun as (schedule' & n & Hs' & Hexit & Hfuel & _ & Hall).
      rewrite Hs in Hs'. injection Hs' as <-.
      apply Forall2_length in Hall. rewrite length_map, length_seq in Hall.
      rewrite <- Hall. split; assumption.
  - intros StateAng3d Terrain NLP GetState GetTotalTime IsInContact GetPoint
           this vars schedule fuel Hs Ha HT Hfuel.
    destruct (@BuildTrajectory_samples float binary64 StateAng3d Terrain NLP
                GetState GetTotalTime IsInContact GetPoint this vars
                schedule 0.1%float 11 fuel Hs Ha)
      as (trajectory & Hrun & Hlen & Htimes & _).
    + rewrite HT. exact exit_round64_tenth.
    + exact Hfuel.
    + exists trajectory. split; [exact Hrun|]. split; [exact Hlen|].
      rewrite Htimes. vm_compute. reflexivity.
  - intros StateAng3d Terrain NLP GetState GetTotalTime IsInContact GetPoint
           this vars schedule fuel dt trajectory vars' Hs Hdt Hrun k.
    apply BuildTrajectory_sound in Hrun.
    destruct Hrun as (schedule' & n & Hs' & Hexit & _ & _ & Hall).
    rewrite Hs in Hs'. injection Hs' as <-.
    apply Forall2_length in Hall. rewrite length_map, length_seq in Hall.
    rewrite <- Hall. apply exit_round64_kept_iff; assumption.
Qed.

Lemma BuildTrajectory_sample_times_witness :
  exists trajectory,
    biped_trajectory biped64 20 0.1%float vars64 = Ok (trajectory, vars64)
    /\ List.length trajectory = 11%nat
    /\ map (@t_global_ _ _) trajectory
       = [0; 0.10000000000000001; 0.20000000000000001;
          0.30000000000000004; 0.40000000000000002; 0.5;
          0.59999999999999998; 0.69999999999999996;
          0.79999999999999993; 0.89999999999999991;
          0.99999999999999989]%float.
Proof.
  unfold biped_trajectory.
  eapply (proj1 (proj2 BuildTrajectory_sample_times)).
  - vm_compute. reflexivity.
  - vm_compute. reflexivity.
  - vm_compute. reflexivity.
  - lia.
Defined.

(** The biped with schedules that never end. *)
Definition biped64_endless
  : MotionOptimizerFacade float unit (list (Composite float)) :=
  biped CubicHermite [[infinity]; [infinity]]%float true [].

Lemma leb_infinity64 (x : float) :
  Binary64.not_negative (Prim2SF x) = true ->
  PrimFloat.leb x infinity = true.
Proof.
  rewrite leb_spec. change (Prim2SF infinity) with (S754_infinity false).
  destruct (Prim2SF x) as [s|[]| |[] m e]; try discriminate; reflexivity.
Qed.

(** C1 as the specification states it fails: on the biped, whose schedules
    have a total time of 1.0, a step of 0.1 gives 11 states, but their time
    stamps do not run through 1.0: the last one is the tenth sum of 0.1,
    which is 0.99999999999999989, below 1.0.  And a positive step need not
    give any state: with schedules of infinite total time every sample
    time passes the test, and no number of rounds lets the loop end. *)
Lemma last_time_stamp_below_total_time :
  (exists trajectory state,
     biped_trajectory biped64 20 0.1%float vars64 = Ok (trajectory, vars64)
     /\ List.length trajectory = 11%nat
     /\ nth_error trajectory 10 = Some state
     /\ t_global_ state = 0.99999999999999989%float
     /\ PrimFloat.eqb (t_global_ state) 1.0 = false
     /\ PrimFloat.ltb (t_global_ state) 1.0 = true)
  /\ PrimFloat.ltb 0 0.1 = true
  /\ forall fuel,
       biped_trajectory biped64_endless fuel 0.1%float
                        (biped_composite biped64_endless)
       = Err OutOfFuel.
Proof.
  split; [|split].
  - eexists _, _. split; [vm_compute; reflexivity|].
    split; [reflexivity|]. split; [reflexivity|].
    split; [reflexivity|]. split; vm_compute; reflexivity.
  - vm_compute. reflexivity.
  - unfold biped_trajectory.
    eapply BuildTrajectory_runs_out.
    + vm_compute. reflexivity.
    + vm_compute. reflexivity.
    + intros k.
      change (PrimFloat.leb (sample_time 0.1%float k) infinity = true).
      apply leb_infinity64. apply sample_time64_not_negative.
      vm_compute. reflexivity.
Qed.

(** The sample times as the specification words them, [0, dt, 2*dt, ...]
    in exact arithmetic, and the round in which its rule [t <= T + 1e-5]
    first fails.  The loop of the code, which runs on binary64, is
    compared with them. *)
Definition spec_sample_time (dt : Q) (k : nat) : Q :=
  (inject_Z (Z.of_nat k) * dt)%Q.

Definition spec_exit_round (T dt : Q) (n : nat) : Prop :=
  (forall k, (k < n)%nat -> (spec_sample_time dt k <= T + (1 # 100000))%Q)
  /\ ~ (spec_sample_time dt n <= T + (1 # 100000))%Q.

(** C2, as amended.  For a total time of 1.0 and a step of 0.33 the loop
    keeps the times 0, 0.33, 0.66 and 0.99 and leaves at 1.32, which is
    beyond 1.00001: [BuildTrajectory] returns exactly 4 states, that is
    floor((T + 1e-5) / dt) + 1, on binary64 as in exact arithmetic. *)
Theorem BuildTrajectory_third_gives_four_states :
  (forall (StateAng3d Terrain NLP : Type)
          (GetState : StateLinXd float -> StateAng3d)
          (GetTotalTime : ContactSchedule float -> float)
          (IsInContact : ContactSchedule float -> float -> bool)
          (GetPoint : Component float -> float -> StateLinXd float)
          (this : MotionOptimizerFacade float Terrain NLP)
          (vars : Composite float) (schedule : ContactSchedule float)
          (fuel : nat),
     lookup as_ContactSchedule (id.GetEEScheduleId E0) vars = Some schedule ->
     assigned this vars = true ->
     GetTotalTime schedule = 1.0%float ->
     (4 < fuel)%nat ->
     exists trajectory,
       BuildTrajectory GetState GetTotalTime IsInContact GetPoint
                       this fuel 0.33%float vars = Ok (trajectory, vars)
       /\ List.length trajectory = 4%nat
       /\ map (@t_global_ _ _) trajectory
          = [0; 0.33000000000000002; 0.66000000000000003;
             0.98999999999999999]%float)
  /\ spec_exit_round 1%Q (33 # 100)%Q 4
  /\ (Qfloor ((1 + (1 # 100000)) / (33 # 100)) + 1 = 4)%Z.
Proof.
  split; [|split].
  - intros StateAng3d Terrain NLP GetState GetTotalTime IsInContact GetPoint
           this vars schedule fuel Hs Ha HT Hfuel.
    destruct (@BuildTrajectory_samples float binary64 StateAng3d Terrain NLP
                GetState GetTotalTime IsInContact GetPoint this vars
                schedule 0.33%float 4 fuel Hs Ha)
      as (trajectory & Hrun & Hlen & Htimes & _).
    + rewrite HT. exact exit_round64_third.
    + exact Hfuel.
    + exists trajectory. split; [exact Hrun|]. split; [exact Hlen|].
      rewrite Htimes. vm_compute. reflexivity.
  - split.
    + intros k Hk.
      do 4 (destruct k as [|k]; [vm_compute; discriminate|]). lia.
    + intros H. vm_compute in H. apply H. reflexivity.
  - vm_compute. reflexivity.
Qed.

Lemma BuildTrajectory_third_gives_four_states_witness :
  exists trajectory,
    biped_trajectory biped64 20 0.33%float vars64 = Ok (trajectory, vars64)
    /\ List.length trajectory = 4%nat
    /\ map (@t_global_ _ _) trajectory
       = [0; 0.33000000000000002; 0.66000000000000003;
          0.98999999999999999]%float.
Proof.
  unfold biped_trajectory.
  eapply (proj1 BuildTrajectory_third_gives_four_states).
  - vm_compute. reflexivity.
  - vm_compute. reflexivity.
  - vm_compute. reflexivity.
  - lia.
Defined.

(** C2 as the specification states it fails: on the biped, whose schedules have a
    total time of 1.0, a step of 0.33 gives 4 states, and no amount of
    fuel gives ceil(1.0 / 0.33) + 1 = 5. *)
Lemma five_states_refuted :
  value (biped_trajectory biped64 20 0.33%float vars64)
  = value (sample_each euler contact_until_end clock biped64
             [0; 0.33000000000000002; 0.66000000000000003;
              0.98999999999999999]%float vars64)
  /\ (exists trajectory,
        biped_trajectory biped64 20 0.33%float vars64
        = Ok (trajectory, vars64)
        /\ List.length trajectory = 4%nat)
  /\ (forall fuel trajectory vars',
        biped_trajectory biped64 fuel 0.33%float vars64
        = Ok (trajectory, vars') ->
        List.length trajectory <> 5%nat)
  /\ (Qceiling (1 / (33 # 100)) + 1 = 5)%Z.
Proof.
  split; [|split; [|split]].
  - vm_compute. reflexivity.
  - eexists. split; vm_compute; reflexivity.
  - intros fuel trajectory vars' Hrun. unfold biped_trajectory in Hrun.
    apply BuildTrajectory_sound in Hrun.
    destruct Hrun as (schedule & n & Hs & Hexit & _ & _ & Hall).
    vm_compute in Hs. injection Hs as <-.
    assert (Hn : n = 4%nat).
    { apply (exit_round_unique Hexit). exact exit_round64_third. }
    apply Forall2_length in Hall. rewrite length_map, length_seq in Hall.
    rewrite <- Hall, Hn. discriminate.
  - vm_compute. reflexivity.
Qed.

Lemma exit_round64_overhang : exit_round 1.0%float 0.50000001%float 3.
Proof.
  split.
  - intros k Hk.
    do 3 (destruct k as [|k]; [vm_compute; reflexivity|]). lia.
  - vm_compute. reflexivity.
Qed.

(** C3 as the specification states it fails: on the biped (total time
    1.0) with a step of 0.50000001 the third sample time is 1.00000002,
    beyond the total time and within the tolerance.  The state is kept, but its time
    stamp is 1.00000002, not 1.0; the clock spline, whose position is the
    time it is asked for, was asked for 1.00000002; and the schedule,
    which is in contact at 1.0 and not after, was asked after. *)
Lemma final_sample_not_moved_to_total_time :
  exists trajectory state,
    biped_trajectory biped64 20 0.50000001%float vars64
    = Ok (trajectory, vars64)
    /\ List.length trajectory = 3%nat
    /\ nth_error trajectory 2 = Some state
    /\ t_global_ state = 1.0000000200000001%float
    /\ t_global_ state <> 1.0%float
    /\ PrimFloat.ltb 1.0 (t_global_ state) = true
    /\ PrimFloat.leb (t_global_ state) (1.0 + 1e-5) = true
    /\ p_ (base_lin (base_ state))
       = [1.0000000200000001; 1.0000000200000001;
          1.0000000200000001]%float
    /\ p_ (base_lin (base_ state)) <> p_ (clock (CCoeffSpline
             {| coeff_id := id.base_linear; coeff_timings := [];
                poly_vars_ := [] |}) 1.0%float)
    /\ ee_contact_ state = [false; false]
    /\ option_map (fun s => contact_until_end s 1.0%float)
         (lookup as_ContactSchedule (id.GetEEScheduleId E0) vars64)
       = Some true.
Proof.
  eexists. eexists. split; [vm_compute; reflexivity|].
  split; [reflexivity|]. split; [reflexivity|].
  split; [reflexivity|]. split.
  { simpl. intros H. apply (f_equal (PrimFloat.ltb 1.0)) in H.
    vm_compute in H. discriminate. }
  split; [vm_compute; reflexivity|]. split; [vm_compute; reflexivity|].
  split; [reflexivity|]. split.
  { simpl. intros H.
    apply (f_equal (fun l => match l with
                             | x :: _ => PrimFloat.ltb 1.0 x
                             | [] => false
                             end)) in H.
    vm_compute in H. discriminate. }
  split; [reflexivity|]. vm_compute. reflexivity.
Qed.

Lemma final_sample_taken_at_overhanging_time_witness :
  exists trajectory state,
    biped_trajectory biped64 20 0.50000001%float vars64
    = Ok (trajectory, vars64)
    /\ List.length trajectory = 3%nat
    /\ nth_error trajectory 2 = Some state
    /\ t_global_ state = sample_time 0.50000001%float 2
    /\ sampled_at euler contact_until_end clock biped64 vars64
                  (sample_time 0.50000001%float 2) state.
Proof.
  unfold biped_trajectory.
  eapply (@final_sample_taken_at_overhanging_time float binary64).
  - vm_compute. reflexivity.
  - vm_compute. reflexivity.
  - exact exit_round64_overhang.
  - vm_compute. reflexivity.
  - lia.
Defined.

(** ** The facade on the biped *)

(** A solver for the sample: the problem keeps the composite it is given
    as its only iterate, has no use for costs and constraints, and the
    solvers leave it as it is. *)
Section BipedSolver.
Context {double : Type} {SC : Scalar double}.

Definition keep_variables (problem : list (Composite double))
  (vars : Composite double) : list (Composite double) :=
  [vars].

Definition drop_constraints (problem : list (Composite double))
  (constraints : string * bool * list unit) : list (Composite double) :=
  problem.

Definition idle_solver (problem : list (Composite double))
  : list (Composite double) :=
  problem.

Definition no_constraint
  (this : MotionOptimizerFacade double unit (list (Composite double)))
  (vars : Composite double) (name : ConstraintName) : unit :=
  tt.

Definition no_cost
  (this : MotionOptimizerFacade double unit (list (Composite double)))
  (vars : Composite double) (name : CostName) (weight : double) : unit :=
  tt.

(** [SolveProblem] on the sample: [biped_solve] is the build with
    assertions compiled in, [release_solve] the one with [NDEBUG]. *)
Definition biped_solve
  (this : MotionOptimizerFacade double unit (list (Composite double)))
  (solver : NlpSolver)
  : outcome (MotionOptimizerFacade double unit (list (Composite double))) :=
  SolveProblem alternating durations end_points no_coefficients
               end_point_coefficients keep_variables drop_constraints
               drop_constraints idle_solver idle_solver no_constraint
               no_cost false this solver.

Definition release_solve
  (this : MotionOptimizerFacade double unit (list (Composite double)))
  (solver : NlpSolver)
  : outcome (MotionOptimizerFacade double unit (list (Composite double))) :=
  SolveProblem alternating durations end_points no_coefficients
               end_point_coefficients keep_variables drop_constraints
               drop_constraints idle_solver idle_solver no_constraint
               no_cost true this solver.

Definition biped_trajectories
  (this : MotionOptimizerFacade double unit (list (Composite double)))
  (fuel : nat) (dt : double)
  : outcome (list (list (RobotStateCartesian double (StateLinXd double)))) :=
  GetTrajectories euler sum_of_durations contact_until_end clock
                  iteration_count iterate this fuel dt.

End BipedSolver.

(** The biped with a base representation that is none of the two. *)
Definition biped64_misconfigured
  : MotionOptimizerFacade float unit (list (Composite float)) :=
  biped (OtherRepresentation 7)
        [[0.5; 0.25; 0.25]; [0.25; 0.5; 0.25]]%float true [].

(** The biped after a solve that recorded two iterates, which differ in
    the values of the z motion blocks. *)
Definition biped64_solved
  : MotionOptimizerFacade float unit (list (Composite float)) :=
  biped CubicHermite
        [[0.5; 0.25; 0.25]; [0.25; 0.5; 0.25]]%float true
        [vars64; assign_z_motion (fun ee => [1.0%float]) vars64].

Lemma hermite_boundary_bounds_witness :
  exists vars,
    biped_variables biped64 = Ok vars
    /\ bounds_of vars id.base_linear
       = Some (hermite_bounds at_rest at_rest [Coords3D.X; Coords3D.Y])
    /\ bounds_of vars id.base_angular
       = Some (hermite_bounds at_rest at_rest [Coords3D.Z]).
Proof.
  unfold biped_variables.
  apply (proj1 (proj2 (hermite_boundary_bounds alternating durations
                         end_points no_coefficients end_point_coefficients
                         false biped64)) 2%nat).
  - unfold well_formed. simpl. repeat split; auto.
  - reflexivity.
Defined.



Lemma schedules_optimized_iff_TotalTime_witness :
  exists vars,
    biped_variables biped64 = Ok vars
    /\ (forall ee, (ee < 2)%nat ->
          exists e schedule,
            find_entry (id.GetEEScheduleId ee) (components vars) = Some e
            /\ entry_component e = CContactSchedule schedule
            /\ schedule_ee schedule = ee
            /\ entry_is_variable e = true)
    /\ (forall e schedule,
          In e (components vars) ->
          entry_component e = CContactSchedule schedule ->
          entry_is_variable e = true).
Proof.
  unfold biped_variables.
  apply (@schedules_optimized_iff_TotalTime float binary64 unit _
           alternating durations end_points no_coefficients
           end_point_coefficients false biped64 2%nat).
  unfold well_formed. simpl. repeat split; auto.
Defined.

(** C5 as the specification states it fails: the composite of the biped
    holds two
    motion blocks for limb [E0], one under [GetEEXYMotionId(E0)] and one
    under [GetEEZMotionId(E0)], not one block under one name. *)
Lemma two_motion_blocks_for_E0 :
  exists vars,
    biped_variables biped64 = Ok vars
    /\ option_map (fun e => kind_of (entry_component e))
         (find_entry (id.GetEEXYMotionId E0) (components vars))
       = Some (KEndeffectorNodes 1)
    /\ option_map (fun e => kind_of (entry_component e))
         (find_entry (id.GetEEZMotionId E0) (components vars))
       = Some (KEndeffectorNodes 2)
    /\ id.GetEEXYMotionId E0 <> id.GetEEZMotionId E0
    /\ List.length
         (filter (fun e =>
                    id.eqb (GetName (entry_component e))
                           (id.GetEEXYMotionId E0)
                    || id.eqb (GetName (entry_component e))
                              (id.GetEEZMotionId E0))
                 (components vars)) = 2%nat
    /\ 2%nat <> 1%nat.
Proof.
  eexists. split; [vm_compute; reflexivity|].
  split; [reflexivity|]. split; [reflexivity|].
  split; [discriminate|]. split; [reflexivity|discriminate].
Qed.

Lemma two_motion_blocks_per_limb_witness :
  (exists vars,
     biped_variables biped64 = Ok vars
     /\ forall ee, (ee < 2)%nat ->
          holds_block vars (id.GetEEScheduleId ee) KContactSchedule
          /\ holds_block vars (id.GetEEXYMotionId ee) (KEndeffectorNodes 1)
          /\ holds_block vars (id.GetEEZMotionId ee) (KEndeffectorNodes 2)
          /\ holds_block vars (id.GetEEForceId ee) KForceNodes)
  /\ (forall trajectory vars',
        biped_trajectory biped64 20 0.33%float vars64
        = Ok (trajectory, vars') ->
        forall state ee,
          In state trajectory ->
          (ee < 2)%nat ->
          exists motion,
            lookup as_Spline (id.GetEEXYMotionId ee) vars64 = Some motion
            /\ nth_error (ee_motion_ state) ee
               = Some (clock motion (t_global_ state))).
Proof.
  split.
  - unfold biped_variables.
    apply (proj1 (two_motion_blocks_per_limb euler sum_of_durations
                    contact_until_end alternating durations clock
                    end_points no_coefficients end_point_coefficients
                    false biped64) 2%nat).
    unfold well_formed. simpl. repeat split; auto.
  - intros trajectory vars'. unfold biped_trajectory.
    apply (proj2 (two_motion_blocks_per_limb euler sum_of_durations
                    contact_until_end alternating durations clock
                    end_points no_coefficients end_point_coefficients
                    false biped64) vars64 20%nat 0.33%float trajectory vars').
Defined.



Lemma GetTrajectories_one_per_iterate_witness :
  exists trajectories,
    biped_trajectories biped64_solved 20 0.33%float = Ok trajectories
    /\ List.length trajectories = 2%nat
    /\ forall i, (i < 2)%nat ->
         exists trajectory,
           nth_error trajectories i = Some trajectory
           /\ value (biped_trajectory biped64_solved 20 0.33%float
                       (iterate (nlp biped64_solved) (Z.of_nat i)))
              = Ok trajectory.
Proof.
  destruct (proj2 (GetTrajectories_one_per_iterate euler sum_of_durations
                     contact_until_end clock iteration_count iterate
                     biped64_solved 20 0.33%float))
    as (trajectories & Hrun).
  - intros i Hi. simpl in Hi.
    destruct i as [|[|i]]; [| |lia]; eexists; vm_compute; reflexivity.
  - exists trajectories. split; [exact Hrun|].
    apply (proj1 (GetTrajectories_one_per_iterate euler sum_of_durations
                    contact_until_end clock iteration_count iterate
                    biped64_solved 20 0.33%float) trajectories Hrun).
Defined.

Lemma BuildTrajectory_ignores_z_motion_witness :
  components (assign_z_motion (fun ee => [1.0%float]) vars64)
  <> components vars64
  /\ value (biped_trajectory biped64 20 0.33%float
              (assign_z_motion (fun ee => [1.0%float]) vars64))
     = value (biped_trajectory biped64 20 0.33%float vars64).
Proof.
  split.
  - intros H.
    apply (f_equal (fun es =>
                      match find_entry (id.GetEEZMotionId E0) es with
                      | Some {| entry_component := CNodeValues nodes |} =>
                          List.length (nodes_values nodes)
                      | _ => 0%nat
                      end)) in H.
    vm_compute in H. discriminate.
  - symmetry.
    apply (proj1 (BuildTrajectory_ignores_z_motion euler sum_of_durations
                    contact_until_end clock biped64 20 0.33%float)).
    apply agree_assign_z_motion.
Defined.

(** ** The step of the loop on binary64 *)

Section Binary64Steps.
Variables StateAng3d Terrain NLP : Type.
Variable GetState : StateLinXd float -> StateAng3d.
Variable GetTotalTime : ContactSchedule float -> float.
Variable IsInContact : ContactSchedule float -> float -> bool.
Variable GetPoint : Component float -> float -> StateLinXd float.
Variable this : MotionOptimizerFacade float Terrain NLP.

(** X17.  On binary64 [BuildTrajectory] returns two states or more only
    when the step is positive: with a step that is zero, negative or not
    a number, a run that returns has kept the state at time 0 at most. *)
Theorem several_states_need_positive_step (fuel : nat) (dt : float)
  vars trajectory vars' :
  BuildTrajectory GetState GetTotalTime IsInContact GetPoint this fuel dt vars
  = Ok (trajectory, vars') ->
  (2 <= List.length trajectory)%nat ->
  PrimFloat.ltb 0 dt = true.
Proof.
  intros Hrun Hlen. apply BuildTrajectory_sound in Hrun.
  destruct Hrun as (schedule & n & _ & Hexit & _ & _ & Hall).
  apply Forall2_length in Hall. rewrite length_map, length_seq in Hall.
  destruct (PrimFloat.ltb 0 dt) eqn:Hdt; [reflexivity|].
  pose proof (exit_round64_short Hexit Hdt). lia.
Qed.

(** X18.  On binary64, with a step that is zero, negative or minus
    infinity and a total time [T] of the schedule of limb [E0] with
    [0 <= T + 1e-5], the loop of [BuildTrajectory] does not end: every
    sample time stays at or below zero and passes the test, and no number
    of rounds lets the function return. *)
Theorem nonpositive_step_never_returns (dt : float) vars schedule :
  lookup as_ContactSchedule (id.GetEEScheduleId E0) vars = Some schedule ->
  assigned this vars = true ->
  PrimFloat.leb dt 0 = true ->
  PrimFloat.leb 0 (PrimFloat.add (GetTotalTime schedule) 1e-5) = true ->
  (forall k, PrimFloat.leb (sample_time dt k) 0 = true)
  /\ forall fuel,
       BuildTrajectory GetState GetTotalTime IsInContact GetPoint this fuel
                       dt vars
       = Err OutOfFuel.
Proof.
  intros Hs Ha Hdt HT. split.
  - intros k. apply Binary64.not_positive_leb.
    apply sample_time64_not_positive. exact Hdt.
  - apply (@BuildTrajectory_runs_out float binary64 StateAng3d Terrain NLP
             GetState GetTotalTime IsInContact GetPoint this dt vars
             schedule Hs Ha).
    intros k. apply no_exit_round64; assumption.
Qed.

End Binary64Steps.

(** ** The rest of the facade on sample robots *)

(** The biped with its base in polynomial coefficients. *)
Definition biped64_coeff
  : MotionOptimizerFacade float unit (list (Composite float)) :=
  biped PolyCoeff [[0.5; 0.25; 0.25]; [0.25; 0.5; 0.25]]%float true [].

(** A robot without limbs. *)
Definition limbless64
  : MotionOptimizerFacade float unit (list (Composite float)) :=
  {| params_ := params_ biped64;
     model_ := {| GetEECount := 0; GetEEIDs := [];
                  GetNominalStanceInBase := [];
                  GetForceLimit := 0%float; GetStandingZForce := 0%float |};
     terrain_ := tt;
     inital_base_ := inital_base_ biped64;
     final_base_ := final_base_ biped64;
     initial_ee_W_ := [];
     nlp := [] |}.

(** A biped whose feet stand half a unit below the base, before its
    initial state is set. *)
Definition walker64
  : MotionOptimizerFacade float unit (list (Composite float)) :=
  {| params_ := params_ biped64;
     model_ := {| GetEECount := 2; GetEEIDs := [0%nat; 1%nat];
                  GetNominalStanceInBase :=
                    [[0.25; 0.125; -0.5]; [0.25; -0.125; -0.5]]%float;
                  GetForceLimit := 0%float; GetStandingZForce := 0%float |};
     terrain_ := tt;
     inital_base_ := inital_base_ biped64;
     final_base_ := final_base_ biped64;
     initial_ee_W_ := [[1; 1; 1]]%float;
     nlp := [] |}.

(** The same biped with its default initial state. *)
Definition walker64_initial
  : MotionOptimizerFacade float unit (list (Composite float)) :=
  {| params_ := params_ walker64;
     model_ := model_ walker64;
     terrain_ := tt;
     inital_base_ :=
       {| lin := {| p_ := [0; 0; 0.5]%float; v_ := [0; 0; 0]%float;
                    a_ := [0; 0; 0]%float |};
          ang := at_rest |};
     final_base_ := final_base_ walker64;
     initial_ee_W_ := [[0.25; 0.125; 0]; [0.25; -0.125; 0]]%float;
     nlp := [] |}.

(** The composite of the biped without the force of limb 1. *)
Definition vars64_without_force : Composite float :=
  {| composite_name := composite_name vars64;
     composite_flag := composite_flag vars64;
     components :=
       filter (fun e => negb (id.eqb (GetName (entry_component e))
                                     (id.GetEEForceId 1)))
              (components vars64) |}.

(** A composite that holds nothing but a schedule of limb [E0], of total
    time -1.0. *)
Definition sunk64 : Composite float :=
  {| composite_name := "nlp_variables"; composite_flag := true;
     components :=
       [{| entry_component :=
             CContactSchedule
               {| schedule_ee := E0; schedule_timings := [-1.0]%float;
                  min_duration := 0%float; max_duration := 0%float;
                  observers := [] |};
           entry_is_variable := true |}] |}.


(** The biped after a solve whose second iterate holds no block. *)
Definition biped64_broken
  : MotionOptimizerFacade float unit (list (Composite float)) :=
  biped CubicHermite
        [[0.5; 0.25; 0.25]; [0.25; 0.5; 0.25]]%float true
        [vars64; empty_composite; vars64].

Lemma BuildVariables_returns_witness :
  biped_variables biped64
  = Ok (nlp_variables
          (base_entries end_points end_point_coefficients biped64
           ++ limb_entries alternating durations end_points biped64 2)).
Proof.
  unfold biped_variables. apply BuildVariables_returns.
  unfold well_formed. simpl. repeat split; auto.
Defined.

Lemma schedule_observed_by_own_blocks_witness :
  exists vars schedule,
    biped_variables biped64 = Ok vars
    /\ lookup as_ContactSchedule (id.GetEEScheduleId 1) vars = Some schedule
    /\ observers schedule
       = [id.GetEEXYMotionId 1; id.GetEEZMotionId 1; id.GetEEForceId 1]
    /\ schedule_ee schedule = 1%nat
    /\ schedule_timings schedule = [0.25; 0.5; 0.25]%float
    /\ min_duration schedule = 0%float
    /\ max_duration schedule = 0%float.
Proof.
  unfold biped_variables.
  apply (@schedule_observed_by_own_blocks _ _ _ _ alternating durations
           end_points no_coefficients end_point_coefficients false biped64 2 1).
  - unfold well_formed. simpl. repeat split; auto.
  - lia.
Defined.

Lemma limb_blocks_start_bound_witness :
  exists vars,
    biped_variables biped64 = Ok vars
    /\ bounds_of vars (id.GetEEXYMotionId 1)
       = Some [bound StartNode kPos [Coords3D.X; Coords3D.Y]
                     [0; 0; 0]%float]
    /\ bounds_of vars (id.GetEEZMotionId 1) = Some []
    /\ bounds_of vars (id.GetEEForceId 1) = Some []
    /\ exists force,
         find_entry (id.GetEEForceId 1) (components vars)
         = Some (entry (CNodeValues force) true)
         /\ nodes_kind force
            = ForceNodes [true; false; true] 3 0%float.
Proof.
  unfold biped_variables.
  apply (@limb_blocks_start_bound _ _ _ _ alternating durations
           end_points no_coefficients end_point_coefficients false biped64
           2 1).
  - unfold well_formed. simpl. repeat split; auto.
  - lia.
Defined.

Lemma coeff_spline_shares_polynomials_witness :
  exists vars spline,
    biped_variables biped64_coeff = Ok vars
    /\ find_entry id.base_linear (components vars)
       = Some (entry (CCoeffSpline spline) false)
    /\ coeff_timings spline = [0; 0]%float
    /\ List.length (poly_vars_ spline) = 2%nat
    /\ forall i p,
         nth_error (poly_vars_ spline) i = Some p ->
         find_entry (id.indexed id.base_linear i) (components vars)
         = Some (entry (CPolynomialVars p) true).
Proof.
  unfold biped_variables.
  apply (@coeff_spline_shares_polynomials _ _ _ _ alternating durations
           end_points no_coefficients end_point_coefficients false biped64_coeff 2
           id.base_linear).
  - unfold well_formed. simpl. repeat split; auto.
  - reflexivity.
  - left. reflexivity.
Defined.

Lemma initial_guess_is_sampled_witness :
  exists vars trajectory,
    biped_variables biped64 = Ok vars
    /\ biped_trajectory biped64 20 0.33%float vars = Ok (trajectory, vars)
    /\ map (@t_global_ _ _) trajectory
       = map (sample_time 0.33%float) (seq 0 4)
    /\ forall state, In state trajectory ->
       forall ee, (ee < 2)%nat ->
         nth_error (ee_contact_ state) ee
         = Some (contact_until_end
                   (with_observers (schedule_of biped64 ee)
                                   (limb_observers ee))
                   (t_global_ state))
         /\ nth_error (ee_motion_ state) ee
            = Some (clock (CNodeValues
                             (xy_motion_of alternating durations end_points
                                           biped64 ee))
                          (t_global_ state))
         /\ nth_error (ee_forces_ state) ee
            = Some (p_ (clock (CNodeValues
                                 (force_of alternating durations end_points
                                           biped64 ee))
                              (t_global_ state))).
Proof.
  unfold biped_variables, biped_trajectory.
  apply (@initial_guess_is_sampled _ _ _ _ _ euler sum_of_durations
           contact_until_end alternating durations clock end_points
           no_coefficients end_point_coefficients false biped64 2 0.33%float 4 20).
  - unfold well_formed. simpl. repeat split; auto.
  - lia.
  - simpl. lia.
  - exact exit_round64_third.
  - lia.
Defined.

Lemma no_limb_no_trajectory_witness :
  exists vars,
    biped_variables limbless64 = Ok vars
    /\ components vars
       = base_entries end_points end_point_coefficients limbless64
    /\ biped_trajectory limbless64 20 0.1%float vars = Err LookupError.
Proof.
  unfold biped_variables, biped_trajectory.
  apply (@no_limb_no_trajectory _ _ _ _ _ euler sum_of_durations
           contact_until_end alternating durations clock end_points
           no_coefficients end_point_coefficients false limbless64 20 0.1%float).
  unfold well_formed. simpl. repeat split; auto.
Defined.

Lemma BuildTrajectory_missing_block_witness :
  biped_trajectory biped64 20 0.1%float vars64_without_force
  = Err LookupError.
Proof.
  unfold biped_trajectory. apply BuildTrajectory_missing_block.
  - vm_compute. reflexivity.
  - vm_compute. split; [reflexivity|lia].
Defined.

Lemma BuildTrajectory_negative_total_time_witness :
  biped_trajectory biped64 20 0.1%float sunk64 = Ok ([], sunk64).
Proof.
  unfold biped_trajectory.
  eapply BuildTrajectory_negative_total_time.
  - vm_compute. reflexivity.
  - vm_compute. reflexivity.
  - lia.
Defined.

(** On binary64 every sample time of the step 0.0 is 0.0. *)
Lemma sample_time64_zero k : sample_time 0%float k = 0%float.
Proof.
  induction k as [|k IH]; [reflexivity|].
  change (sample_time 0%float (S k))
    with (PrimFloat.add (sample_time 0%float k) 0%float).
  rewrite IH. reflexivity.
Qed.

Lemma BuildTrajectory_never_returns_witness :
  biped_trajectory biped64 10 0%float vars64 = Err OutOfFuel
  /\ biped_trajectory biped64 1000 0%float vars64 = Err OutOfFuel.
Proof.
  unfold biped_trajectory.
  assert (H : forall fuel,
             BuildTrajectory euler sum_of_durations contact_until_end clock
                             biped64 fuel 0%float vars64
             = Err OutOfFuel).
  { eapply BuildTrajectory_never_returns.
    - vm_compute. reflexivity.
    - vm_compute. reflexivity.
    - intros k. rewrite sample_time64_zero. vm_compute. reflexivity. }
  split; apply H.
Defined.

Lemma GetTrajectories_first_failure_witness :
  biped_trajectories biped64_broken 20 0.33%float = Err LookupError.
Proof.
  unfold biped_trajectories.
  apply (@GetTrajectories_first_failure _ _ _ _ _ euler sum_of_durations
           contact_until_end clock iteration_count iterate biped64_broken
           20 0.33%float 1 LookupError).
  - simpl. lia.
  - intros j Hj. destruct j as [|j]; [|lia].
    eexists. vm_compute. reflexivity.
  - vm_compute. reflexivity.
Defined.

(** The biped whose model names limb 1 before limb 0. *)
Definition biped64_swapped
  : MotionOptimizerFacade float unit (list (Composite float)) :=
  {| params_ := params_ biped64;
     model_ := {| GetEECount := 2; GetEEIDs := [1%nat; 0%nat];
                  GetNominalStanceInBase := [[0; 0; 0]; [0; 0; 0]]%float;
                  GetForceLimit := 0%float; GetStandingZForce := 0%float |};
     terrain_ := tt;
     inital_base_ := inital_base_ biped64;
     final_base_ := final_base_ biped64;
     initial_ee_W_ := initial_ee_W_ biped64;
     nlp := [] |}.

Lemma BuildVariables_succeeds_iff_witness :
  (exists vars, biped_variables biped64 = Ok vars)
  /\ biped_variables biped64_misconfigured = Err AssertionFailed
  /\ biped_variables biped64_swapped = Err OutOfRange
  /\ (exists vars, release_variables biped64_misconfigured = Ok vars)
  /\ release_variables biped64_swapped = Err OutOfRange.
Proof.
  unfold biped_variables, release_variables.
  split; [|split; [|split; [|split]]].
  - apply (proj1 (BuildVariables_succeeds_iff alternating durations
                    end_points no_coefficients end_point_coefficients
                    false biped64)).
    vm_compute. reflexivity.
  - pose proof (BuildVariables_succeeds_iff alternating durations
                  end_points no_coefficients end_point_coefficients
                  false biped64_misconfigured) as (Hiff & Herr).
    destruct (BuildVariables alternating durations end_points
                no_coefficients end_point_coefficients false
                biped64_misconfigured)
      as [vars|e].
    + assert (H : buildable false biped64_misconfigured = true)
        by (apply Hiff; exists vars; reflexivity).
      vm_compute in H. discriminate.
    + rewrite (Herr e eq_refl). reflexivity.
  - pose proof (BuildVariables_succeeds_iff alternating durations
                  end_points no_coefficients end_point_coefficients
                  false biped64_swapped) as (Hiff & Herr).
    destruct (BuildVariables alternating durations end_points
                no_coefficients end_point_coefficients false biped64_swapped)
      as [vars|e].
    + assert (H : buildable false biped64_swapped = true)
        by (apply Hiff; exists vars; reflexivity).
      vm_compute in H. discriminate.
    + rewrite (Herr e eq_refl). reflexivity.
  - apply (proj1 (BuildVariables_succeeds_iff alternating durations
                    end_points no_coefficients end_point_coefficients
                    true biped64_misconfigured)).
    vm_compute. reflexivity.
  - pose proof (BuildVariables_succeeds_iff alternating durations
                  end_points no_coefficients end_point_coefficients
                  true biped64_swapped) as (Hiff & Herr).
    destruct (BuildVariables alternating durations end_points
                no_coefficients end_point_coefficients true biped64_swapped)
      as [vars|e].
    + assert (H : buildable true biped64_swapped = true)
        by (apply Hiff; exists vars; reflexivity).
      vm_compute in H. discriminate.
    + rewrite (Herr e eq_refl). reflexivity.
Defined.

Lemma SolveProblem_result_witness :
  (exists variables,
     biped_variables biped64 = Ok variables
     /\ (Ipopt = Ipopt
         /\ set_nlp biped64 [vars64]
            = set_nlp biped64
                (idle_solver
                   (problem_of keep_variables drop_constraints
                      drop_constraints no_constraint no_cost biped64
                      variables))
         \/ Ipopt = Snopt
            /\ set_nlp biped64 [vars64]
               = set_nlp biped64
                   (idle_solver
                      (problem_of keep_variables drop_constraints
                         drop_constraints no_constraint no_cost biped64
                         variables))
         \/ known Ipopt = false
            /\ false = true
            /\ set_nlp biped64 [vars64]
               = set_nlp biped64
                   (problem_of keep_variables drop_constraints
                      drop_constraints no_constraint no_cost biped64
                      variables)))
  /\ (exists variables,
        release_variables biped64 = Ok variables
        /\ (OtherSolver 3 = Ipopt
            /\ set_nlp biped64 [vars64]
               = set_nlp biped64
                   (idle_solver
                      (problem_of keep_variables drop_constraints
                         drop_constraints no_constraint no_cost biped64
                         variables))
            \/ OtherSolver 3 = Snopt
               /\ set_nlp biped64 [vars64]
                  = set_nlp biped64
                      (idle_solver
                         (problem_of keep_variables drop_constraints
                            drop_constraints no_constraint no_cost biped64
                            variables))
            \/ known (OtherSolver 3) = false
               /\ true = true
               /\ set_nlp biped64 [vars64]
                  = set_nlp biped64
                      (problem_of keep_variables drop_constraints
                         drop_constraints no_constraint no_cost biped64
                         variables))).
Proof.
  unfold biped_variables, release_variables. split.
  - apply (@SolveProblem_result _ _ _ _ _ alternating durations end_points
             no_coefficients end_point_coefficients keep_variables
             drop_constraints drop_constraints idle_solver idle_solver
             no_constraint no_cost false biped64 Ipopt
             (set_nlp biped64 [vars64])).
    vm_compute. reflexivity.
  - apply (@SolveProblem_result _ _ _ _ _ alternating durations end_points
             no_coefficients end_point_coefficients keep_variables
             drop_constraints drop_constraints idle_solver idle_solver
             no_constraint no_cost true biped64 (OtherSolver 3)
             (set_nlp biped64 [vars64])).
    vm_compute. reflexivity.
Defined.

Lemma SolveProblem_succeeds_iff_witness :
  (exists this', biped_solve biped64 Snopt = Ok this')
  /\ biped_solve biped64 (OtherSolver 3) = Err AssertionFailed
  /\ biped_solve biped64_swapped Ipopt = Err OutOfRange
  /\ (exists this', release_solve biped64 (OtherSolver 3) = Ok this')
  /\ (exists this',
        release_solve biped64_misconfigured (OtherSolver 3) = Ok this').
Proof.
  unfold biped_solve, release_solve. split; [|split; [|split; [|split]]].
  - apply (proj1 (SolveProblem_succeeds_iff alternating durations
                    end_points no_coefficients end_point_coefficients
                    keep_variables drop_constraints drop_constraints
                    idle_solver idle_solver no_constraint no_cost
                    false biped64 Snopt)).
    vm_compute. split; reflexivity.
  - pose proof (SolveProblem_succeeds_iff alternating durations
                  end_points no_coefficients end_point_coefficients
                  keep_variables drop_constraints drop_constraints
                  idle_solver idle_solver no_constraint no_cost
                  false biped64 (OtherSolver 3)) as (Hiff & Herr & _).
    destruct (SolveProblem alternating durations end_points
                no_coefficients end_point_coefficients keep_variables
                drop_constraints drop_constraints idle_solver idle_solver
                no_constraint no_cost false biped64 (OtherSolver 3))
      as [this'|e].
    + assert (H : buildable false biped64 = true
                  /\ known (OtherSolver 3) || false = true)
        by (apply Hiff; exists this'; reflexivity).
      destruct H as (_ & H). discriminate.
    + rewrite (Herr e eq_refl). vm_compute. reflexivity.
  - pose proof (SolveProblem_succeeds_iff alternating durations
                  end_points no_coefficients end_point_coefficients
                  keep_variables drop_constraints drop_constraints
                  idle_solver idle_solver no_constraint no_cost
                  false biped64_swapped Ipopt) as (Hiff & Herr & _).
    destruct (SolveProblem alternating durations end_points
                no_coefficients end_point_coefficients keep_variables
                drop_constraints drop_constraints idle_solver idle_solver
                no_constraint no_cost false biped64_swapped Ipopt)
      as [this'|e].
    + assert (H : buildable false biped64_swapped = true
                  /\ known Ipopt || false = true)
        by (apply Hiff; exists this'; reflexivity).
      destruct H as (H & _). vm_compute in H. discriminate.
    + rewrite (Herr e eq_refl). vm_compute. reflexivity.
  - apply (proj1 (SolveProblem_succeeds_iff alternating durations
                    end_points no_coefficients end_point_coefficients
                    keep_variables drop_constraints drop_constraints
                    idle_solver idle_solver no_constraint no_cost
                    true biped64 (OtherSolver 3))).
    vm_compute. split; reflexivity.
  - apply (proj1 (SolveProblem_succeeds_iff alternating durations
                    end_points no_coefficients end_point_coefficients
                    keep_variables drop_constraints drop_constraints
                    idle_solver idle_solver no_constraint no_cost
                    true biped64_misconfigured (OtherSolver 3))).
    vm_compute. split; reflexivity.
Defined.

Lemma BuildDefaultInitialState_succeeds_iff_witness :
  (exists this', BuildDefaultInitialState [] walker64 = Ok this')
  /\ BuildDefaultInitialState [] limbless64 = Err OutOfRange.
Proof.
  split.
  - apply (proj1 (BuildDefaultInitialState_succeeds_iff [] walker64)).
    simpl. lia.
  - pose proof (BuildDefaultInitialState_succeeds_iff [] limbless64)
      as (Hiff & Herr).
    destruct (BuildDefaultInitialState [] limbless64) as [this'|e].
    + assert (H : (1 <= List.length
                          (GetNominalStanceInBase (model_ limbless64)))%nat
                  /\ (GetEECount (model_ limbless64)
                      <= List.length
                           (GetNominalStanceInBase (model_ limbless64)))%nat)
        by (apply Hiff; exists this'; reflexivity).
      simpl in H. lia.
    + rewrite (Herr e eq_refl). reflexivity.
Defined.

Lemma BuildDefaultInitialState_result_witness :
  BuildDefaultInitialState [] walker64 = Ok walker64_initial
  /\ List.length (initial_ee_W_ walker64_initial) = 2%nat
  /\ (forall ee x y h,
        (ee < 2)%nat ->
        nth_error [[0.25; 0.125; -0.5]; [0.25; -0.125; -0.5]]%float ee
        = Some [x; y; h] ->
        nth_error (initial_ee_W_ walker64_initial) ee
        = Some [PrimFloat.add x 0; PrimFloat.add y 0; 0]%float)
  /\ p_ (lin (inital_base_ walker64_initial)) = [0; 0; 0.5]%float
  /\ p_ (ang (inital_base_ walker64_initial)) = [0; 0; 0]%float.
Proof.
  assert (Hrun : BuildDefaultInitialState [] walker64 = Ok walker64_initial)
    by (vm_compute; reflexivity).
  split; [exact Hrun|].
  destruct (BuildDefaultInitialState_result [] walker64 Hrun)
    as (Hlen & Hfeet & Hlin & Hang & _).
  split; [exact Hlen|]. split; [exact Hfeet|].
  split; [reflexivity|exact Hang].
Defined.

Lemma default_state_is_buildable_witness :
  exists vars,
    biped_variables walker64_initial = Ok vars
    /\ forall ee x y h,
         (ee < 2)%nat ->
         nth_error [[0.25; 0.125; -0.5]; [0.25; -0.125; -0.5]]%float ee
         = Some [x; y; h] ->
         bounds_of vars (id.GetEEXYMotionId ee)
         = Some [bound StartNode kPos [Coords3D.X; Coords3D.Y]
                       [PrimFloat.add x 0; PrimFloat.add y 0; 0]%float].
Proof.
  unfold biped_variables.
  assert (Hrun : BuildDefaultInitialState [] walker64 = Ok walker64_initial)
    by (vm_compute; reflexivity).
  assert (Htimings : (GetEECount (model_ walker64)
                      <= List.length (contact_timings_ (params_ walker64)))%nat)
    by (simpl; lia).
  exact (@default_state_is_buildable _ _ _ _ alternating durations
           end_points no_coefficients end_point_coefficients false _ []
           walker64 walker64_initial Hrun eq_refl Htimings eq_refl).
Defined.

Lemma several_states_need_positive_step_witness :
  PrimFloat.ltb 0 0.33 = true.
Proof.
  apply (@several_states_need_positive_step _ unit _ euler sum_of_durations
           contact_until_end clock biped64 20 0.33%float vars64
           (match value (biped_trajectory biped64 20 0.33%float vars64) with
            | Ok trajectory => trajectory
            | Err _ => []
            end)
           vars64).
  - vm_compute. reflexivity.
  - vm_compute. lia.
Defined.

Lemma nonpositive_step_never_returns_witness :
  (forall k, PrimFloat.leb (sample_time (-0.5)%float k) 0 = true)
  /\ forall fuel,
       biped_trajectory biped64 fuel (-0.5)%float vars64 = Err OutOfFuel.
Proof.
  unfold biped_trajectory.
  apply (@nonpositive_step_never_returns _ unit _ euler sum_of_durations
           contact_until_end clock biped64 (-0.5)%float vars64
           (with_observers (schedule_of biped64 E0) (limb_observers E0))).
  - vm_compute. reflexivity.
  - vm_compute. reflexivity.
  - vm_compute. reflexivity.
  - vm_compute. reflexivity.
Defined.


Lemma BuildVariables_names_distinct_witness :
  exists vars,
    biped_variables biped64_coeff = Ok vars
    /\ NoDup (names (components vars))
    /\ List.length (components vars) = 14%nat.
Proof.
  unfold biped_variables.
  destruct (@BuildVariables_names_distinct _ _ _ _ alternating durations
              end_points no_coefficients end_point_coefficients
              false biped64_coeff 2)
    as (vars & Hrun & Hnames & Hlen).
  - unfold well_formed. simpl. repeat split; auto.
  - exists vars. split; [exact Hrun|]. split; [exact Hnames|exact Hlen].
Defined.
